(** * A shallow embedding of sudoku.c and its verified properties

    The program is a backtracking Sudoku solver over one [struct board].
    The embedding follows the C source function by function:

    - [int] is [Z]; every value the program computes on a board it can
      reach stays between -1 and 81, so no arithmetic leaves the range
      of [int];
    - an array [T a[ARRAY_SIZE]] is a [list T], read with [a !!! ix i]
      and written with [<[ix i := x]> a]; C gives no meaning to an access
      outside the array, so every statement below is about indices inside
      it (index 0 exists, and [init_board] never writes it);
    - a [candidates *] is a [cand_ptr]: the address of one element of the
      three arrays [rows], [columns], [squares] of the board, so that the
      cells of one row really share one candidates array;
    - a function that writes through a [struct board *] takes the board
      and returns the new one;
    - the recursion of [solve_board] is bounded by a [fuel] argument and
      its two loops by fixed budgets; [None] means that a bound was hit,
      and the termination theorem shows that it never is. *)

From Stdlib Require Import ZArith Lia List Ascii String Bool.
From stdpp Require Import base numbers list pretty.

Open Scope Z_scope.

(** ** Constants *)

Definition SUBDIMENSION : Z := 3.
Definition MIN_NUM : Z := 1.
Definition MAX_NUM : Z := 9.
Definition TOTAL_NUMS : Z := 9.
Definition ARRAY_SIZE : Z := MIN_NUM + TOTAL_NUMS.

(** The index of an array access. *)
Definition ix (i : Z) : nat := Z.to_nat i.

(** The values [lo, lo+1, ..., hi] a loop
    [for (i = lo; i <= hi; ++i)] runs through. *)
Definition for_range (lo hi : Z) : list Z := seqZ lo (hi + 1 - lo).

(** ** Candidates, cells and boards *)

(** [typedef int candidates[ARRAY_SIZE]]. *)
Definition candidates : Type := list Z.

(** A pointer [b->rows + i], [b->columns + i] or [b->squares + i]. *)
Inductive cand_ptr : Type :=
| RowsAt (i : Z)
| ColumnsAt (i : Z)
| SquaresAt (i : Z).

Record cell : Type := mkcell {
  has_value : Z;
  value : Z;
  row_candidates : cand_ptr;
  col_candidates : cand_ptr;
  square_candidates : cand_ptr
}.

Record board : Type := mkboard {
  unset_cells : Z;
  cells : list (list cell);
  rows : list candidates;
  columns : list candidates;
  squares : list candidates
}.

#[global] Instance cell_inhabited : Inhabited cell :=
  populate (mkcell 0 0 (RowsAt 0) (ColumnsAt 0) (SquaresAt 0)).

(** Reading and writing the array a candidates pointer [p] points to. *)
Definition deref (b : board) (p : cand_ptr) : candidates :=
  match p with
  | RowsAt i => rows b !!! ix i
  | ColumnsAt i => columns b !!! ix i
  | SquaresAt i => squares b !!! ix i
  end.

Definition store (b : board) (p : cand_ptr) (cs : candidates) : board :=
  match p with
  | RowsAt i =>
      mkboard (unset_cells b) (cells b) (<[ix i := cs]> (rows b)) (columns b) (squares b)
  | ColumnsAt i =>
      mkboard (unset_cells b) (cells b) (rows b) (<[ix i := cs]> (columns b)) (squares b)
  | SquaresAt i =>
      mkboard (unset_cells b) (cells b) (rows b) (columns b) (<[ix i := cs]> (squares b))
  end.

(** Reading and writing [b->cells[r][c]] and [b->unset_cells]. *)
Definition cell_at (b : board) (r c : Z) : cell :=
  (cells b !!! ix r) !!! ix c.

Definition write_cell (b : board) (r c : Z) (x : cell) : board :=
  mkboard (unset_cells b)
          (<[ix r := <[ix c := x]> (cells b !!! ix r)]> (cells b))
          (rows b) (columns b) (squares b).

Definition write_unset_cells (b : board) (n : Z) : board :=
  mkboard n (cells b) (rows b) (columns b) (squares b).

Definition with_has_value (x : cell) (v : Z) : cell :=
  mkcell v (value x) (row_candidates x) (col_candidates x) (square_candidates x).

Definition with_value (x : cell) (v : Z) : cell :=
  mkcell (has_value x) v (row_candidates x) (col_candidates x) (square_candidates x).

(** ** Candidates *)

(** Entry [i] of the array [c] points to becomes 0, for [i] from
    [MIN_NUM] to [MAX_NUM]. *)
Definition init_candidates (b : board) (c : cand_ptr) : board :=
  foldl (fun b i => store b c (<[ix i := 0]> (deref b c))) b (for_range MIN_NUM MAX_NUM).

(** Entry [num] of the array [cp] points to becomes 1. *)
Definition use_candidate (b : board) (cp : cand_ptr) (num : Z) : board :=
  store b cp (<[ix num := 1]> (deref b cp)).

(** Entry [num] of the array [cp] points to becomes 0. *)
Definition restore_candidate (b : board) (cp : cand_ptr) (num : Z) : board :=
  store b cp (<[ix num := 0]> (deref b cp)).

(** ** Cells and boards *)

(** C division truncates: [Z.quot]. *)
Definition square (row col : Z) : Z :=
  ((row - 1) ÷ SUBDIMENSION) * SUBDIMENSION + ((col - 1) ÷ SUBDIMENSION) + 1.

Definition init_board (b : board) : board :=
  let b := write_unset_cells b (TOTAL_NUMS * TOTAL_NUMS) in
  foldl (fun b i =>
           let b := init_candidates b (RowsAt i) in
           let b := init_candidates b (ColumnsAt i) in
           let b := init_candidates b (SquaresAt i) in
           foldl (fun b j =>
                    write_cell b i j
                      (mkcell 0 0 (RowsAt i) (ColumnsAt j) (SquaresAt (square i j))))
                 b (for_range MIN_NUM MAX_NUM))
        b (for_range MIN_NUM MAX_NUM).

(** The loop of [find_common_free]: [n] is the number of values from [i]
    to [MAX_NUM], so [n = 0] is the loop test [i <= MAX_NUM] failing. *)
Fixpoint find_common_free_from (n : nat) (r c s : candidates) (i : Z) : Z :=
  match n with
  | O => -1
  | S n' =>
      if (r !!! ix i =? 0) && (c !!! ix i =? 0) && (s !!! ix i =? 0)
      then i
      else find_common_free_from n' r c s (i + 1)
  end.

(** The function only reads the three arrays: it takes their contents. *)
Definition find_common_free (r c s : candidates) (atleast : Z) : Z :=
  find_common_free_from (Z.to_nat (MAX_NUM + 1 - atleast)) r c s atleast.

Definition set_cell (b : board) (r c val : Z) : board :=
  let b := write_unset_cells b (unset_cells b - 1) in
  let b := write_cell b r c (with_has_value (cell_at b r c) 1) in
  let b := write_cell b r c (with_value (cell_at b r c) val) in
  let b := use_candidate b (row_candidates (cell_at b r c)) val in
  let b := use_candidate b (col_candidates (cell_at b r c)) val in
  use_candidate b (square_candidates (cell_at b r c)) val.

Definition unset_cell (b : board) (r c val : Z) : board :=
  let b := write_unset_cells b (unset_cells b + 1) in
  let b := write_cell b r c (with_has_value (cell_at b r c) 0) in
  let b := write_cell b r c (with_value (cell_at b r c) 0) in
  let b := restore_candidate b (row_candidates (cell_at b r c)) val in
  let b := restore_candidate b (col_candidates (cell_at b r c)) val in
  restore_candidate b (square_candidates (cell_at b r c)) val.

Definition is_set (b : board) (r c : Z) : Z :=
  has_value (cell_at b r c).

(** C's [%] truncates: [Z.rem]. *)
Definition following (num : Z) : Z :=
  Z.rem (num - MIN_NUM + 1) TOTAL_NUMS + MIN_NUM.

(** [next_cell(&r, &c)]: the returned int, then the new row and column. *)
Definition next_cell (r c : Z) : Z * Z * Z :=
  if (r =? MAX_NUM) && (c =? MAX_NUM) then (0, r, c)
  else
    let c := following c in
    let r := if c =? MIN_NUM then following r else r in
    (1, r, c).

(** The values of row [r], columns 1 to 9. *)
Definition row_values (b : board) (r : Z) : list Z :=
  map (fun c => value (cell_at b r c)) (for_range MIN_NUM MAX_NUM).

(** The numbers [print_board] writes, line by line. *)
Definition print_board (b : board) : list (list Z) :=
  map (row_values b) (for_range MIN_NUM MAX_NUM).


(** ** The solver *)

(** [while (is_set(b, r, c) && next_cell(&r, &c)) ;] with at most [n]
    evaluations of the loop test. *)
Fixpoint find_unset (n : nat) (b : board) (r c : Z) : option (Z * Z) :=
  match n with
  | O => None
  | S n' =>
      if is_set b r c =? 0 then Some (r, c)
      else
        let '(more, r', c') := next_cell r c in
        if more =? 0 then Some (r', c')
        else find_unset n' b r' c'
  end.

(** The candidate loop [while (1) { ... }] of [solve_board] with at most
    [n] iterations; [solve] is the recursive call. The result is the
    returned int and the board left behind. *)
Fixpoint try_candidates (solve : board -> Z -> Z -> option (Z * board))
    (n : nat) (b : board) (r c prev : Z) : option (Z * board) :=
  match n with
  | O => None
  | S n' =>
      let val := find_common_free (deref b (row_candidates (cell_at b r c)))
                                  (deref b (col_candidates (cell_at b r c)))
                                  (deref b (square_candidates (cell_at b r c)))
                                  prev in
      if val =? -1 then Some (0, b)
      else
        let b := set_cell b r c val in
        match solve b r c with
        | None => None
        | Some (ret, b) =>
            if ret =? 0 then try_candidates solve n' (unset_cell b r c val) r c (val + 1)
            else Some (1, b)
        end
  end.

(** The scan visits each of the 81 positions at most once, and the floor
    of the candidate loop takes at most the values 1 to 10. *)
Definition scan_budget : nat := Z.to_nat (TOTAL_NUMS * TOTAL_NUMS).
Definition try_budget : nat := Z.to_nat ARRAY_SIZE.

(** [fuel] bounds the number of nested activations. The call of
    [print_board] in the base case writes the grid to the output and
    leaves the board alone: the output of a search that ends there is
    [print_board] of the board returned. *)
Fixpoint solve_board (fuel : nat) (b : board) (r c : Z) : option (Z * board) :=
  match fuel with
  | O => None
  | S fuel' =>
      if unset_cells b =? 0 then Some (1, b)
      else
        match find_unset scan_budget b r c with
        | None => None
        | Some (r, c) =>
            if is_set b r c =? 0
            then try_candidates (solve_board fuel') try_budget b r c MIN_NUM
            else Some (1, b)
        end
  end.

(** ** Reading a board *)

Definition EOF : Z := -1.

Definition char_code (a : ascii) : Z := Z.of_N (N_of_ascii a).

(** [isdigit(c)] in the C locale. *)
Definition isdigit (c : Z) : Z :=
  if (char_code "0" <=? c) && (c <=? char_code "9") then 1 else 0.

(** One pass through the body of the loop of [read_board] with [c] the
    int returned by [fgetc]. The flag is [false] when the body breaks. *)
Definition read_char (c : Z) (b : board) (row col : Z) : bool * board * Z * Z :=
  if (negb (isdigit c =? 0) && negb (c =? char_code "0")) || (c =? char_code ".")
  then
    let b := if negb (c =? char_code ".") then set_cell b row col (c - char_code "0") else b in
    let '(more, row, col) := next_cell row col in
    if more =? 0 then (false, b, row, col) else (true, b, row, col)
  else (true, b, row, col).

(** The stream is the list of characters still to be read. At its end
    [fgetc] returns [EOF] and sets the end-of-file indicator, so the body
    runs once more with [EOF] and the loop test [! feof(f)] then fails. *)
Fixpoint read_loop (input : list ascii) (b : board) (row col : Z) : board :=
  match input with
  | [] => let '(_, b, _, _) := read_char EOF b row col in b
  | a :: rest =>
      let '(more, b, row, col) := read_char (char_code a) b row col in
      if more then read_loop rest b row col else b
  end.

Definition read_board (f : string) (b : board) : board :=
  read_loop (list_ascii_of_string f) b MIN_NUM MIN_NUM.

(** ** Concrete boards *)

(** A [struct board] before [init_board]: the memory holds the arrays,
    their contents are arbitrary; here everything is zero. *)
Definition blank_cell : cell := mkcell 0 0 (RowsAt 0) (ColumnsAt 0) (SquaresAt 0).

Definition blank_board : board :=
  let n := Z.to_nat ARRAY_SIZE in
  mkboard 0 (replicate n (replicate n blank_cell))
          (replicate n (replicate n 0))
          (replicate n (replicate n 0))
          (replicate n (replicate n 0)).

Definition empty_board : board := init_board blank_board.

(** * The vocabulary of the properties *)

(** ** Ranges and well-formed boards *)

(** A row, column, square or cell value the program works with. *)
Definition in_range (n : Z) : Prop := MIN_NUM <= n <= MAX_NUM.

(** The memory of a [struct board]: every array has [ARRAY_SIZE] entries. *)
Definition sized {A : Type} (l : list A) : Prop := length l = Z.to_nat ARRAY_SIZE.

Record allocated (b : board) : Prop := mk_allocated {
  alloc_cells : sized (cells b) /\ Forall sized (cells b);
  alloc_rows : sized (rows b) /\ Forall sized (rows b);
  alloc_columns : sized (columns b) /\ Forall sized (columns b);
  alloc_squares : sized (squares b) /\ Forall sized (squares b)
}.

(** The cell's pointers are the ones [init_board] stores. *)
Definition linked (b : board) (r c : Z) : Prop :=
  row_candidates (cell_at b r c) = RowsAt r /\
  col_candidates (cell_at b r c) = ColumnsAt c /\
  square_candidates (cell_at b r c) = SquaresAt (square r c).

(** What holds of a board from [init_board] on, whatever is done to it
    with [set_cell] and [unset_cell]: the arrays are there, the cells
    point to their candidates, and a cell without value has value 0. *)
Record well_formed (b : board) : Prop := mk_well_formed {
  wf_allocated : allocated b;
  wf_linked : forall r c, in_range r -> in_range c -> linked b r c;
  wf_unset : forall r c, in_range r -> in_range c ->
             has_value (cell_at b r c) = 0 -> value (cell_at b r c) = 0
}.

(** Value [v] is free for the cell: unmarked in the three arrays the
    cell points to. This is the second assertion of [set_cell]. *)
Definition unmarked (b : board) (r c v : Z) : Prop :=
  deref b (row_candidates (cell_at b r c)) !!! ix v = 0 /\
  deref b (col_candidates (cell_at b r c)) !!! ix v = 0 /\
  deref b (square_candidates (cell_at b r c)) !!! ix v = 0.

(** The cell has a value and it is [v]. *)
Definition holds (b : board) (r c v : Z) : Prop :=
  has_value (cell_at b r c) <> 0 /\ value (cell_at b r c) = v.

(** ** Arrays of arrays *)

(** [l[i][j]] and the array after [l[i][j] = x]. *)
Definition get2 {A : Type} `{Inhabited A} (l : list (list A)) (i j : nat) : A :=
  (l !!! i) !!! j.

Definition upd2 {A : Type} `{Inhabited A} (l : list (list A)) (i j : nat) (x : A)
  : list (list A) :=
  <[i := <[j := x]> (l !!! i)]> l.

(** ** What [set_cell] and [unset_cell] do to a linked cell *)

(** The cell is inside the array of cells. *)
Definition cell_inside (b : board) (r c : Z) : Prop :=
  (ix r < length (cells b))%nat /\ (ix c < length (cells b !!! ix r))%nat.

(** Both functions write the two fields of the cell and then the three
    arrays its pointers lead to; [mark] is what they store there. *)
Definition touch_cell (b : board) (r c : Z) (count flag val mark entry : Z) : board :=
  let b := write_unset_cells b count in
  let b := write_cell b r c (with_has_value (cell_at b r c) flag) in
  let b := write_cell b r c (with_value (cell_at b r c) val) in
  let b := store b (row_candidates (cell_at b r c))
                 (<[ix entry := mark]> (deref b (row_candidates (cell_at b r c)))) in
  let b := store b (col_candidates (cell_at b r c))
                 (<[ix entry := mark]> (deref b (col_candidates (cell_at b r c)))) in
  store b (square_candidates (cell_at b r c))
        (<[ix entry := mark]> (deref b (square_candidates (cell_at b r c)))).

(** Entry [v] of the candidates of row [r], column [c], square [k]. *)
Definition row_mark (b : board) (r v : Z) : Z := get2 (rows b) (ix r) (ix v).
Definition col_mark (b : board) (c v : Z) : Z := get2 (columns b) (ix c) (ix v).
Definition square_mark (b : board) (k v : Z) : Z := get2 (squares b) (ix k) (ix v).

(** ** [find_common_free] *)

(** Value [v] is unmarked in the three arrays. *)
Definition free3 (r c s : candidates) (v : Z) : Prop :=
  r !!! ix v = 0 /\ c !!! ix v = 0 /\ s !!! ix v = 0.

(** ** Positions *)

(** The place of a cell in the order of [next_cell]: 0 for (1,1), 80
    for (9,9). *)
Definition cell_index (r c : Z) : Z := (r - MIN_NUM) * TOTAL_NUMS + (c - MIN_NUM).

(** ** The candidate tried for a cell *)

(** The call of [find_common_free] in [solve_board]. *)
Definition candidate (b : board) (r c prev : Z) : Z :=
  find_common_free (deref b (row_candidates (cell_at b r c)))
                   (deref b (col_candidates (cell_at b r c)))
                   (deref b (square_candidates (cell_at b r c)))
                   prev.

(** ** What a search leaves behind *)

(** The result is 0 or 1; the board stays well formed; a failed search
    leaves the board it was given; no search touches a cell that had a
    value. *)
Definition search_post (b : board) (ret : Z) (b' : board) : Prop :=
  well_formed b' /\
  (ret = 0 \/ ret = 1) /\
  (ret = 0 -> b' = b) /\
  (forall i j, in_range i -> in_range j ->
               is_set b i j <> 0 -> cell_at b' i j = cell_at b i j).

(** ** [init_board] *)

(** The cell [init_board] writes at row [i], column [j]. *)
Definition fresh_cell (i j : Z) : cell :=
  mkcell 0 0 (RowsAt i) (ColumnsAt j) (SquaresAt (square i j)).

(** Entry [v] of the array [p] points to becomes [x]. *)
Definition mark_set (b : board) (p : cand_ptr) (v x : Z) : board :=
  store b p (<[ix v := x]> (deref b p)).

(** All marks of row, column and square [i] are 0. *)
Definition zeroed (b : board) (i : Z) : Prop :=
  forall v, in_range v ->
    row_mark b i v = 0 /\ col_mark b i v = 0 /\ square_mark b i v = 0.

(** Any mark of the array [p] points to is 0 after [init_candidates]. *)
Definition mark_of (b : board) (p : cand_ptr) (v : Z) : Z := deref b p !!! ix v.

Definition ptr_index (p : cand_ptr) : Z :=
  match p with RowsAt i | ColumnsAt i | SquaresAt i => i end.

(** One pass of the outer loop of [init_board], and of its inner loop. *)
Definition init_cell (i : Z) (b : board) (j : Z) : board :=
  write_cell b i j (fresh_cell i j).

Definition init_row (b : board) (i : Z) : board :=
  let b := init_candidates b (RowsAt i) in
  let b := init_candidates b (ColumnsAt i) in
  let b := init_candidates b (SquaresAt i) in
  foldl (init_cell i) b (for_range MIN_NUM MAX_NUM).

(** ** The marks of one kind of group *)

(** [group r c] is the group cell (r, c) belongs to (its row, its
    column or its square) and [mark b k v] is entry [v] of the
    candidates of group [k]. The mark of [v] is set exactly when a cell
    of the group holds [v]. *)
Definition marks_agree (group : Z -> Z -> Z) (mark : board -> Z -> Z -> Z) (b : board)
  : Prop :=
  forall k v, in_range k -> in_range v ->
    (mark b k v <> 0 <->
     exists r c, in_range r /\ in_range c /\ group r c = k /\ holds b r c v).

(** No two cells of a group hold the same value. *)
Definition held_once (group : Z -> Z -> Z) (b : board) : Prop :=
  forall r c r' c' v,
    in_range r -> in_range c -> in_range r' -> in_range c' ->
    group r c = group r' c' -> holds b r c v -> holds b r' c' v ->
    r = r' /\ c = c'.

(** ** Counting the cells without value *)

(** The 81 cells, in the order of [next_cell]. *)
Definition all_cells : list (Z * Z) :=
  flat_map (fun r => map (fun c => (r, c)) (for_range MIN_NUM MAX_NUM))
           (for_range MIN_NUM MAX_NUM).

Fixpoint count_unset_in (b : board) (l : list (Z * Z)) : Z :=
  match l with
  | [] => 0
  | (r, c) :: l => (if is_set b r c =? 0 then 1 else 0) + count_unset_in b l
  end.

Definition count_unset (b : board) : Z := count_unset_in b all_cells.

(** ** The board invariant *)

(** The invariant of the data model: a value is marked for a row, a
    column or a square exactly when one of its cells holds the value, and
    the counter is the number of cells without value. *)
Definition board_invariant (b : board) : Prop :=
  (forall r v, in_range r -> in_range v ->
     (row_mark b r v <> 0 <-> exists c, in_range c /\ holds b r c v)) /\
  (forall c v, in_range c -> in_range v ->
     (col_mark b c v <> 0 <-> exists r, in_range r /\ holds b r c v)) /\
  (forall k v, in_range k -> in_range v ->
     (square_mark b k v <> 0 <->
      exists r c, in_range r /\ in_range c /\ square r c = k /\ holds b r c v)) /\
  unset_cells b = count_unset b.

Definition row_of (r c : Z) : Z := r.
Definition col_of (r c : Z) : Z := c.

(** No row, column or square holds a value twice. *)
Definition no_repeats (b : board) : Prop :=
  held_once row_of b /\ held_once col_of b /\ held_once square b.

(** The invariant together with what makes it inductive: no value twice
    in a row, column or square, and every value between 1 and 9. *)
Record consistent (b : board) : Prop := mk_consistent {
  con_wf : well_formed b;
  con_values : forall r c, in_range r -> in_range c ->
               is_set b r c <> 0 -> in_range (value (cell_at b r c));
  con_rows : marks_agree row_of row_mark b;
  con_cols : marks_agree col_of col_mark b;
  con_squares : marks_agree square square_mark b;
  con_row_once : held_once row_of b;
  con_col_once : held_once col_of b;
  con_square_once : held_once square b;
  con_count : unset_cells b = count_unset b
}.

(** The boards the program gets to when every call respects the
    assertions of the function it calls. *)
Inductive reachable : board -> Prop :=
| reach_init (b0 : board) :
    allocated b0 -> reachable (init_board b0)
| reach_set (b : board) (r c val : Z) :
    reachable b -> in_range r -> in_range c -> in_range val ->
    is_set b r c = 0 -> unmarked b r c val ->
    reachable (set_cell b r c val)
| reach_unset (b : board) (r c val : Z) :
    reachable b -> in_range r -> in_range c -> in_range val ->
    holds b r c val ->
    reachable (unset_cell b r c val).

(** The boards a puzzle is loaded into: the givens are placed one by one
    on the initialised board. *)
Inductive loaded : board -> Prop :=
| load_init (b0 : board) :
    allocated b0 -> loaded (init_board b0)
| load_set (b : board) (r c val : Z) :
    loaded b -> in_range r -> in_range c -> in_range val ->
    is_set b r c = 0 -> unmarked b r c val ->
    loaded (set_cell b r c val).

(** The boards whose cells with a value all got it from one call of
    [set_cell], whether the value was free for the cell or not. *)
Inductive placed : board -> Prop :=
| place_init (b0 : board) :
    allocated b0 -> placed (init_board b0)
| place_set (b : board) (r c val : Z) :
    placed b -> in_range r -> in_range c -> in_range val ->
    is_set b r c = 0 ->
    placed (set_cell b r c val).

(** ** The search on a consistent board *)

(** Every cell before [(r, c)] has a value. *)
Definition prefix_set (b : board) (r c : Z) : Prop :=
  forall i j, in_range i -> in_range j ->
              cell_index i j < cell_index r c -> is_set b i j <> 0.

(** Every cell has a value. *)
Definition complete (b : board) : Prop :=
  forall r c, in_range r -> in_range c -> is_set b r c <> 0.

(** The counter is the number of cells without value. *)
Definition counted (b : board) : Prop :=
  well_formed b /\ unset_cells b = count_unset b.

(** The board a search leaves is consistent, and complete when the
    search reports success. *)
Definition search_good (ret : Z) (b' : board) : Prop :=
  consistent b' /\ (ret <> 0 -> unset_cells b' = 0).

(** ** A complete consistent board is a solved Sudoku *)

(** The cells of group [k]. *)
Definition group_cells (group : Z -> Z -> Z) (k : Z) : list (Z * Z) :=
  filter (fun p => group p.1 p.2 = k) all_cells.

(** Every cell has a value, and each of 1 to 9 is exactly once in every
    row, every column and every square. *)
Definition solved (b : board) : Prop :=
  complete b /\
  (forall r v, in_range r -> in_range v ->
     exists c, (in_range c /\ value (cell_at b r c) = v) /\
               forall c', in_range c' -> value (cell_at b r c') = v -> c' = c) /\
  (forall c v, in_range c -> in_range v ->
     exists r, (in_range r /\ value (cell_at b r c) = v) /\
               forall r', in_range r' -> value (cell_at b r' c) = v -> r' = r) /\
  (forall k v, in_range k -> in_range v ->
     exists r c, (in_range r /\ in_range c /\ square r c = k /\ value (cell_at b r c) = v) /\
                 forall r' c', in_range r' -> in_range c' -> square r' c' = k ->
                               value (cell_at b r' c') = v -> r' = r /\ c' = c).

(** ** The activations of a search *)



(** ** [read_board] against the description of its input format *)

(** The characters that stand for a cell, and the value of a digit. *)
Definition is_cell_char (a : ascii) : bool :=
  match a with
  | "1" | "2" | "3" | "4" | "5" | "6" | "7" | "8" | "9" | "." => true
  | _ => false
  end%char.

Definition digit_value (a : ascii) : Z :=
  match a with
  | "1" => 1 | "2" => 2 | "3" => 3 | "4" => 4 | "5" => 5
  | "6" => 6 | "7" => 7 | "8" => 8 | "9" => 9
  | _ => 0
  end%char.

(** The characters that give a cell its value: 1 to 9, not 0. *)
Definition is_value_char (a : ascii) : bool :=
  match a with
  | "1" | "2" | "3" | "4" | "5" | "6" | "7" | "8" | "9" => true
  | _ => false
  end%char.

(** The position after a cell has been read: the next column, the first
    column of the next row at the end of a row, and no further cell
    (flag [false]) after row 9, column 9. *)
Definition moved (row col : Z) : bool * Z * Z :=
  if col <? MAX_NUM then (true, row, col + 1)
  else if row <? MAX_NUM then (true, row + 1, MIN_NUM)
  else (false, row, col).

(** One pass of the loop of [read_board] on character [a] at position
    (row, col), told by what it leaves in the board. A digit from 1 to 9
    sets the cell at the position (flag 1, the digit as value), marks the
    digit for the row, the column and the square of the cell, counts one
    cell without value less, leaves the other cells alone and moves on.
    A dot leaves the board alone and moves on. Any other character, 0
    among them, leaves the board and the position alone. *)
Definition pass_described (a : ascii) (b : board) (row col : Z)
    (res : bool * board * Z * Z) : Prop :=
  let '(more, b', row', col') := res in
  if is_value_char a then
    cell_at b' row col =
      mkcell 1 (digit_value a) (RowsAt row) (ColumnsAt col) (SquaresAt (square row col)) /\
    (forall i j, in_range i -> in_range j -> i <> row \/ j <> col ->
       cell_at b' i j = cell_at b i j) /\
    unset_cells b' = unset_cells b - 1 /\
    row_mark b' row (digit_value a) = 1 /\
    col_mark b' col (digit_value a) = 1 /\
    square_mark b' (square row col) (digit_value a) = 1 /\
    (more, row', col') = moved row col
  else if Ascii.eqb a "." then
    b' = b /\ (more, row', col') = moved row col
  else
    b' = b /\ (more, row', col') = (true, row, col).

(** A dot leaves the cell as it is, a digit from 1 to 9 sets it. *)
Definition place_char (b : board) (p : Z * Z) (a : ascii) : board :=
  if Ascii.eqb a "." then b else set_cell b p.1 p.2 (digit_value a).

(** The format as described: the characters other than 1 to 9 and the
    dot are dropped, 0 among them; the ones that remain go to the cells
    in reading order, one each, until the 81 cells are used up. *)
Definition read_board_described (f : string) (b : board) : board :=
  fold_left (fun b pa => place_char b (fst pa) (snd pa))
            (combine all_cells (List.filter is_cell_char (list_ascii_of_string f)))
            b.

(** The position moves on; the flag is [false] after the last cell. *)
Definition advance (b : board) (row col : Z) : bool * board * Z * Z :=
  let '(more, row', col') := next_cell row col in
  (negb (more =? 0), b, row', col').

(** The cells from [(r, c)] on. *)
Definition cells_from (r c : Z) : list (Z * Z) :=
  drop (Z.to_nat (cell_index r c)) all_cells.

(** ** Checking the givens of a puzzle *)

Definition in_range_b (n : Z) : bool := (MIN_NUM <=? n) && (n <=? MAX_NUM).

(** The assertions of [set_cell], and the cell being without value. *)
Definition set_cell_ok (b : board) (r c val : Z) : bool :=
  in_range_b r && in_range_b c && in_range_b val &&
  (is_set b r c =? 0) &&
  (deref b (row_candidates (cell_at b r c)) !!! ix val =? 0) &&
  (deref b (col_candidates (cell_at b r c)) !!! ix val =? 0) &&
  (deref b (square_candidates (cell_at b r c)) !!! ix val =? 0).

Fixpoint givens_ok (gs : list (Z * Z * ascii)) (b : board) : bool :=
  match gs with
  | [] => true
  | (p, a) :: gs =>
      if Ascii.eqb a "." then givens_ok gs b
      else set_cell_ok b p.1 p.2 (digit_value a) &&
           givens_ok gs (set_cell b p.1 p.2 (digit_value a))
  end.

(** ** Example boards *)

(** The puzzle of the comment above [read_board]. *)
Definition example_input : string :=
  "5 3 . . 7 . . . .
   6 . . 1 9 5 . . .
   . 9 8 . . . . 6 .
   8 . . . 6 . . . 3
   4 . . 8 . 3 . . 1
   7 . . . 2 . . . 6
   . 6 . . . . 2 8 .
   . . . 4 1 9 . . 5
   . . . . 8 . . 7 9".

Definition example_board : board := read_board example_input empty_board.

(** A puzzle without solution: the last cell of the first row needs a 9,
    and its column has one. *)
Definition stuck_input : string :=
  "1 2 3 4 5 6 7 8 .
   . . . . . . . . 9".

Definition stuck_board : board := read_board stuck_input empty_board.

(** A puzzle without solution that the search has to try: the two free
    cells of the first row need 8 and 9, and the column of the last one
    has both. The search puts 8 in (1,8), finds nothing for (1,9), takes
    the 8 away, puts 9 in (1,8), finds nothing again, takes the 9 away. *)
Definition backtrack_input : string :=
  "1 2 3 4 5 6 7 . .
   . . . . . . . . .
   . . . . . . . . .
   . . . . . . . . 8
   . . . . . . . . 9".

Definition backtrack_board : board := read_board backtrack_input empty_board.

(** The board a search returns, or the board itself when fuel runs out. *)
Definition board_after (fuel : nat) (b : board) (r c : Z) : board :=
  match solve_board fuel b r c with
  | Some (_, b') => b'
  | None => b
  end.

(** The solution of the example puzzle, given as a text. *)
Definition solution_input : string :=
  "5 3 4 6 7 8 9 1 2
   6 7 2 1 9 5 3 4 8
   1 9 8 3 4 2 5 6 7
   8 5 9 7 6 1 4 2 3
   4 2 6 8 5 3 7 9 1
   7 1 3 9 2 4 8 5 6
   9 6 1 5 3 7 2 8 4
   2 8 7 4 1 9 6 3 5
   3 4 5 2 8 6 1 7 9".

Definition solution_board : board := read_board solution_input empty_board.

(** ** Boards with the same grid *)

Definition same_grid (b1 b2 : board) : Prop :=
  unset_cells b1 = unset_cells b2 /\
  (forall r c, in_range r -> in_range c -> cell_at b1 r c = cell_at b2 r c) /\
  (forall k v, in_range k -> in_range v ->
     row_mark b1 k v = row_mark b2 k v /\
     col_mark b1 k v = col_mark b2 k v /\
     square_mark b1 k v = square_mark b2 k v).

(** ** The invariant without uniqueness *)

(** Two fives in the first row. *)
Definition clash_board : board := read_board "5 5" empty_board.

(** ** Grids and solutions *)

(** A filled grid: the value of every cell. *)
Definition grid : Type := Z -> Z -> Z.

(** The values a board holds. *)
Definition grid_of (b : board) : grid := fun r c => value (cell_at b r c).

(** No two cells of one group have the same value in the grid. *)
Definition grid_once (group : Z -> Z -> Z) (g : grid) : Prop :=
  forall r c r' c',
    in_range r -> in_range c -> in_range r' -> in_range c' ->
    group r c = group r' c' -> g r c = g r' c' -> r = r' /\ c = c'.

(** A solution of Sudoku: every value from 1 to 9, none twice in a row,
    a column or a square. *)
Definition valid_grid (g : grid) : Prop :=
  (forall r c, in_range r -> in_range c -> in_range (g r c)) /\
  grid_once row_of g /\ grid_once col_of g /\ grid_once square g.

(** The grid has the values of the cells of [b] that have one. *)
Definition extends (g : grid) (b : board) : Prop :=
  forall r c, in_range r -> in_range c -> is_set b r c <> 0 -> value (cell_at b r c) = g r c.

(** [g1] comes before [g2], or is [g2], when the cells are read in the
    order of [next_cell]: at the first cell where they differ [g1] has the
    smaller value. *)
Definition grid_le (g1 g2 : grid) : Prop :=
  (forall r c, in_range r -> in_range c -> g1 r c = g2 r c) \/
  (exists r c, in_range r /\ in_range c /\ g1 r c < g2 r c /\
     forall i j, in_range i -> in_range j ->
                 cell_index i j < cell_index r c -> g1 i j = g2 i j).

(** What a search does with a solution [g] of the board it is given: it
    does not fail, and the grid it leaves is [g] or comes before [g]. *)
Definition search_first (g : grid) (ret : Z) (b' : board) : Prop :=
  ret <> 0 /\ grid_le (grid_of b') g.

(** ** The text of a board *)

(** The characters of a text that stand for cells, in order. *)
Definition cell_chars (f : string) : list ascii :=
  List.filter is_cell_char (list_ascii_of_string f).

(** The cell a character leaves at row [r], column [c] of an empty
    board: a digit from 1 to 9 sets it, anything else leaves it as
    [init_board] made it. *)
Definition cell_read (a : ascii) (r c : Z) : cell :=
  if is_value_char a
  then mkcell 1 (digit_value a) (RowsAt r) (ColumnsAt c) (SquaresAt (square r c))
  else fresh_cell r c.

(** ** The text [print_board] writes *)

(** What [printf] writes for [%d]. *)
Definition print_int (n : Z) : list ascii := list_ascii_of_string (pretty n).

Definition newline : ascii := "010"%char.

(** The characters [print_board] writes: for each row, a space and the
    value for each cell, then a newline. *)
Definition print_board_text (b : board) : list ascii :=
  flat_map (fun i =>
              flat_map (fun j => " "%char :: print_int (value (cell_at b i j)))
                       (for_range MIN_NUM MAX_NUM)
              ++ [newline])
           (for_range MIN_NUM MAX_NUM).

(** The character of a digit from 1 to 9. *)
Definition digit_of (v : Z) : ascii :=
  match v with
  | 1 => "1" | 2 => "2" | 3 => "3" | 4 => "4" | 5 => "5"
  | 6 => "6" | 7 => "7" | 8 => "8" | 9 => "9"
  | _ => "0"
  end%char.

(** ** Flags and marks are 0 or 1 *)

Definition bit (n : Z) : Prop := n = 0 \/ n = 1.

(** The flag of every cell and every mark is 0 or 1, as [init_board],
    [set_cell] and [unset_cell] write them. *)
Definition binary (b : board) : Prop :=
  (forall r c, in_range r -> in_range c -> bit (has_value (cell_at b r c))) /\
  (forall k v, in_range k -> in_range v ->
     bit (row_mark b k v) /\ bit (col_mark b k v) /\ bit (square_mark b k v)).

(** An array index of the program: 0 to 9. *)
Definition index_ok (n : Z) : Prop := 0 <= n <= MAX_NUM.

(** The boards agree on what [init_board] leaves alone: entry 0 of
    every array. *)
Definition same_margin (b b' : board) : Prop :=
  (forall i j, index_ok i -> index_ok j -> i = 0 \/ j = 0 ->
     cell_at b i j = cell_at b' i j) /\
  (forall p v, index_ok (ptr_index p) -> index_ok v -> ptr_index p = 0 \/ v = 0 ->
     mark_of b p v = mark_of b' p v).

(** * Lemmas *)

(** ** Arrays *)

Lemma ix_inj (i j : Z) : 0 <= i -> 0 <= j -> ix i = ix j -> i = j.
Proof. unfold ix. lia. Qed.

Lemma ix_lt {A : Type} (l : list A) (i : Z) :
  sized l -> 0 <= i <= MAX_NUM -> (ix i < length l)%nat.
Proof. unfold sized, ix, ARRAY_SIZE, MIN_NUM, TOTAL_NUMS, MAX_NUM. lia. Qed.

Lemma sized_insert {A : Type} (l : list A) (i : nat) (x : A) :
  sized l -> sized (<[i := x]> l).
Proof. unfold sized. now rewrite length_insert. Qed.

Lemma sized_lookup {A : Type} `{Inhabited (list A)} (l : list (list A)) (i : Z) :
  sized l -> Forall sized l -> 0 <= i <= MAX_NUM -> sized (l !!! ix i).
Proof.
  intros Hl Hall Hi.
  apply (proj1 (Forall_lookup _ _) Hall (ix i)).
  apply list_lookup_lookup_total_lt. now apply ix_lt.
Qed.

Lemma Forall_sized_insert {A : Type} (l : list (list A)) (i : nat) (x : list A) :
  Forall sized l -> sized x -> Forall sized (<[i := x]> l).
Proof. intros Hall Hx. now apply Forall_insert. Qed.

(** Writing back what an entry holds changes nothing. *)
Lemma insert_same {A : Type} `{Inhabited A} (l : list A) (i : nat) :
  <[i := l !!! i]> l = l.
Proof.
  destruct (decide (i < length l)%nat) as [Hlt | Hge].
  - apply list_insert_id. now apply list_lookup_lookup_total_lt.
  - apply list_insert_ge. lia.
Qed.

(** Entry [v] of [l] set to [x] and then back to what it was. *)
Lemma insert_undo {A : Type} `{Inhabited A} (l : list A) (i : nat) (x : A) :
  <[i := l !!! i]> (<[i := x]> l) = l.
Proof. rewrite list_insert_insert_eq. apply insert_same. Qed.

Lemma in_range_bounds (n : Z) : in_range n -> 0 <= n <= MAX_NUM.
Proof. unfold in_range, MIN_NUM, MAX_NUM. lia. Qed.

Lemma square_in_range (r c : Z) : in_range r -> in_range c -> in_range (square r c).
Proof.
  unfold in_range, square, SUBDIMENSION, MIN_NUM, MAX_NUM. intros Hr Hc.
  assert (0 <= (r - 1) ÷ 3 < 3).
  { split; [apply Z.quot_pos; lia | apply Z.quot_lt_upper_bound; lia]. }
  assert (0 <= (c - 1) ÷ 3 < 3).
  { split; [apply Z.quot_pos; lia | apply Z.quot_lt_upper_bound; lia]. }
  lia.
Qed.

(** ** Arrays of arrays *)

Section Upd2.
Context {A : Type} `{Inhabited A}.
Implicit Types (l : list (list A)) (i j : nat) (x y : A).

Lemma get2_upd2_eq l i j x :
  (i < length l)%nat -> (j < length (l !!! i))%nat -> get2 (upd2 l i j x) i j = x.
Proof.
  intros Hi Hj. unfold get2, upd2.
  rewrite list_lookup_total_insert_eq by exact Hi.
  now apply list_lookup_total_insert_eq.
Qed.

Lemma get2_upd2_ne l i j i' j' x :
  i <> i' \/ j <> j' -> get2 (upd2 l i j x) i' j' = get2 l i' j'.
Proof.
  intros Hne. unfold get2, upd2.
  destruct (decide (i = i')) as [<- | Hii].
  - destruct Hne as [Hne | Hne]; [congruence |].
    destruct (decide (i < length l)%nat) as [Hlt | Hge].
    + rewrite list_lookup_total_insert_eq by exact Hlt.
      now apply list_lookup_total_insert_ne.
    + rewrite list_insert_ge by lia. reflexivity.
  - now rewrite list_lookup_total_insert_ne.
Qed.

Lemma upd2_upd2_eq l i j x y : upd2 (upd2 l i j x) i j y = upd2 l i j y.
Proof.
  unfold upd2.
  destruct (decide (i < length l)%nat) as [Hlt | Hge].
  - rewrite list_lookup_total_insert_eq by exact Hlt.
    now rewrite !list_insert_insert_eq.
  - now rewrite !(list_insert_ge l) by lia.
Qed.

Lemma upd2_get2 l i j : upd2 l i j (get2 l i j) = l.
Proof. unfold upd2, get2. rewrite insert_same. apply insert_same. Qed.

Lemma upd2_undo l i j x : upd2 (upd2 l i j x) i j (get2 l i j) = l.
Proof. rewrite upd2_upd2_eq. apply upd2_get2. Qed.

Lemma upd2_restore l i j x y : get2 l i j = y -> upd2 (upd2 l i j x) i j y = l.
Proof. intros <-. apply upd2_undo. Qed.

Lemma upd2_sized l i j x : sized l -> sized (upd2 l i j x).
Proof. apply sized_insert. Qed.

Lemma upd2_Forall_sized l i j x :
  Forall sized l -> Forall sized (upd2 l i j x).
Proof.
  intros Hall. unfold upd2.
  destruct (decide (i < length l)%nat) as [Hlt | Hge].
  - apply Forall_insert; [exact Hall |]. apply sized_insert.
    apply (proj1 (Forall_lookup _ _) Hall i).
    now apply list_lookup_lookup_total_lt.
  - now rewrite list_insert_ge by lia.
Qed.

Lemma upd2_lookup_length l i j x k :
  length (upd2 l i j x !!! k) = length (l !!! k).
Proof.
  unfold upd2.
  destruct (decide (i < length l)%nat) as [Hlt | Hge].
  - destruct (decide (i = k)) as [<- | Hne].
    + rewrite list_lookup_total_insert_eq by exact Hlt. apply length_insert.
    + now rewrite list_lookup_total_insert_ne.
  - now rewrite list_insert_ge by lia.
Qed.
End Upd2.

(** ** What [set_cell] and [unset_cell] do to a linked cell *)

Lemma cell_at_get2 (b : board) (r c : Z) : cell_at b r c = get2 (cells b) (ix r) (ix c).
Proof. reflexivity. Qed.

Lemma allocated_cell_inside (b : board) (r c : Z) :
  allocated b -> in_range r -> in_range c -> cell_inside b r c.
Proof.
  intros [[Hc Hcs] _ _ _] Hr Hc'. split.
  - apply ix_lt; [exact Hc | now apply in_range_bounds].
  - apply ix_lt; [| now apply in_range_bounds].
    apply sized_lookup; auto using in_range_bounds.
Qed.

Lemma touch_cell_eq (b : board) (r c count flag val mark entry : Z) :
  cell_inside b r c -> linked b r c ->
  touch_cell b r c count flag val mark entry =
  mkboard count
          (upd2 (cells b) (ix r) (ix c)
                (mkcell flag val (RowsAt r) (ColumnsAt c) (SquaresAt (square r c))))
          (upd2 (rows b) (ix r) (ix entry) mark)
          (upd2 (columns b) (ix c) (ix entry) mark)
          (upd2 (squares b) (ix (square r c)) (ix entry) mark).
Proof.
  intros [Hr Hc] (Hrow & Hcol & Hsq). unfold touch_cell.
  set (b1 := write_unset_cells b count).
  assert (E1 : cell_at b1 r c = cell_at b r c) by reflexivity.
  rewrite E1.
  set (b2 := write_cell b1 r c _).
  assert (E2 : cell_at b2 r c = with_has_value (cell_at b r c) flag).
  { unfold b2. rewrite cell_at_get2. now apply get2_upd2_eq. }
  rewrite E2.
  set (b3 := write_cell b2 r c _).
  assert (C3 : cells b3 =
               upd2 (cells b) (ix r) (ix c)
                    (mkcell flag val (RowsAt r) (ColumnsAt c) (SquaresAt (square r c)))).
  { unfold b3, b2, b1, write_cell, write_unset_cells. cbn [cells].
    fold (upd2 (cells b) (ix r) (ix c) (with_has_value (cell_at b r c) flag)).
    match goal with
    | |- <[_ := <[_ := ?y]> (upd2 ?l _ _ ?x !!! _)]> _ = _ =>
        change (upd2 (upd2 l (ix r) (ix c) x) (ix r) (ix c) y = 
                upd2 l (ix r) (ix c)
                     (mkcell flag val (RowsAt r) (ColumnsAt c) (SquaresAt (square r c))))
    end.
    rewrite upd2_upd2_eq. f_equal.
    unfold with_value, with_has_value. cbn. now rewrite Hrow, Hcol, Hsq. }
  assert (E3 : cell_at b3 r c =
               mkcell flag val (RowsAt r) (ColumnsAt c) (SquaresAt (square r c))).
  { rewrite cell_at_get2, C3. now apply get2_upd2_eq. }
  assert (B3 : b3 = mkboard count
                      (upd2 (cells b) (ix r) (ix c)
                         (mkcell flag val (RowsAt r) (ColumnsAt c) (SquaresAt (square r c))))
                      (rows b) (columns b) (squares b)).
  { rewrite <- C3. reflexivity. }
  clearbody b3. subst b3. clear b1 b2 E1 E2 C3.
  rewrite !cell_at_get2 in *. cbn [cells store deref rows columns squares unset_cells
    row_candidates col_candidates square_candidates] in *.
  rewrite E3. cbn [cells store deref rows columns squares unset_cells
    row_candidates col_candidates square_candidates].
  rewrite E3. cbn [cells store deref rows columns squares unset_cells
    row_candidates col_candidates square_candidates].
  rewrite E3. cbn [cells store deref rows columns squares unset_cells
    row_candidates col_candidates square_candidates].
  reflexivity.
Qed.

Lemma set_cell_eq (b : board) (r c val : Z) :
  cell_inside b r c -> linked b r c ->
  set_cell b r c val =
  mkboard (unset_cells b - 1)
          (upd2 (cells b) (ix r) (ix c)
                (mkcell 1 val (RowsAt r) (ColumnsAt c) (SquaresAt (square r c))))
          (upd2 (rows b) (ix r) (ix val) 1)
          (upd2 (columns b) (ix c) (ix val) 1)
          (upd2 (squares b) (ix (square r c)) (ix val) 1).
Proof.
  intros Hin Hl.
  rewrite <- (touch_cell_eq b r c (unset_cells b - 1) 1 val 1 val Hin Hl).
  unfold set_cell, touch_cell, use_candidate. reflexivity.
Qed.

Lemma unset_cell_eq (b : board) (r c val : Z) :
  cell_inside b r c -> linked b r c ->
  unset_cell b r c val =
  mkboard (unset_cells b + 1)
          (upd2 (cells b) (ix r) (ix c)
                (mkcell 0 0 (RowsAt r) (ColumnsAt c) (SquaresAt (square r c))))
          (upd2 (rows b) (ix r) (ix val) 0)
          (upd2 (columns b) (ix c) (ix val) 0)
          (upd2 (squares b) (ix (square r c)) (ix val) 0).
Proof.
  intros Hin Hl.
  rewrite <- (touch_cell_eq b r c (unset_cells b + 1) 0 0 0 val Hin Hl).
  unfold unset_cell, touch_cell, restore_candidate. reflexivity.
Qed.

Lemma get2_upd2_Z {A : Type} `{Inhabited A} (l : list (list A)) (i j i' j' : Z) (x : A) :
  sized l -> Forall sized l ->
  0 <= i <= MAX_NUM -> 0 <= j <= MAX_NUM -> 0 <= i' -> 0 <= j' ->
  get2 (upd2 l (ix i) (ix j) x) (ix i') (ix j') =
  if decide (i' = i /\ j' = j) then x else get2 l (ix i') (ix j').
Proof.
  intros Hl Hall Hi Hj Hi' Hj'.
  destruct (decide (i' = i /\ j' = j)) as [[-> ->] | Hne].
  - apply get2_upd2_eq; [now apply ix_lt |].
    apply ix_lt; [now apply sized_lookup | exact Hj].
  - apply get2_upd2_ne.
    destruct (decide (i' = i)) as [-> | Hi''].
    + right. intros E. apply ix_inj in E; lia.
    + left. intros E. apply ix_inj in E; lia.
Qed.

Section Touch.
Variables (b : board) (r c : Z).
Hypothesis Hwf : well_formed b.
Hypothesis Hr : in_range r.
Hypothesis Hc : in_range c.

Let inside : cell_inside b r c.
Proof. apply allocated_cell_inside; auto using wf_allocated. Qed.

Let link : linked b r c.
Proof. now apply wf_linked. Qed.

Lemma set_cell_unset_cells val : unset_cells (set_cell b r c val) = unset_cells b - 1.
Proof. now rewrite set_cell_eq. Qed.

Lemma unset_cell_unset_cells val : unset_cells (unset_cell b r c val) = unset_cells b + 1.
Proof. now rewrite unset_cell_eq. Qed.

Lemma set_cell_cell_at val i j :
  0 <= i -> 0 <= j ->
  cell_at (set_cell b r c val) i j =
  if decide (i = r /\ j = c)
  then mkcell 1 val (RowsAt r) (ColumnsAt c) (SquaresAt (square r c))
  else cell_at b i j.
Proof.
  intros Hi Hj. rewrite set_cell_eq by assumption. rewrite !cell_at_get2. cbn [cells].
  destruct Hwf as [[[? ?] _ _ _] _ _].
  apply get2_upd2_Z; auto using in_range_bounds.
Qed.

Lemma unset_cell_cell_at val i j :
  0 <= i -> 0 <= j ->
  cell_at (unset_cell b r c val) i j =
  if decide (i = r /\ j = c)
  then mkcell 0 0 (RowsAt r) (ColumnsAt c) (SquaresAt (square r c))
  else cell_at b i j.
Proof.
  intros Hi Hj. rewrite unset_cell_eq by assumption. rewrite !cell_at_get2. cbn [cells].
  destruct Hwf as [[[? ?] _ _ _] _ _].
  apply get2_upd2_Z; auto using in_range_bounds.
Qed.

Lemma set_cell_row_mark val i w :
  0 <= val <= MAX_NUM -> 0 <= i -> 0 <= w ->
  row_mark (set_cell b r c val) i w =
  if decide (i = r /\ w = val) then 1 else row_mark b i w.
Proof.
  intros Hv Hi Hw. rewrite set_cell_eq by assumption. unfold row_mark. cbn [rows].
  destruct Hwf as [[_ [? ?] _ _] _ _].
  apply get2_upd2_Z; auto using in_range_bounds.
Qed.

Lemma set_cell_col_mark val i w :
  0 <= val <= MAX_NUM -> 0 <= i -> 0 <= w ->
  col_mark (set_cell b r c val) i w =
  if decide (i = c /\ w = val) then 1 else col_mark b i w.
Proof.
  intros Hv Hi Hw. rewrite set_cell_eq by assumption. unfold col_mark. cbn [columns].
  destruct Hwf as [[_ _ [? ?] _] _ _].
  apply get2_upd2_Z; auto using in_range_bounds.
Qed.

Lemma set_cell_square_mark val i w :
  0 <= val <= MAX_NUM -> 0 <= i -> 0 <= w ->
  square_mark (set_cell b r c val) i w =
  if decide (i = square r c /\ w = val) then 1 else square_mark b i w.
Proof.
  intros Hv Hi Hw. rewrite set_cell_eq by assumption. unfold square_mark. cbn [squares].
  destruct Hwf as [[_ _ _ [? ?]] _ _].
  apply get2_upd2_Z; auto using in_range_bounds, square_in_range.
Qed.

Lemma unset_cell_row_mark val i w :
  0 <= val <= MAX_NUM -> 0 <= i -> 0 <= w ->
  row_mark (unset_cell b r c val) i w =
  if decide (i = r /\ w = val) then 0 else row_mark b i w.
Proof.
  intros Hv Hi Hw. rewrite unset_cell_eq by assumption. unfold row_mark. cbn [rows].
  destruct Hwf as [[_ [? ?] _ _] _ _].
  apply get2_upd2_Z; auto using in_range_bounds.
Qed.

Lemma unset_cell_col_mark val i w :
  0 <= val <= MAX_NUM -> 0 <= i -> 0 <= w ->
  col_mark (unset_cell b r c val) i w =
  if decide (i = c /\ w = val) then 0 else col_mark b i w.
Proof.
  intros Hv Hi Hw. rewrite unset_cell_eq by assumption. unfold col_mark. cbn [columns].
  destruct Hwf as [[_ _ [? ?] _] _ _].
  apply get2_upd2_Z; auto using in_range_bounds.
Qed.

Lemma unset_cell_square_mark val i w :
  0 <= val <= MAX_NUM -> 0 <= i -> 0 <= w ->
  square_mark (unset_cell b r c val) i w =
  if decide (i = square r c /\ w = val) then 0 else square_mark b i w.
Proof.
  intros Hv Hi Hw. rewrite unset_cell_eq by assumption. unfold square_mark. cbn [squares].
  destruct Hwf as [[_ _ _ [? ?]] _ _].
  apply get2_upd2_Z; auto using in_range_bounds, square_in_range.
Qed.

(** The free test of [find_common_free] and of [set_cell]'s assertion,
    in terms of the three marks. *)
Lemma unmarked_marks v :
  unmarked b r c v <->
  row_mark b r v = 0 /\ col_mark b c v = 0 /\ square_mark b (square r c) v = 0.
Proof.
  unfold unmarked. destruct link as (-> & -> & ->). reflexivity.
Qed.

Lemma set_cell_allocated val : allocated (set_cell b r c val).
Proof.
  rewrite set_cell_eq by assumption.
  destruct Hwf as [[[? ?] [? ?] [? ?] [? ?]] _ _].
  split; cbn; (split; [apply upd2_sized | apply upd2_Forall_sized]); assumption.
Qed.

Lemma unset_cell_allocated val : allocated (unset_cell b r c val).
Proof.
  rewrite unset_cell_eq by assumption.
  destruct Hwf as [[[? ?] [? ?] [? ?] [? ?]] _ _].
  split; cbn; (split; [apply upd2_sized | apply upd2_Forall_sized]); assumption.
Qed.

Lemma set_cell_well_formed val : well_formed (set_cell b r c val).
Proof.
  split.
  - apply set_cell_allocated.
  - intros i j Hi Hj. unfold linked.
    rewrite set_cell_cell_at by (apply in_range_bounds in Hi, Hj; lia).
    destruct (decide (i = r /\ j = c)) as [[-> ->] | _]; [now cbn |].
    now apply wf_linked.
  - intros i j Hi Hj.
    rewrite set_cell_cell_at by (apply in_range_bounds in Hi, Hj; lia).
    destruct (decide (i = r /\ j = c)) as [[-> ->] | _]; [now cbn |].
    now apply wf_unset.
Qed.

Lemma unset_cell_well_formed val : well_formed (unset_cell b r c val).
Proof.
  split.
  - apply unset_cell_allocated.
  - intros i j Hi Hj. unfold linked.
    rewrite unset_cell_cell_at by (apply in_range_bounds in Hi, Hj; lia).
    destruct (decide (i = r /\ j = c)) as [[-> ->] | _]; [now cbn |].
    now apply wf_linked.
  - intros i j Hi Hj.
    rewrite unset_cell_cell_at by (apply in_range_bounds in Hi, Hj; lia).
    destruct (decide (i = r /\ j = c)) as [[-> ->] | _]; [now cbn |].
    now apply wf_unset.
Qed.

(** [unset_cell] takes back what [set_cell] did. *)
Lemma unset_set_cell val :
  in_range val -> is_set b r c = 0 -> unmarked b r c val ->
  unset_cell (set_cell b r c val) r c val = b.
Proof.
  intros Hv Hunset Hfree.
  pose proof (set_cell_well_formed val) as Hwf'.
  rewrite unset_cell_eq.
  2:{ apply allocated_cell_inside; auto using wf_allocated. }
  2:{ now apply wf_linked. }
  rewrite set_cell_eq by assumption. cbn [unset_cells cells rows columns squares].
  apply unmarked_marks in Hfree. destruct Hfree as (Hrm & Hcm & Hsm).
  assert (E : get2 (cells b) (ix r) (ix c) =
              mkcell 0 0 (RowsAt r) (ColumnsAt c) (SquaresAt (square r c))).
  { rewrite <- cell_at_get2. pose proof (wf_unset b Hwf r c Hr Hc Hunset) as Hval.
    unfold is_set in Hunset. destruct link as (Hl1 & Hl2 & Hl3).
    destruct (cell_at b r c); cbn in *. congruence. }
  destruct b as [n cs rs co sq]; cbn in *.
  f_equal; [lia | now apply upd2_restore ..].
Qed.
End Touch.

(** ** [find_common_free] *)

Lemma free3_test (r c s : candidates) (v : Z) :
  (r !!! ix v =? 0) && (c !!! ix v =? 0) && (s !!! ix v =? 0) = true <-> free3 r c s v.
Proof. unfold free3. rewrite !andb_true_iff, !Z.eqb_eq. tauto. Qed.

Lemma find_common_free_from_spec (n : nat) (r c s : candidates) (i : Z) :
  (find_common_free_from n r c s i = -1 /\
   forall w, i <= w < i + Z.of_nat n -> ~ free3 r c s w) \/
  (i <= find_common_free_from n r c s i < i + Z.of_nat n /\
   free3 r c s (find_common_free_from n r c s i) /\
   forall w, i <= w < find_common_free_from n r c s i -> ~ free3 r c s w).
Proof.
  revert i. induction n as [| n IH]; intros i.
  - left. split; [reflexivity | intros w Hw; lia].
  - cbn [find_common_free_from].
    destruct ((r !!! ix i =? 0) && (c !!! ix i =? 0) && (s !!! ix i =? 0)) eqn:Htest.
    + right. apply free3_test in Htest. split; [lia |]. split; [exact Htest |].
      intros w Hw. lia.
    + assert (Hnot : ~ free3 r c s i).
      { intros Hf. apply free3_test in Hf. congruence. }
      destruct (IH (i + 1)) as [[Hnone Hall] | (Hin & Hfree & Hleast)].
      * left. split; [exact Hnone |]. intros w Hw.
        destruct (decide (w = i)) as [-> | Hne]; [exact Hnot | apply Hall; lia].
      * right. split; [lia |]. split; [exact Hfree |]. intros w Hw.
        destruct (decide (w = i)) as [-> | Hne]; [exact Hnot | apply Hleast; lia].
Qed.

(** ** Positions *)

Lemma cell_index_inj (r c r' c' : Z) :
  in_range r -> in_range c -> in_range r' -> in_range c' ->
  cell_index r c = cell_index r' c' -> r = r' /\ c = c'.
Proof. unfold in_range, cell_index, MIN_NUM, MAX_NUM, TOTAL_NUMS. lia. Qed.

Lemma cell_index_bounds (r c : Z) :
  in_range r -> in_range c -> 0 <= cell_index r c <= 80.
Proof. unfold in_range, cell_index, MIN_NUM, MAX_NUM, TOTAL_NUMS. lia. Qed.

Lemma following_next (n : Z) : MIN_NUM <= n < MAX_NUM -> following n = n + 1.
Proof.
  unfold following, MIN_NUM, MAX_NUM, TOTAL_NUMS. intros Hn.
  rewrite Z.rem_small by lia. lia.
Qed.

Lemma following_last : following MAX_NUM = MIN_NUM.
Proof. reflexivity. Qed.

Lemma next_cell_last : next_cell MAX_NUM MAX_NUM = (0, MAX_NUM, MAX_NUM).
Proof. reflexivity. Qed.

Lemma next_cell_more (r c : Z) :
  in_range r -> in_range c -> cell_index r c < 80 ->
  exists r' c', next_cell r c = (1, r', c') /\ in_range r' /\ in_range c' /\
                cell_index r' c' = cell_index r c + 1.
Proof.
  intros Hr Hc Hlt. unfold next_cell.
  unfold in_range, cell_index, MIN_NUM, MAX_NUM, TOTAL_NUMS in *.
  destruct (decide (c = 9)) as [-> | Hc9].
  - assert (Hr9 : r <> 9) by lia.
    apply Z.eqb_neq in Hr9. rewrite Hr9. cbn [andb].
    change (following 9) with 1. cbn [Z.eqb Pos.eqb].
    exists (following r), 1. rewrite following_next by (unfold MIN_NUM, MAX_NUM; lia).
    repeat split; lia.
  - apply Z.eqb_neq in Hc9. rewrite Hc9, andb_false_r.
    rewrite following_next by (unfold MIN_NUM, MAX_NUM; apply Z.eqb_neq in Hc9; lia).
    apply Z.eqb_neq in Hc9.
    assert (Hc1 : (c + 1 =? 1) = false) by (apply Z.eqb_neq; lia).
    rewrite Hc1. exists r, (c + 1). repeat split; lia.
Qed.

Lemma cell_index_last (r c : Z) :
  in_range r -> in_range c -> cell_index r c = 80 -> r = MAX_NUM /\ c = MAX_NUM.
Proof. unfold in_range, cell_index, MIN_NUM, MAX_NUM, TOTAL_NUMS. lia. Qed.

(** The scan stops at the first cell without value from [(r, c)] on, or
    at (9,9) when there is none. *)
Lemma find_unset_spec (n : nat) (b : board) (r c : Z) :
  in_range r -> in_range c -> 81 - cell_index r c <= Z.of_nat n ->
  exists r' c',
    find_unset n b r c = Some (r', c') /\ in_range r' /\ in_range c' /\
    cell_index r c <= cell_index r' c' /\
    (forall i j, in_range i -> in_range j ->
                 cell_index r c <= cell_index i j < cell_index r' c' ->
                 is_set b i j <> 0) /\
    (is_set b r' c' <> 0 -> r' = MAX_NUM /\ c' = MAX_NUM).
Proof.
  revert r c. induction n as [| n IH]; intros r c Hr Hc Hn.
  - pose proof (cell_index_bounds r c Hr Hc). lia.
  - cbn [find_unset]. destruct (is_set b r c =? 0) eqn:Hset.
    + apply Z.eqb_eq in Hset. exists r, c.
      split; [reflexivity |]. split; [exact Hr |]. split; [exact Hc |].
      split; [lia |]. split; [intros; lia | intros; congruence].
    + apply Z.eqb_neq in Hset.
      destruct (decide (cell_index r c = 80)) as [Hlast | Hnot].
      * destruct (cell_index_last r c Hr Hc Hlast) as [-> ->].
        rewrite next_cell_last. cbn [Z.eqb].
        exists MAX_NUM, MAX_NUM.
        split; [reflexivity |]. split; [exact Hr |]. split; [exact Hc |].
        split; [lia |]. split; [intros; lia | intros; split; reflexivity].
      * pose proof (cell_index_bounds r c Hr Hc) as Hb.
        destruct (next_cell_more r c Hr Hc) as (r1 & c1 & -> & Hr1 & Hc1 & Hidx); [lia |].
        cbn [Z.eqb].
        destruct (IH r1 c1 Hr1 Hc1) as (r' & c' & Hfind & Hr' & Hc' & Hle & Hall & Hend);
          [lia |].
        exists r', c'. split; [exact Hfind |]. split; [exact Hr' |]. split; [exact Hc' |].
        split; [lia |]. split; [| exact Hend].
        intros i j Hi Hj Hij.
        destruct (decide (cell_index i j = cell_index r c)) as [E | Hne].
        -- apply cell_index_inj in E; try assumption. destruct E as [-> ->]. exact Hset.
        -- apply Hall; try assumption. lia.
Qed.

(** ** The candidate tried for a cell *)

Lemma candidate_spec (b : board) (r c prev : Z) :
  0 <= prev ->
  (candidate b r c prev = -1 /\
   forall w, prev <= w <= MAX_NUM -> ~ unmarked b r c w) \/
  (prev <= candidate b r c prev <= MAX_NUM /\
   unmarked b r c (candidate b r c prev) /\
   forall w, prev <= w < candidate b r c prev -> ~ unmarked b r c w).
Proof.
  intros Hprev. unfold candidate, find_common_free, unmarked.
  set (rs := deref b (row_candidates (cell_at b r c))).
  set (cs := deref b (col_candidates (cell_at b r c))).
  set (ss := deref b (square_candidates (cell_at b r c))).
  set (n := Z.to_nat (MAX_NUM + 1 - prev)).
  destruct (find_common_free_from_spec n rs cs ss prev)
    as [[Hnone Hall] | (Hin & Hfree & Hleast)].
  - left. split; [exact Hnone |]. intros w Hw. apply Hall.
    unfold n, MAX_NUM in *. lia.
  - right. split; [unfold n, MAX_NUM in *; lia |]. split; [exact Hfree | exact Hleast].
Qed.

(** ** What a search leaves behind *)

Section TryCandidates.
Variable solve : board -> Z -> Z -> option (Z * board).
Hypothesis solve_post :
  forall b r c ret b',
    well_formed b -> in_range r -> in_range c ->
    solve b r c = Some (ret, b') -> search_post b ret b'.

Lemma try_candidates_post (n : nat) :
  forall b r c prev ret b',
    well_formed b -> in_range r -> in_range c -> is_set b r c = 0 ->
    MIN_NUM <= prev ->
    try_candidates solve n b r c prev = Some (ret, b') ->
    search_post b ret b'.
Proof.
  induction n as [| n IH]; intros b r c prev ret b' Hwf Hr Hc Hunset Hprev Hrun.
  - discriminate.
  - cbn [try_candidates] in Hrun. fold (candidate b r c prev) in Hrun.
    destruct (candidate_spec b r c prev) as [[Hnone _] | (Hin & Hfree & _)];
      [unfold MIN_NUM in Hprev; lia | |].
    + rewrite Hnone in Hrun. cbn in Hrun. injection Hrun as <- <-.
      split; [exact Hwf |]. split; [now left |]. split; auto.
    + set (val := candidate b r c prev) in *.
      assert (Hval : in_range val) by (unfold in_range; lia).
      destruct (val =? -1) eqn:Hm1; [apply Z.eqb_eq in Hm1; unfold MIN_NUM in *; lia |].
      destruct (solve (set_cell b r c val) r c) as [[ret1 b1] |] eqn:Hsolve;
        [| discriminate].
      apply solve_post in Hsolve; auto using set_cell_well_formed.
      destruct Hsolve as (Hwf1 & Hret1 & Hfail1 & Hframe1).
      destruct (ret1 =? 0) eqn:Hz.
      * apply Z.eqb_eq in Hz. rewrite (Hfail1 Hz) in Hrun.
        rewrite unset_set_cell in Hrun by assumption.
        apply IH in Hrun; auto. lia.
      * apply Z.eqb_neq in Hz. injection Hrun as <- <-.
        split; [exact Hwf1 |]. split; [now right |]. split; [discriminate |].
        intros i j Hi Hj Hset.
        assert (Hsame : cell_at (set_cell b r c val) i j = cell_at b i j).
        { rewrite set_cell_cell_at by
            (try assumption; apply in_range_bounds in Hi, Hj; lia).
          destruct (decide (i = r /\ j = c)) as [[-> ->] | _]; [contradiction | reflexivity]. }
        rewrite <- Hsame. apply Hframe1; try assumption.
        unfold is_set in *. now rewrite Hsame.
Qed.
End TryCandidates.

Lemma search_post_refl (b : board) : well_formed b -> search_post b 1 b.
Proof. intros Hwf. split; [exact Hwf |]. split; [now right |]. split; auto. Qed.

Lemma solve_board_post (fuel : nat) :
  forall b r c ret b',
    well_formed b -> in_range r -> in_range c ->
    solve_board fuel b r c = Some (ret, b') -> search_post b ret b'.
Proof.
  induction fuel as [| fuel IH]; intros b r c ret b' Hwf Hr Hc Hrun.
  - discriminate.
  - cbn [solve_board] in Hrun.
    destruct (unset_cells b =? 0).
    { injection Hrun as <- <-. now apply search_post_refl. }
    destruct (find_unset_spec scan_budget b r c Hr Hc)
      as (r' & c' & Hfind & Hr' & Hc' & _).
    { pose proof (cell_index_bounds r c Hr Hc). unfold scan_budget, TOTAL_NUMS. lia. }
    rewrite Hfind in Hrun.
    destruct (is_set b r' c' =? 0) eqn:Hset.
    + apply Z.eqb_eq in Hset.
      eapply try_candidates_post in Hrun; eauto. unfold MIN_NUM. lia.
    + injection Hrun as <- <-. now apply search_post_refl.
Qed.

(** ** Loops that run through a range *)

(** A loop over [l] leaves [Q] true when one of its passes makes [Q]
    true and no pass destroys it; [R] holds throughout. *)
Lemma foldl_establish {A B : Type} (f : A -> B -> A) (R Q : A -> Prop)
    (l : list B) (x : B) (a : A) :
  x ∈ l -> R a ->
  (forall a y, R a -> R (f a y)) ->
  (forall a, R a -> Q (f a x)) ->
  (forall a y, y ∈ l -> R a -> Q a -> Q (f a y)) ->
  Q (foldl f a l).
Proof.
  intros Hin Ha HR Hx Hkeep. revert a Ha.
  assert (Hlater : forall k a, k ⊆ l -> R a -> Q a -> Q (foldl f a k)).
  { intros k. induction k as [| y k IH]; intros a Hsub Ha Hq; [exact Hq |].
    cbn. apply IH.
    - intros z Hz. apply Hsub. now right.
    - now apply HR.
    - apply Hkeep; auto. apply Hsub. now left. }
  assert (Hgen : forall k a, k ⊆ l -> x ∈ k -> R a -> Q (foldl f a k)).
  { intros k. induction k as [| y k IH]; intros a Hsub Hk Ha.
    - inversion Hk.
    - cbn. apply elem_of_cons in Hk. destruct Hk as [<- | Hk].
      + apply Hlater; auto. intros z Hz. apply Hsub. now right.
      + apply IH; auto. intros z Hz. apply Hsub. now right. }
  intros a Ha. now apply Hgen.
Qed.

Lemma foldl_preserve {A B : Type} (f : A -> B -> A) (R : A -> Prop) (l : list B) (a : A) :
  R a -> (forall a y, R a -> R (f a y)) -> R (foldl f a l).
Proof.
  intros Ha HR. revert a Ha. induction l as [| y l IH]; intros a Ha; [exact Ha |].
  cbn. apply IH. now apply HR.
Qed.

Lemma elem_of_for_range (lo hi n : Z) : n ∈ for_range lo hi <-> lo <= n <= hi.
Proof. unfold for_range. rewrite elem_of_seqZ. lia. Qed.

(** ** [init_board] *)

Lemma get2_upd2_cases {A : Type} `{Inhabited A} (l : list (list A)) (i j i' j' : nat) (x : A) :
  get2 (upd2 l i j x) i' j' = x \/ get2 (upd2 l i j x) i' j' = get2 l i' j'.
Proof.
  destruct (decide (i = i' /\ j = j')) as [[<- <-] | Hne].
  - destruct (decide (i < length l)%nat) as [Hi | Hi].
    + destruct (decide (j < length (l !!! i))%nat) as [Hj | Hj].
      * left. now apply get2_upd2_eq.
      * right. unfold upd2. rewrite (list_insert_ge (l !!! i)) by lia.
        now rewrite insert_same.
    + right. unfold upd2. now rewrite list_insert_ge by lia.
  - right. apply get2_upd2_ne.
    destruct (decide (i = i')) as [-> | Hi]; [right | left; exact Hi].
    intros ->. now apply Hne.
Qed.

Lemma mark_set_allocated (b : board) (p : cand_ptr) (v x : Z) :
  allocated b -> allocated (mark_set b p v x).
Proof.
  intros [[? ?] [? ?] [? ?] [? ?]].
  destruct p; split; cbn; (split; try assumption);
    first [apply upd2_sized | apply upd2_Forall_sized]; assumption.
Qed.

Lemma mark_set_cells (b : board) (p : cand_ptr) (v x : Z) :
  cells (mark_set b p v x) = cells b.
Proof. now destruct p. Qed.

Lemma mark_set_unset_cells (b : board) (p : cand_ptr) (v x : Z) :
  unset_cells (mark_set b p v x) = unset_cells b.
Proof. now destruct p. Qed.

(** A mark that is 0 stays 0 when marks are set to 0. *)
Lemma mark_set_zero_row (b : board) (p : cand_ptr) (v i w : Z) :
  row_mark b i w = 0 -> row_mark (mark_set b p v 0) i w = 0.
Proof.
  intros Hz. unfold row_mark in *.
  destruct p as [k | k | k]; unfold mark_set; cbn [store deref rows columns squares];
    try exact Hz.
  change (get2 (upd2 (rows b) (ix k) (ix v) 0) (ix i) (ix w) = 0).
  destruct (get2_upd2_cases (rows b) (ix k) (ix v) (ix i) (ix w) 0) as [E | E];
    rewrite E; [reflexivity | exact Hz].
Qed.

Lemma mark_set_zero_col (b : board) (p : cand_ptr) (v i w : Z) :
  col_mark b i w = 0 -> col_mark (mark_set b p v 0) i w = 0.
Proof.
  intros Hz. unfold col_mark in *.
  destruct p as [k | k | k]; unfold mark_set; cbn [store deref rows columns squares];
    try exact Hz.
  change (get2 (upd2 (columns b) (ix k) (ix v) 0) (ix i) (ix w) = 0).
  destruct (get2_upd2_cases (columns b) (ix k) (ix v) (ix i) (ix w) 0) as [E | E];
    rewrite E; [reflexivity | exact Hz].
Qed.

Lemma mark_set_zero_square (b : board) (p : cand_ptr) (v i w : Z) :
  square_mark b i w = 0 -> square_mark (mark_set b p v 0) i w = 0.
Proof.
  intros Hz. unfold square_mark in *.
  destruct p as [k | k | k]; unfold mark_set; cbn [store deref rows columns squares];
    try exact Hz.
  change (get2 (upd2 (squares b) (ix k) (ix v) 0) (ix i) (ix w) = 0).
  destruct (get2_upd2_cases (squares b) (ix k) (ix v) (ix i) (ix w) 0) as [E | E];
    rewrite E; [reflexivity | exact Hz].
Qed.

Lemma mark_set_zeroed (b : board) (p : cand_ptr) (v i : Z) :
  zeroed b i -> zeroed (mark_set b p v 0) i.
Proof.
  intros Hz w Hw. destruct (Hz w Hw) as (? & ? & ?).
  auto using mark_set_zero_row, mark_set_zero_col, mark_set_zero_square.
Qed.

Lemma init_candidates_allocated (b : board) (p : cand_ptr) :
  allocated b -> allocated (init_candidates b p).
Proof.
  intros Ha. unfold init_candidates.
  apply (foldl_preserve _ allocated); [exact Ha |].
  intros a y. apply mark_set_allocated.
Qed.

Lemma init_candidates_cells (b : board) (p : cand_ptr) :
  cells (init_candidates b p) = cells b.
Proof.
  unfold init_candidates.
  apply (foldl_preserve _ (fun a => cells a = cells b)); [reflexivity |].
  intros a y <-. apply mark_set_cells.
Qed.

Lemma init_candidates_unset_cells (b : board) (p : cand_ptr) :
  unset_cells (init_candidates b p) = unset_cells b.
Proof.
  unfold init_candidates.
  apply (foldl_preserve _ (fun a => unset_cells a = unset_cells b)); [reflexivity |].
  intros a y <-. apply mark_set_unset_cells.
Qed.

Lemma init_candidates_zeroed (b : board) (p : cand_ptr) (i : Z) :
  zeroed b i -> zeroed (init_candidates b p) i.
Proof.
  intros Hz. unfold init_candidates.
  apply (foldl_preserve _ (fun a => zeroed a i)); [exact Hz |].
  intros a y. apply mark_set_zeroed.
Qed.

Lemma mark_set_zero_any (b : board) (p q : cand_ptr) (v w : Z) :
  mark_of b q w = 0 -> mark_of (mark_set b p v 0) q w = 0.
Proof.
  destruct q as [i | i | i]; unfold mark_of; cbn [deref].
  - apply (mark_set_zero_row b p v i w).
  - apply (mark_set_zero_col b p v i w).
  - apply (mark_set_zero_square b p v i w).
Qed.

Lemma mark_set_same (b : board) (p : cand_ptr) (v x : Z) :
  allocated b -> 0 <= ptr_index p <= MAX_NUM -> 0 <= v <= MAX_NUM ->
  mark_of (mark_set b p v x) p v = x.
Proof.
  intros [_ [? ?] [? ?] [? ?]] Hp Hv.
  destruct p as [i | i | i]; unfold mark_of; cbn in *;
    (apply get2_upd2_eq; [now apply ix_lt | apply ix_lt; [now apply sized_lookup | exact Hv]]).
Qed.

Lemma init_candidates_zero (b : board) (p : cand_ptr) (v : Z) :
  allocated b -> 0 <= ptr_index p <= MAX_NUM -> in_range v ->
  mark_of (init_candidates b p) p v = 0.
Proof.
  intros Ha Hp Hv. unfold init_candidates.
  apply (foldl_establish _ allocated (fun a => mark_of a p v = 0) _ v).
  - now apply elem_of_for_range.
  - exact Ha.
  - intros a y. apply mark_set_allocated.
  - intros a Haa. apply mark_set_same; auto using in_range_bounds.
  - intros a y _ _. apply mark_set_zero_any.
Qed.

Lemma write_cell_allocated (b : board) (i j : Z) (x : cell) :
  allocated b -> allocated (write_cell b i j x).
Proof.
  intros [[? ?] ? ? ?]. split; try assumption. cbn.
  split; [now apply upd2_sized | now apply upd2_Forall_sized].
Qed.

Lemma write_cell_same (b : board) (i j : Z) (x : cell) :
  allocated b -> 0 <= i <= MAX_NUM -> 0 <= j <= MAX_NUM ->
  cell_at (write_cell b i j x) i j = x.
Proof.
  intros [[? ?] _ _ _] Hi Hj. rewrite cell_at_get2. cbn [cells write_cell].
  apply get2_upd2_eq; [now apply ix_lt |].
  apply ix_lt; [now apply sized_lookup | exact Hj].
Qed.

Lemma write_cell_other (b : board) (i j i' j' : Z) (x : cell) :
  0 <= i -> 0 <= j -> 0 <= i' -> 0 <= j' -> i <> i' \/ j <> j' ->
  cell_at (write_cell b i j x) i' j' = cell_at b i' j'.
Proof.
  intros Hi Hj Hi' Hj' Hne. rewrite !cell_at_get2. cbn [cells write_cell].
  apply get2_upd2_ne.
  destruct Hne as [Hne | Hne]; [left | right]; intros E; apply ix_inj in E; lia.
Qed.

Lemma init_board_unfold (b : board) :
  init_board b =
  foldl init_row (write_unset_cells b (TOTAL_NUMS * TOTAL_NUMS)) (for_range MIN_NUM MAX_NUM).
Proof. reflexivity. Qed.

Lemma init_row_allocated (b : board) (i : Z) : allocated b -> allocated (init_row b i).
Proof.
  intros Ha. unfold init_row.
  apply (foldl_preserve _ allocated); [auto using init_candidates_allocated |].
  intros a y. apply write_cell_allocated.
Qed.

Lemma init_row_unset_cells (b : board) (i : Z) : unset_cells (init_row b i) = unset_cells b.
Proof.
  unfold init_row.
  apply (foldl_preserve _ (fun a => unset_cells a = unset_cells b)).
  - now rewrite !init_candidates_unset_cells.
  - now intros a y <-.
Qed.

Lemma init_row_zeroed_keep (b : board) (i k : Z) : zeroed b k -> zeroed (init_row b i) k.
Proof.
  intros Hz. unfold init_row.
  apply (foldl_preserve _ (fun a => zeroed a k)); [auto using init_candidates_zeroed |].
  now intros a y.
Qed.

Lemma init_candidates_keep_zero (b : board) (p q : cand_ptr) (w : Z) :
  mark_of b q w = 0 -> mark_of (init_candidates b p) q w = 0.
Proof.
  intros Hz. unfold init_candidates.
  apply (foldl_preserve _ (fun a => mark_of a q w = 0)); [exact Hz |].
  intros a y. apply mark_set_zero_any.
Qed.

Lemma row_mark_of (b : board) (i v : Z) : row_mark b i v = mark_of b (RowsAt i) v.
Proof. reflexivity. Qed.

Lemma col_mark_of (b : board) (i v : Z) : col_mark b i v = mark_of b (ColumnsAt i) v.
Proof. reflexivity. Qed.

Lemma square_mark_of (b : board) (i v : Z) : square_mark b i v = mark_of b (SquaresAt i) v.
Proof. reflexivity. Qed.

Lemma init_row_zeroed (b : board) (i : Z) :
  allocated b -> in_range i -> zeroed (init_row b i) i.
Proof.
  intros Ha Hi. unfold init_row.
  apply (foldl_preserve _ (fun a => zeroed a i)); [| intros a y Hz; exact Hz].
  intros v Hv. apply in_range_bounds in Hi as Hi'.
  rewrite row_mark_of, col_mark_of, square_mark_of.
  split; [| split].
  - do 2 apply init_candidates_keep_zero.
    now apply init_candidates_zero.
  - apply init_candidates_keep_zero.
    apply init_candidates_zero; [now apply init_candidates_allocated | exact Hi' | exact Hv].
  - apply init_candidates_zero; [| exact Hi' | exact Hv].
    now do 2 apply init_candidates_allocated.
Qed.

Lemma foldl_keep {A B : Type} (f : A -> B -> A) (R Q : A -> Prop) (l : list B) (a : A) :
  R a -> Q a ->
  (forall a y, R a -> R (f a y)) ->
  (forall a y, y ∈ l -> R a -> Q a -> Q (f a y)) ->
  Q (foldl f a l).
Proof.
  intros Ha Hq HR Hkeep.
  enough (Hgen : forall k a, k ⊆ l -> R a -> Q a -> Q (foldl f a k)) by now apply Hgen.
  intros k. induction k as [| y k IH]; intros a' Hsub Ha' Hq'; [exact Hq' |].
  cbn. apply IH.
  - intros z Hz. apply Hsub. now right.
  - now apply HR.
  - apply Hkeep; auto. apply Hsub. now left.
Qed.

Lemma init_cell_keep (a : board) (i y r c : Z) :
  allocated a -> in_range i -> in_range y -> in_range r -> in_range c ->
  cell_at a r c = fresh_cell r c ->
  cell_at (init_cell i a y) r c = fresh_cell r c.
Proof.
  intros Ha Hi Hy Hr Hc Hcell. unfold init_cell.
  apply in_range_bounds in Hi, Hy, Hr, Hc.
  destruct (decide (i = r /\ y = c)) as [[-> ->] | Hne].
  - now apply write_cell_same.
  - rewrite write_cell_other; try lia. exact Hcell.
Qed.

Lemma init_row_cell_keep (b : board) (i r c : Z) :
  allocated b -> in_range i -> in_range r -> in_range c ->
  cell_at b r c = fresh_cell r c -> cell_at (init_row b i) r c = fresh_cell r c.
Proof.
  intros Ha Hi Hr Hc Hcell. unfold init_row.
  apply (foldl_keep _ allocated (fun a => cell_at a r c = fresh_cell r c)).
  - now do 3 apply init_candidates_allocated.
  - unfold cell_at. now rewrite !init_candidates_cells.
  - intros a y. apply write_cell_allocated.
  - intros a y Hy Haa Hq. apply elem_of_for_range in Hy. now apply init_cell_keep.
Qed.

Lemma init_row_cell (b : board) (i c : Z) :
  allocated b -> in_range i -> in_range c ->
  cell_at (init_row b i) i c = fresh_cell i c.
Proof.
  intros Ha Hi Hc. unfold init_row.
  apply (foldl_establish _ allocated (fun a => cell_at a i c = fresh_cell i c) _ c).
  - now apply elem_of_for_range.
  - now do 3 apply init_candidates_allocated.
  - intros a y. apply write_cell_allocated.
  - intros a Haa. apply write_cell_same; auto using in_range_bounds.
  - intros a y Hy Haa Hq. apply elem_of_for_range in Hy. now apply init_cell_keep.
Qed.

Section InitBoard.
Variable b0 : board.
Hypothesis Halloc : allocated b0.

Lemma init_board_allocated : allocated (init_board b0).
Proof.
  rewrite init_board_unfold.
  apply (foldl_preserve _ allocated).
  - destruct Halloc. now split.
  - intros a y. apply init_row_allocated.
Qed.

Lemma init_board_unset_cells : unset_cells (init_board b0) = TOTAL_NUMS * TOTAL_NUMS.
Proof.
  rewrite init_board_unfold.
  apply (foldl_preserve _ (fun a => unset_cells a = TOTAL_NUMS * TOTAL_NUMS)).
  - reflexivity.
  - intros a y <-. apply init_row_unset_cells.
Qed.

Lemma init_board_cell_at (r c : Z) :
  in_range r -> in_range c -> cell_at (init_board b0) r c = fresh_cell r c.
Proof.
  intros Hr Hc. rewrite init_board_unfold.
  apply (foldl_establish _ allocated (fun a => cell_at a r c = fresh_cell r c) _ r).
  - now apply elem_of_for_range.
  - destruct Halloc. now split.
  - intros a y. apply init_row_allocated.
  - intros a Ha. now apply init_row_cell.
  - intros a y Hy Ha Hq. apply elem_of_for_range in Hy. now apply init_row_cell_keep.
Qed.

Lemma init_board_zeroed (i : Z) : in_range i -> zeroed (init_board b0) i.
Proof.
  intros Hi. rewrite init_board_unfold.
  apply (foldl_establish _ allocated (fun a => zeroed a i) _ i).
  - now apply elem_of_for_range.
  - destruct Halloc. now split.
  - intros a y. apply init_row_allocated.
  - intros a Ha. now apply init_row_zeroed.
  - intros a y _ _. apply init_row_zeroed_keep.
Qed.

Lemma init_board_well_formed : well_formed (init_board b0).
Proof.
  split.
  - apply init_board_allocated.
  - intros r c Hr Hc. unfold linked. now rewrite init_board_cell_at.
  - intros r c Hr Hc _. now rewrite init_board_cell_at.
Qed.
End InitBoard.

Lemma blank_board_allocated : allocated blank_board.
Proof.
  split; cbn; (split; [reflexivity |]); repeat constructor.
Qed.

(** ** Cells holding a value *)

Lemma holds_set_cell (b : board) (r c val i j v : Z) :
  well_formed b -> in_range r -> in_range c -> is_set b r c = 0 ->
  0 <= i -> 0 <= j ->
  holds (set_cell b r c val) i j v <-> (i = r /\ j = c /\ v = val) \/ holds b i j v.
Proof.
  intros Hwf Hr Hc Hunset Hi Hj. unfold holds, is_set in *.
  rewrite set_cell_cell_at by assumption.
  destruct (decide (i = r /\ j = c)) as [[-> ->] | Hne]; cbn.
  - split.
    + intros [_ <-]. now left.
    + intros [(_ & _ & ->) | [Hset _]]; [split; [lia | reflexivity] | contradiction].
  - split; [now right |]. intros [(-> & -> & _) | H]; [now destruct Hne | exact H].
Qed.

Lemma holds_unset_cell (b : board) (r c val i j v : Z) :
  well_formed b -> in_range r -> in_range c ->
  0 <= i -> 0 <= j ->
  holds (unset_cell b r c val) i j v <-> holds b i j v /\ ~ (i = r /\ j = c).
Proof.
  intros Hwf Hr Hc Hi Hj. unfold holds.
  rewrite unset_cell_cell_at by assumption.
  destruct (decide (i = r /\ j = c)) as [[-> ->] | Hne]; cbn.
  - split; [intros [H _]; now destruct H | intros [_ H]; now destruct H].
  - tauto.
Qed.

Lemma holds_unique_value (b : board) (r c v w : Z) :
  holds b r c v -> holds b r c w -> v = w.
Proof. intros [_ <-] [_ <-]. reflexivity. Qed.

(** ** The marks of one kind of group

    [group r c] is the group cell (r, c) belongs to (its row, its
    column or its square) and [mark b k v] is entry [v] of the
    candidates of group [k]. *)

Section Group.
Variable group : Z -> Z -> Z.
Variable mark : board -> Z -> Z -> Z.

Hypothesis group_in_range : forall r c, in_range r -> in_range c -> in_range (group r c).

Section Step.
Variables (b : board) (r c val : Z).
Hypothesis Hwf : well_formed b.
Hypothesis Hr : in_range r.
Hypothesis Hc : in_range c.
Hypothesis Hval : in_range val.
Hypothesis Hagree : marks_agree group mark b.
Hypothesis Honce : held_once group b.

Section SetCell.
Hypothesis mark_set_cell :
  forall k v, 0 <= k -> 0 <= v ->
    mark (set_cell b r c val) k v =
    if decide (k = group r c /\ v = val) then 1 else mark b k v.
Hypothesis Hunset : is_set b r c = 0.
Hypothesis Hfree : mark b (group r c) val = 0.

Lemma set_cell_marks_agree : marks_agree group mark (set_cell b r c val).
Proof.
  intros k v Hk Hv.
  rewrite mark_set_cell by (apply in_range_bounds in Hk, Hv; lia).
  split.
  - intros Hmark. destruct (decide (k = group r c /\ v = val)) as [[-> ->] | Hne].
    + exists r, c. split; [exact Hr |]. split; [exact Hc |]. split; [reflexivity |].
      apply holds_set_cell; try assumption;
        try (apply in_range_bounds in Hr, Hc; lia).
    + apply Hagree in Hmark; try assumption.
      destruct Hmark as (i & j & Hi & Hj & Hg & Hh).
      exists i, j. split; [exact Hi |]. split; [exact Hj |]. split; [exact Hg |].
      apply holds_set_cell; try assumption;
        try (apply in_range_bounds in Hi, Hj; lia). now right.
  - intros (i & j & Hi & Hj & Hg & Hh).
    apply holds_set_cell in Hh; try assumption;
      try (apply in_range_bounds in Hi, Hj; lia).
    destruct (decide (k = group r c /\ v = val)) as [_ | Hne]; [lia |].
    destruct Hh as [(-> & -> & ->) | Hh]; [now destruct Hne |].
    apply Hagree; try assumption. now exists i, j.
Qed.

Lemma set_cell_held_once : held_once group (set_cell b r c val).
Proof.
  intros i j i' j' v Hi Hj Hi' Hj' Hg Hh Hh'.
  apply holds_set_cell in Hh; try assumption;
    try (apply in_range_bounds in Hi, Hj; lia).
  apply holds_set_cell in Hh'; try assumption;
    try (apply in_range_bounds in Hi', Hj'; lia).
  assert (Hclash : forall x y, in_range x -> in_range y ->
                     group x y = group r c -> holds b x y val -> False).
  { intros x y Hx Hy Hgxy Hxy.
    assert (Hm : mark b (group r c) val <> 0).
    { apply Hagree; auto. now exists x, y. }
    contradiction. }
  destruct Hh as [(-> & -> & ->) | Hh], Hh' as [(-> & -> & Hv') | Hh'].
  - now split.
  - exfalso. symmetry in Hg. exact (Hclash i' j' Hi' Hj' Hg Hh').
  - subst v. exfalso. exact (Hclash i j Hi Hj Hg Hh).
  - exact (Honce i j i' j' v Hi Hj Hi' Hj' Hg Hh Hh').
Qed.
End SetCell.

Section UnsetCell.
Hypothesis mark_unset_cell :
  forall k v, 0 <= k -> 0 <= v ->
    mark (unset_cell b r c val) k v =
    if decide (k = group r c /\ v = val) then 0 else mark b k v.
Hypothesis Hholds : holds b r c val.

Lemma unset_cell_marks_agree : marks_agree group mark (unset_cell b r c val).
Proof.
  intros k v Hk Hv.
  rewrite mark_unset_cell by (apply in_range_bounds in Hk, Hv; lia).
  split.
  - intros Hmark. destruct (decide (k = group r c /\ v = val)) as [_ | Hne];
      [contradiction |].
    apply Hagree in Hmark; try assumption.
    destruct Hmark as (i & j & Hi & Hj & Hg & Hh).
    exists i, j. split; [exact Hi |]. split; [exact Hj |]. split; [exact Hg |].
    apply holds_unset_cell; try assumption;
      try (apply in_range_bounds in Hi, Hj; lia).
    split; [exact Hh |]. intros [-> ->].
    pose proof (holds_unique_value _ _ _ _ _ Hh Hholds). subst v.
    apply Hne. now split.
  - intros (i & j & Hi & Hj & Hg & Hh).
    apply holds_unset_cell in Hh; try assumption;
      try (apply in_range_bounds in Hi, Hj; lia).
    destruct Hh as [Hh Hne].
    destruct (decide (k = group r c /\ v = val)) as [[-> ->] | Hk'].
    + exfalso. apply Hne. exact (Honce i j r c val Hi Hj Hr Hc Hg Hh Hholds).
    + apply Hagree; try assumption. now exists i, j.
Qed.

Lemma unset_cell_held_once : held_once group (unset_cell b r c val).
Proof.
  intros i j i' j' v Hi Hj Hi' Hj' Hg Hh Hh'.
  apply holds_unset_cell in Hh; try assumption;
    try (apply in_range_bounds in Hi, Hj; lia).
  apply holds_unset_cell in Hh'; try assumption;
    try (apply in_range_bounds in Hi', Hj'; lia).
  destruct Hh as [Hh _], Hh' as [Hh' _].
  exact (Honce i j i' j' v Hi Hj Hi' Hj' Hg Hh Hh').
Qed.
End UnsetCell.
End Step.
End Group.

(** ** Counting the cells without value *)

Lemma In_for_range (lo hi n : Z) : In n (for_range lo hi) <-> lo <= n <= hi.
Proof. rewrite <- list_elem_of_In. apply elem_of_for_range. Qed.

Lemma In_all_cells (r c : Z) : In (r, c) all_cells <-> in_range r /\ in_range c.
Proof.
  unfold all_cells, in_range. rewrite in_flat_map. split.
  - intros (x & Hx & Hin). apply in_map_iff in Hin. destruct Hin as (y & E & Hy).
    injection E as <- <-. now rewrite In_for_range in Hx, Hy.
  - intros [Hr Hc]. exists r. split; [now apply In_for_range |].
    apply in_map_iff. exists c. split; [reflexivity | now apply In_for_range].
Qed.

Lemma NoDup_all_cells : NoDup all_cells.
Proof. apply (bool_decide_unpack _). vm_compute. exact I. Qed.

Lemma count_unset_in_bounds (b : board) (l : list (Z * Z)) :
  0 <= count_unset_in b l <= Z.of_nat (length l).
Proof.
  induction l as [| [r c] l IH]; cbn [count_unset_in length]; [lia |].
  destruct (is_set b r c =? 0); lia.
Qed.

Lemma count_unset_in_same (b b' : board) (l : list (Z * Z)) :
  (forall i j, In (i, j) l -> is_set b' i j = is_set b i j) ->
  count_unset_in b' l = count_unset_in b l.
Proof.
  induction l as [| [r c] l IH]; intros Hsame; [reflexivity |].
  cbn [count_unset_in]. rewrite Hsame by now left.
  rewrite IH; [reflexivity |]. intros i j Hin. apply Hsame. now right.
Qed.

(** One cell without value gets one, the others stay as they are. *)
Lemma count_unset_in_fill (b b' : board) (l : list (Z * Z)) (r c : Z) :
  NoDup l -> In (r, c) l ->
  is_set b r c = 0 -> is_set b' r c <> 0 ->
  (forall i j, In (i, j) l -> (i, j) <> (r, c) -> is_set b' i j = is_set b i j) ->
  count_unset_in b' l = count_unset_in b l - 1.
Proof.
  induction l as [| [x y] l IH]; intros Hnd Hin Hunset Hset Hsame; [inversion Hin |].
  apply NoDup_cons in Hnd. destruct Hnd as [Hnotin Hnd]. cbn [count_unset_in].
  destruct Hin as [E | Hin].
  - injection E as -> ->. rewrite Hunset. apply Z.eqb_neq in Hset. rewrite Hset.
    cbn [Z.eqb]. rewrite (count_unset_in_same b b'); [lia |].
    intros i j Hij. apply Hsame; [now right |].
    intros E. injection E as -> ->. apply Hnotin. now apply list_elem_of_In.
  - rewrite IH; try assumption.
    + rewrite Hsame; [lia | now left |].
      intros E. injection E as -> ->. apply Hnotin. now apply list_elem_of_In.
    + intros i j Hij. apply Hsame. now right.
Qed.

Lemma count_unset_in_zero (b : board) (l : list (Z * Z)) :
  count_unset_in b l = 0 <-> forall i j, In (i, j) l -> is_set b i j <> 0.
Proof.
  induction l as [| [r c] l IH]; cbn [count_unset_in].
  - split; [intros _ i j [] | reflexivity].
  - pose proof (count_unset_in_bounds b l) as Hb.
    destruct (is_set b r c =? 0) eqn:Htest.
    + apply Z.eqb_eq in Htest. split; [lia |].
      intros Hall. exfalso. apply (Hall r c); [now left | exact Htest].
    + apply Z.eqb_neq in Htest. rewrite Z.add_0_l, IH. split.
      * intros Hall i j [E | Hin]; [injection E as <- <-; exact Htest | now apply Hall].
      * intros Hall i j Hin. apply Hall. now right.
Qed.

Lemma count_unset_in_none (b : board) (l : list (Z * Z)) :
  (forall i j, In (i, j) l -> is_set b i j = 0) ->
  count_unset_in b l = Z.of_nat (length l).
Proof.
  induction l as [| [r c] l IH]; intros Hall; [reflexivity |].
  cbn [count_unset_in length]. rewrite Hall by now left. cbn [Z.eqb].
  rewrite IH; [lia |]. intros i j Hin. apply Hall. now right.
Qed.

Lemma count_unset_bounds (b : board) : 0 <= count_unset b <= 81.
Proof. apply (count_unset_in_bounds b all_cells). Qed.

Lemma count_unset_zero (b : board) :
  count_unset b = 0 <->
  forall r c, in_range r -> in_range c -> is_set b r c <> 0.
Proof.
  unfold count_unset. rewrite count_unset_in_zero. split.
  - intros Hall r c Hr Hc. apply Hall. now apply In_all_cells.
  - intros Hall r c Hin. apply In_all_cells in Hin. now apply Hall.
Qed.

Lemma count_unset_set_cell (b : board) (r c val : Z) :
  well_formed b -> in_range r -> in_range c -> is_set b r c = 0 ->
  count_unset (set_cell b r c val) = count_unset b - 1.
Proof.
  intros Hwf Hr Hc Hunset. unfold count_unset.
  apply (count_unset_in_fill _ _ _ r c).
  - apply NoDup_all_cells.
  - now apply In_all_cells.
  - exact Hunset.
  - unfold is_set. rewrite set_cell_cell_at by
      (try assumption; apply in_range_bounds in Hr, Hc; lia).
    destruct (decide (r = r /\ c = c)) as [_ | Hn]; [cbn; lia | now destruct Hn].
  - intros i j Hin Hne. apply In_all_cells in Hin. destruct Hin as [Hi Hj].
    unfold is_set. rewrite set_cell_cell_at by
      (try assumption; apply in_range_bounds in Hi, Hj; lia).
    destruct (decide (i = r /\ j = c)) as [[-> ->] | _]; [now destruct Hne | reflexivity].
Qed.

Lemma count_unset_unset_cell (b : board) (r c val : Z) :
  well_formed b -> in_range r -> in_range c -> is_set b r c <> 0 ->
  count_unset (unset_cell b r c val) = count_unset b + 1.
Proof.
  intros Hwf Hr Hc Hset. unfold count_unset.
  enough (count_unset_in b all_cells =
          count_unset_in (unset_cell b r c val) all_cells - 1) by lia.
  apply (count_unset_in_fill _ _ _ r c).
  - apply NoDup_all_cells.
  - now apply In_all_cells.
  - unfold is_set. rewrite unset_cell_cell_at by
      (try assumption; apply in_range_bounds in Hr, Hc; lia).
    destruct (decide (r = r /\ c = c)) as [_ | Hn]; [reflexivity | now destruct Hn].
  - exact Hset.
  - intros i j Hin Hne. apply In_all_cells in Hin. destruct Hin as [Hi Hj].
    unfold is_set. rewrite unset_cell_cell_at by
      (try assumption; apply in_range_bounds in Hi, Hj; lia).
    destruct (decide (i = r /\ j = c)) as [[-> ->] | _]; [now destruct Hne | reflexivity].
Qed.

(** ** The board invariant *)

Lemma consistent_invariant (b : board) : consistent b -> board_invariant b.
Proof.
  intros Hcon. split; [| split; [| split]].
  - intros r v Hr Hv. rewrite (con_rows b Hcon r v Hr Hv). unfold row_of. split.
    + intros (i & j & Hi & Hj & -> & Hh). now exists j.
    + intros (j & Hj & Hh). now exists r, j.
  - intros c v Hc Hv. rewrite (con_cols b Hcon c v Hc Hv). unfold col_of. split.
    + intros (i & j & Hi & Hj & -> & Hh). now exists i.
    + intros (i & Hi & Hh). now exists i, c.
  - exact (con_squares b Hcon).
  - exact (con_count b Hcon).
Qed.


Lemma loaded_reachable (b : board) : loaded b -> reachable b.
Proof. induction 1; [now apply reach_init | now apply reach_set]. Qed.

(** A board whose cells and marks are as [init_board] leaves them. *)
Lemma fresh_consistent (b : board) :
  well_formed b ->
  (forall r c, in_range r -> in_range c -> cell_at b r c = fresh_cell r c) ->
  (forall i, in_range i -> zeroed b i) ->
  unset_cells b = TOTAL_NUMS * TOTAL_NUMS ->
  consistent b.
Proof.
  intros Hwf Hcells Hzero Hcount.
  assert (Hnone : forall r c v, in_range r -> in_range c -> ~ holds b r c v).
  { intros r c v Hr Hc [Hset _]. rewrite Hcells in Hset by assumption.
    now apply Hset. }
  assert (Hmarks : forall group mark,
             (forall k v, in_range k -> in_range v -> mark b k v = 0) ->
             marks_agree group mark b).
  { intros group mark Hz k v Hk Hv. rewrite Hz by assumption. split; [congruence |].
    intros (r & c & Hr & Hc & _ & Hh). now apply Hnone in Hh. }
  assert (Honce : forall group, held_once group b).
  { intros group r c r' c' v Hr Hc _ _ _ Hh _. now apply Hnone in Hh. }
  split.
  - exact Hwf.
  - intros r c Hr Hc Hset. unfold is_set in Hset.
    rewrite Hcells in Hset by assumption. now destruct Hset.
  - apply Hmarks. intros k v Hk Hv. exact (proj1 (Hzero k Hk v Hv)).
  - apply Hmarks. intros k v Hk Hv. exact (proj1 (proj2 (Hzero k Hk v Hv))).
  - apply Hmarks. intros k v Hk Hv. exact (proj2 (proj2 (Hzero k Hk v Hv))).
  - apply Honce.
  - apply Honce.
  - apply Honce.
  - rewrite Hcount. unfold count_unset.
    rewrite count_unset_in_none; [vm_compute; reflexivity |].
    intros i j Hin. apply In_all_cells in Hin. destruct Hin as [Hi Hj]. unfold is_set.
    now rewrite Hcells.
Qed.

Lemma init_board_consistent (b0 : board) : allocated b0 -> consistent (init_board b0).
Proof.
  intros Ha. apply fresh_consistent.
  - now apply init_board_well_formed.
  - intros r c. now apply init_board_cell_at.
  - intros i. now apply init_board_zeroed.
  - now apply init_board_unset_cells.
Qed.

Lemma set_cell_consistent (b : board) (r c val : Z) :
  consistent b -> in_range r -> in_range c -> in_range val ->
  is_set b r c = 0 -> unmarked b r c val ->
  consistent (set_cell b r c val).
Proof.
  intros Hcon Hr Hc Hval Hunset Hfree.
  pose proof (con_wf b Hcon) as Hwf.
  apply unmarked_marks in Hfree; try assumption. destruct Hfree as (Hrm & Hcm & Hsm).
  pose proof (in_range_bounds val Hval) as Hval'.
  split.
  - now apply set_cell_well_formed.
  - intros i j Hi Hj. unfold is_set.
    rewrite set_cell_cell_at by (try assumption; apply in_range_bounds in Hi, Hj; lia).
    destruct (decide (i = r /\ j = c)) as [_ | _]; [now cbn |].
    now apply con_values.
  - apply set_cell_marks_agree; auto using con_rows.
    intros k v Hk Hv. now apply set_cell_row_mark.
  - apply set_cell_marks_agree; auto using con_cols.
    intros k v Hk Hv. now apply set_cell_col_mark.
  - apply set_cell_marks_agree; auto using con_squares.
    intros k v Hk Hv. now apply set_cell_square_mark.
  - apply (set_cell_held_once row_of row_mark); auto using con_rows, con_row_once.
  - apply (set_cell_held_once col_of col_mark); auto using con_cols, con_col_once.
  - apply (set_cell_held_once square square_mark);
      auto using con_squares, con_square_once, square_in_range.
  - rewrite set_cell_unset_cells, count_unset_set_cell by assumption.
    now rewrite (con_count b Hcon).
Qed.

Lemma unset_cell_consistent (b : board) (r c val : Z) :
  consistent b -> in_range r -> in_range c -> in_range val ->
  holds b r c val ->
  consistent (unset_cell b r c val).
Proof.
  intros Hcon Hr Hc Hval Hholds.
  pose proof (con_wf b Hcon) as Hwf.
  pose proof (in_range_bounds val Hval) as Hval'.
  split.
  - now apply unset_cell_well_formed.
  - intros i j Hi Hj. unfold is_set.
    rewrite unset_cell_cell_at by (try assumption; apply in_range_bounds in Hi, Hj; lia).
    destruct (decide (i = r /\ j = c)) as [_ | _]; [now cbn |].
    now apply con_values.
  - apply unset_cell_marks_agree; auto using con_rows, con_row_once.
    intros k v Hk Hv. now apply unset_cell_row_mark.
  - apply unset_cell_marks_agree; auto using con_cols, con_col_once.
    intros k v Hk Hv. now apply unset_cell_col_mark.
  - apply unset_cell_marks_agree; auto using con_squares, con_square_once.
    intros k v Hk Hv. now apply unset_cell_square_mark.
  - apply unset_cell_held_once; auto using con_row_once.
  - apply unset_cell_held_once; auto using con_col_once.
  - apply unset_cell_held_once; auto using con_square_once.
  - rewrite unset_cell_unset_cells, count_unset_unset_cell; try assumption.
    + now rewrite (con_count b Hcon).
    + apply Hholds.
Qed.

Lemma reachable_consistent (b : board) : reachable b -> consistent b.
Proof.
  induction 1 as [b0 Ha | b r c val _ IH Hr Hc Hv Hunset Hfree | b r c val _ IH Hr Hc Hv Hh].
  - now apply init_board_consistent.
  - now apply set_cell_consistent.
  - now apply unset_cell_consistent.
Qed.

(** ** The search on a consistent board *)

Lemma consistent_counted (b : board) : consistent b -> counted b.
Proof. intros Hcon. split; [apply (con_wf b Hcon) | apply (con_count b Hcon)]. Qed.

Lemma counted_set_cell (b : board) (r c val : Z) :
  counted b -> in_range r -> in_range c -> is_set b r c = 0 ->
  counted (set_cell b r c val).
Proof.
  intros [Hwf Hcount] Hr Hc Hunset. split; [now apply set_cell_well_formed |].
  rewrite set_cell_unset_cells, count_unset_set_cell by assumption. now rewrite Hcount.
Qed.

Lemma placed_counted (b : board) : placed b -> counted b.
Proof.
  induction 1 as [b0 Ha | b r c val _ IH Hr Hc Hv Hunset].
  - now apply consistent_counted, init_board_consistent.
  - now apply counted_set_cell.
Qed.

Lemma counted_complete (b : board) :
  counted b -> (unset_cells b = 0 <-> complete b).
Proof.
  intros [_ Hcount]. rewrite Hcount. apply count_unset_zero.
Qed.

Lemma consistent_complete (b : board) :
  consistent b -> (unset_cells b = 0 <-> complete b).
Proof. intros Hcon. now apply counted_complete, consistent_counted. Qed.

Lemma prefix_set_first (b : board) : prefix_set b MIN_NUM MIN_NUM.
Proof.
  intros i j Hi Hj Hlt. pose proof (cell_index_bounds i j Hi Hj).
  unfold cell_index in Hlt at 2. lia.
Qed.

Lemma prefix_set_set_cell (b : board) (r c val : Z) :
  well_formed b -> in_range r -> in_range c ->
  prefix_set b r c -> prefix_set (set_cell b r c val) r c.
Proof.
  intros Hwf Hr Hc Hpre i j Hi Hj Hlt. unfold is_set.
  rewrite set_cell_cell_at by (try assumption; apply in_range_bounds in Hi, Hj; lia).
  destruct (decide (i = r /\ j = c)) as [_ | _]; [now cbn | now apply Hpre].
Qed.

(** The scan result of an activation whose earlier cells all have a
    value: either a cell without value, before which all cells have one,
    or no cell is left and the counter is 0. *)
Lemma scan_result (b : board) (r c : Z) :
  counted b -> in_range r -> in_range c -> prefix_set b r c ->
  exists r' c',
    find_unset scan_budget b r c = Some (r', c') /\ in_range r' /\ in_range c' /\
    prefix_set b r' c' /\
    (is_set b r' c' <> 0 -> unset_cells b = 0).
Proof.
  intros Hcon Hr Hc Hpre.
  destruct (find_unset_spec scan_budget b r c Hr Hc)
    as (r' & c' & Hfind & Hr' & Hc' & Hle & Hscan & Hend).
  { pose proof (cell_index_bounds r c Hr Hc). unfold scan_budget, TOTAL_NUMS. lia. }
  exists r', c'. split; [exact Hfind |]. split; [exact Hr' |]. split; [exact Hc' |].
  assert (Hpre' : prefix_set b r' c').
  { intros i j Hi Hj Hlt.
    destruct (Z.lt_ge_cases (cell_index i j) (cell_index r c)).
    - now apply Hpre.
    - apply Hscan; try assumption. lia. }
  split; [exact Hpre' |].
  intros Hset. apply (counted_complete b Hcon).
  intros i j Hi Hj. destruct (Hend Hset) as [-> ->].
  destruct (decide (cell_index i j = 80)) as [Hlast | Hnot].
  - destruct (cell_index_last i j Hi Hj Hlast) as [-> ->]. exact Hset.
  - apply Hpre'; try assumption.
    pose proof (cell_index_bounds i j Hi Hj).
    change (cell_index MAX_NUM MAX_NUM) with 80. lia.
Qed.

Section TryCandidatesGood.
Variable solve : board -> Z -> Z -> option (Z * board).
Hypothesis solve_post :
  forall b r c ret b',
    well_formed b -> in_range r -> in_range c ->
    solve b r c = Some (ret, b') -> search_post b ret b'.
Hypothesis solve_good :
  forall b r c ret b',
    consistent b -> in_range r -> in_range c -> prefix_set b r c ->
    solve b r c = Some (ret, b') -> search_good ret b'.

Lemma try_candidates_good (n : nat) :
  forall b r c prev ret b',
    consistent b -> in_range r -> in_range c -> is_set b r c = 0 ->
    prefix_set b r c -> MIN_NUM <= prev ->
    try_candidates solve n b r c prev = Some (ret, b') ->
    search_good ret b'.
Proof.
  induction n as [| n IH]; intros b r c prev ret b' Hcon Hr Hc Hunset Hpre Hprev Hrun.
  - discriminate.
  - pose proof (con_wf b Hcon) as Hwf.
    cbn [try_candidates] in Hrun. fold (candidate b r c prev) in Hrun.
    destruct (candidate_spec b r c prev) as [[Hnone _] | (Hin & Hfree & _)];
      [unfold MIN_NUM in Hprev; lia | |].
    + rewrite Hnone in Hrun. cbn in Hrun. injection Hrun as <- <-.
      split; [exact Hcon | congruence].
    + set (val := candidate b r c prev) in *.
      assert (Hval : in_range val) by (unfold in_range; lia).
      destruct (val =? -1) eqn:Hm1; [apply Z.eqb_eq in Hm1; unfold MIN_NUM in *; lia |].
      destruct (solve (set_cell b r c val) r c) as [[ret1 b1] |] eqn:Hsolve;
        [| discriminate].
      pose proof Hsolve as Hpost.
      apply solve_post in Hpost; auto using set_cell_well_formed.
      destruct Hpost as (_ & _ & Hfail1 & _).
      apply solve_good in Hsolve;
        auto using set_cell_consistent, prefix_set_set_cell.
      destruct (ret1 =? 0) eqn:Hz.
      * apply Z.eqb_eq in Hz. rewrite (Hfail1 Hz) in Hrun.
        rewrite unset_set_cell in Hrun by assumption.
        apply IH in Hrun; auto. lia.
      * apply Z.eqb_neq in Hz. injection Hrun as <- <-.
        destruct Hsolve as [Hcon1 Hdone]. split; [exact Hcon1 | auto].
Qed.
End TryCandidatesGood.

Lemma solve_board_good (fuel : nat) :
  forall b r c ret b',
    consistent b -> in_range r -> in_range c -> prefix_set b r c ->
    solve_board fuel b r c = Some (ret, b') -> search_good ret b'.
Proof.
  induction fuel as [| fuel IH]; intros b r c ret b' Hcon Hr Hc Hpre Hrun.
  - discriminate.
  - cbn [solve_board] in Hrun.
    destruct (unset_cells b =? 0) eqn:Hcount.
    { apply Z.eqb_eq in Hcount. injection Hrun as <- <-. now split. }
    destruct (scan_result b r c (consistent_counted b Hcon) Hr Hc Hpre)
      as (r' & c' & Hfind & Hr' & Hc' & Hpre' & Hend).
    rewrite Hfind in Hrun.
    destruct (is_set b r' c' =? 0) eqn:Hset.
    + apply Z.eqb_eq in Hset.
      eapply try_candidates_good in Hrun; eauto using solve_board_post.
      unfold MIN_NUM. lia.
    + apply Z.eqb_neq in Hset. injection Hrun as <- <-. split; auto.
Qed.

(** ** Termination *)

Section TryCandidatesTotal.
Variable solve : board -> Z -> Z -> option (Z * board).
Variable bound : Z.
Hypothesis solve_post :
  forall b r c ret b',
    well_formed b -> in_range r -> in_range c ->
    solve b r c = Some (ret, b') -> search_post b ret b'.
Hypothesis solve_total :
  forall b r c,
    well_formed b -> in_range r -> in_range c -> count_unset b < bound ->
    exists ret b', solve b r c = Some (ret, b').

(** The floor grows with every pass, so [ARRAY_SIZE + 1 - prev] passes
    are enough. *)
Lemma try_candidates_total (n : nat) :
  forall b r c prev,
    well_formed b -> in_range r -> in_range c -> is_set b r c = 0 ->
    count_unset b <= bound ->
    MIN_NUM <= prev <= ARRAY_SIZE -> ARRAY_SIZE + 1 - prev <= Z.of_nat n ->
    exists ret b', try_candidates solve n b r c prev = Some (ret, b').
Proof.
  unfold ARRAY_SIZE, MIN_NUM, TOTAL_NUMS.
  induction n as [| n IH]; intros b r c prev Hwf Hr Hc Hunset Hcount Hprev Hn; [lia |].
  cbn [try_candidates]. fold (candidate b r c prev).
  destruct (candidate_spec b r c prev) as [[Hnone _] | (Hin & Hfree & _)]; [lia | |].
  - rewrite Hnone. cbn. eauto.
  - set (val := candidate b r c prev) in *. unfold MAX_NUM in Hin.
    assert (Hval : in_range val) by (unfold in_range, MIN_NUM, MAX_NUM; lia).
    destruct (val =? -1) eqn:Hm1; [apply Z.eqb_eq in Hm1; lia |].
    destruct (solve_total (set_cell b r c val) r c) as (ret1 & b1 & Hsolve);
      auto using set_cell_well_formed.
    { rewrite count_unset_set_cell by assumption. lia. }
    rewrite Hsolve.
    apply solve_post in Hsolve; auto using set_cell_well_formed.
    destruct Hsolve as (_ & _ & Hfail1 & _).
    destruct (ret1 =? 0) eqn:Hz; [| eauto].
    apply Z.eqb_eq in Hz. rewrite (Hfail1 Hz).
    rewrite unset_set_cell by assumption.
    apply IH; auto; lia.
Qed.
End TryCandidatesTotal.

(** With more fuel than cells without value the search returns. *)
Lemma solve_board_total (fuel : nat) :
  forall b r c,
    well_formed b -> in_range r -> in_range c -> count_unset b < Z.of_nat fuel ->
    exists ret b', solve_board fuel b r c = Some (ret, b').
Proof.
  induction fuel as [| fuel IH]; intros b r c Hwf Hr Hc Hcount.
  - pose proof (count_unset_bounds b). lia.
  - cbn [solve_board]. destruct (unset_cells b =? 0); [eauto |].
    destruct (find_unset_spec scan_budget b r c Hr Hc)
      as (r' & c' & Hfind & Hr' & Hc' & _).
    { pose proof (cell_index_bounds r c Hr Hc). unfold scan_budget, TOTAL_NUMS. lia. }
    rewrite Hfind. destruct (is_set b r' c' =? 0) eqn:Hset; [| eauto].
    apply Z.eqb_eq in Hset.
    apply (try_candidates_total _ (Z.of_nat fuel)); try assumption.
    + apply solve_board_post.
    + lia.
    + unfold ARRAY_SIZE, MIN_NUM, TOTAL_NUMS. lia.
    + unfold try_budget, ARRAY_SIZE, MIN_NUM, TOTAL_NUMS. lia.
Qed.

(** More fuel does not change a result. *)
Lemma try_candidates_mono (solve solve' : board -> Z -> Z -> option (Z * board)) (n : nat) :
  (forall b r c res, solve b r c = Some res -> solve' b r c = Some res) ->
  forall b r c prev res,
    try_candidates solve n b r c prev = Some res ->
    try_candidates solve' n b r c prev = Some res.
Proof.
  intros Hsolve. induction n as [| n IH]; intros b r c prev res Hrun; [discriminate |].
  cbn [try_candidates] in *. fold (candidate b r c prev) in *.
  destruct (candidate b r c prev =? -1); [exact Hrun |].
  destruct (solve (set_cell b r c (candidate b r c prev)) r c) as [[ret1 b1] |] eqn:Hs;
    [| discriminate].
  rewrite (Hsolve _ _ _ _ Hs). destruct (ret1 =? 0); [now apply IH | exact Hrun].
Qed.

Lemma solve_board_mono (fuel fuel' : nat) :
  (fuel <= fuel')%nat ->
  forall b r c res,
    solve_board fuel b r c = Some res -> solve_board fuel' b r c = Some res.
Proof.
  revert fuel'. induction fuel as [| fuel IH]; intros fuel' Hle b r c res Hrun;
    [discriminate |].
  destruct fuel' as [| fuel']; [lia |].
  cbn [solve_board] in *. destruct (unset_cells b =? 0); [exact Hrun |].
  destruct (find_unset scan_budget b r c) as [[r' c'] |]; [| discriminate].
  destruct (is_set b r' c' =? 0); [| exact Hrun].
  revert Hrun. apply try_candidates_mono. apply IH. lia.
Qed.

(** ** A complete consistent board is a solved Sudoku *)

Lemma elem_of_group_cells (group : Z -> Z -> Z) (k r c : Z) :
  (r, c) ∈ group_cells group k <-> in_range r /\ in_range c /\ group r c = k.
Proof.
  unfold group_cells. rewrite list_elem_of_filter, list_elem_of_In, In_all_cells.
  cbn. tauto.
Qed.

(** Each row, each column and each square has nine cells. *)
Lemma group_cells_length (k : Z) :
  in_range k ->
  length (group_cells row_of k) = 9%nat /\
  length (group_cells col_of k) = 9%nat /\
  length (group_cells square k) = 9%nat.
Proof.
  unfold in_range, MIN_NUM, MAX_NUM. intros Hk.
  assert (Hcases : k = 1 \/ k = 2 \/ k = 3 \/ k = 4 \/ k = 5 \/
                   k = 6 \/ k = 7 \/ k = 8 \/ k = 9) by lia.
  repeat destruct Hcases as [-> | Hcases]; try subst k; now vm_compute.
Qed.

Section Pigeonhole.
Variable group : Z -> Z -> Z.
Variable b : board.
Hypothesis Hcon : consistent b.
Hypothesis Hcomplete : complete b.
Hypothesis Honce : held_once group b.

(** Nine cells with nine different values between 1 and 9. *)
Lemma group_has_value (k v : Z) :
  length (group_cells group k) = 9%nat -> in_range v ->
  exists r c, in_range r /\ in_range c /\ group r c = k /\ value (cell_at b r c) = v.
Proof.
  intros Hlen Hv.
  set (val := fun p : Z * Z => value (cell_at b p.1 p.2)).
  assert (Hnodup : NoDup (val <$> group_cells group k)).
  { apply NoDup_fmap_2_strong.
    - intros [r c] [r' c'] Hp Hp' Heq. unfold val in Heq. cbn in Heq.
      apply elem_of_group_cells in Hp, Hp'.
      destruct Hp as (Hr & Hc & Hg), Hp' as (Hr' & Hc' & Hg').
      assert (E : r = r' /\ c = c').
      { apply (Honce r c r' c' (value (cell_at b r c))); try assumption.
        - congruence.
        - split; [now apply Hcomplete | reflexivity].
        - split; [now apply Hcomplete | now symmetry]. }
      destruct E as [-> ->]. reflexivity.
    - unfold group_cells. apply NoDup_filter, NoDup_all_cells. }
  assert (Hincl : incl (val <$> group_cells group k) (for_range MIN_NUM MAX_NUM)).
  { intros w Hw. apply list_elem_of_In, list_elem_of_fmap in Hw.
    destruct Hw as ([r c] & -> & Hp). apply elem_of_group_cells in Hp.
    destruct Hp as (Hr & Hc & _). apply In_for_range.
    apply (con_values b Hcon r c Hr Hc). now apply Hcomplete. }
  assert (Hall : incl (for_range MIN_NUM MAX_NUM) (val <$> group_cells group k)).
  { apply NoDup_length_incl; [now apply NoDup_ListNoDup | | exact Hincl].
    rewrite length_fmap, Hlen. now vm_compute. }
  assert (Hin : In v (val <$> group_cells group k)).
  { apply Hall. now apply In_for_range. }
  apply list_elem_of_In, list_elem_of_fmap in Hin.
  destruct Hin as ([r c] & -> & Hp). apply elem_of_group_cells in Hp.
  destruct Hp as (Hr & Hc & Hg). now exists r, c.
Qed.
End Pigeonhole.

Lemma consistent_complete_solved (b : board) :
  consistent b -> complete b -> solved b.
Proof.
  intros Hcon Hcomplete.
  assert (Hholds : forall r c, in_range r -> in_range c ->
                               holds b r c (value (cell_at b r c))).
  { intros r c Hr Hc. split; [now apply Hcomplete | reflexivity]. }
  split; [exact Hcomplete |]. split; [| split].
  - intros r v Hr Hv. destruct (group_cells_length r Hr) as (Hlen & _ & _).
    destruct (group_has_value row_of b Hcon Hcomplete (con_row_once b Hcon) r v Hlen Hv)
      as (i & c & Hi & Hc & Hg & Hval).
    unfold row_of in Hg. subst i. exists c. split; [now split |].
    intros c' Hc' Hval'.
    destruct (con_row_once b Hcon r c' r c v) as [_ E]; try assumption; try reflexivity.
    + rewrite <- Hval'. now apply Hholds.
    + rewrite <- Hval. now apply Hholds.
  - intros c v Hc Hv. destruct (group_cells_length c Hc) as (_ & Hlen & _).
    destruct (group_has_value col_of b Hcon Hcomplete (con_col_once b Hcon) c v Hlen Hv)
      as (r & j & Hr & Hj & Hg & Hval).
    unfold col_of in Hg. subst j. exists r. split; [now split |].
    intros r' Hr' Hval'.
    destruct (con_col_once b Hcon r' c r c v) as [E _]; try assumption; try reflexivity.
    + rewrite <- Hval'. now apply Hholds.
    + rewrite <- Hval. now apply Hholds.
  - intros k v Hk Hv. destruct (group_cells_length k Hk) as (_ & _ & Hlen).
    destruct (group_has_value square b Hcon Hcomplete (con_square_once b Hcon) k v Hlen Hv)
      as (r & c & Hr & Hc & Hg & Hval).
    exists r, c. split; [tauto |].
    intros r' c' Hr' Hc' Hg' Hval'.
    apply (con_square_once b Hcon r' c' r c v); try assumption; try congruence.
    + rewrite <- Hval'. now apply Hholds.
    + rewrite <- Hval. now apply Hholds.
Qed.

(** ** The activations of a search *)



(** ** [read_board] against the description of its input format *)

Lemma read_char_ignored (a : ascii) (b : board) (row col : Z) :
  is_cell_char a = false -> read_char (char_code a) b row col = (true, b, row, col).
Proof.
  destruct a as [[] [] [] [] [] [] [] []]; intros Hc; try discriminate Hc; reflexivity.
Qed.

Lemma read_char_cell (a : ascii) (b : board) (row col : Z) :
  is_cell_char a = true ->
  read_char (char_code a) b row col = advance (place_char b (row, col) a) row col.
Proof.
  intros Hc.
  assert (E : forall b' : board,
             (let '(more, row', col') := next_cell row col in
              if more =? 0 then (false, b', row', col') else (true, b', row', col'))
             = advance b' row col).
  { intros b'. unfold advance.
    destruct (next_cell row col) as [[more row'] col']. now destruct (more =? 0). }
  destruct a as [[] [] [] [] [] [] [] []]; try discriminate Hc;
    unfold read_char, place_char; cbn -[next_cell set_cell advance]; apply E.
Qed.

Lemma read_char_eof (b : board) (row col : Z) : read_char EOF b row col = (true, b, row, col).
Proof. reflexivity. Qed.

Lemma all_cells_lookup (r c : Z) :
  in_range r -> in_range c -> all_cells !! Z.to_nat (cell_index r c) = Some (r, c).
Proof.
  unfold in_range, MIN_NUM, MAX_NUM. intros Hr Hc.
  assert (Hrs : r = 1 \/ r = 2 \/ r = 3 \/ r = 4 \/ r = 5 \/
                r = 6 \/ r = 7 \/ r = 8 \/ r = 9) by lia.
  assert (Hcs : c = 1 \/ c = 2 \/ c = 3 \/ c = 4 \/ c = 5 \/
                c = 6 \/ c = 7 \/ c = 8 \/ c = 9) by lia.
  repeat destruct Hrs as [-> | Hrs]; try subst r;
    repeat destruct Hcs as [-> | Hcs]; try subst c; reflexivity.
Qed.

Lemma cells_from_first : cells_from MIN_NUM MIN_NUM = all_cells.
Proof. reflexivity. Qed.

Lemma cells_from_last : cells_from MAX_NUM MAX_NUM = [(MAX_NUM, MAX_NUM)].
Proof. reflexivity. Qed.

Lemma cells_from_cons (r c r' c' : Z) :
  in_range r -> in_range c -> cell_index r' c' = cell_index r c + 1 ->
  cells_from r c = (r, c) :: cells_from r' c'.
Proof.
  intros Hr Hc Hnext. unfold cells_from. rewrite Hnext.
  pose proof (cell_index_bounds r c Hr Hc).
  rewrite Z2Nat.inj_add by lia. change (Z.to_nat 1) with 1%nat. rewrite Nat.add_1_r.
  apply drop_S. now apply all_cells_lookup.
Qed.

Lemma read_loop_described (input : list ascii) :
  forall b row col,
    in_range row -> in_range col ->
    read_loop input b row col =
    fold_left (fun b pa => place_char b (fst pa) (snd pa))
              (combine (cells_from row col) (List.filter is_cell_char input)) b.
Proof.
  induction input as [| a rest IH]; intros b row col Hr Hc.
  - cbn [read_loop]. rewrite read_char_eof. cbn. now rewrite combine_nil.
  - cbn [read_loop List.filter]. destruct (is_cell_char a) eqn:Hcell.
    + rewrite read_char_cell by exact Hcell.
      destruct (decide (cell_index row col = 80)) as [Hlast | Hnot].
      * destruct (cell_index_last row col Hr Hc Hlast) as [-> ->].
        unfold advance.
        rewrite next_cell_last, cells_from_last. cbn [Z.eqb negb combine fold_left fst snd].
        now destruct (List.filter is_cell_char rest).
      * pose proof (cell_index_bounds row col Hr Hc).
        unfold advance.
        destruct (next_cell_more row col Hr Hc) as (r' & c' & -> & Hr' & Hc' & Hidx);
          [lia |].
        cbn [Z.eqb negb]. rewrite (cells_from_cons row col r' c') by assumption.
        cbn [combine fold_left fst snd]. now apply IH.
    + rewrite read_char_ignored by exact Hcell. now apply IH.
Qed.

Lemma read_board_as_described (f : string) (b : board) :
  read_board f b = read_board_described f b.
Proof.
  unfold read_board, read_board_described. rewrite <- cells_from_first.
  apply read_loop_described; unfold in_range, MIN_NUM, MAX_NUM; lia.
Qed.

(** ** Checking the givens of a puzzle *)

Lemma in_range_b_spec (n : Z) : in_range_b n = true <-> in_range n.
Proof. unfold in_range_b, in_range. rewrite andb_true_iff, !Z.leb_le. tauto. Qed.

Lemma in_range_intro (n : Z) : in_range_b n = true -> in_range n.
Proof. apply in_range_b_spec. Qed.

Lemma set_cell_ok_spec (b : board) (r c val : Z) :
  set_cell_ok b r c val = true <->
  in_range r /\ in_range c /\ in_range val /\ is_set b r c = 0 /\ unmarked b r c val.
Proof.
  unfold set_cell_ok, unmarked.
  rewrite !andb_true_iff, !in_range_b_spec, !Z.eqb_eq. tauto.
Qed.

Lemma givens_ok_loaded (gs : list (Z * Z * ascii)) :
  forall b, loaded b -> givens_ok gs b = true ->
            loaded (fold_left (fun b pa => place_char b (fst pa) (snd pa)) gs b).
Proof.
  induction gs as [| [p a] gs IH]; intros b Hb Hok; [exact Hb |].
  cbn [givens_ok fold_left fst snd] in *. unfold place_char at 2.
  destruct (Ascii.eqb a "."); [now apply IH |].
  apply andb_true_iff in Hok. destruct Hok as [Hset Hrest].
  apply set_cell_ok_spec in Hset. destruct Hset as (Hr & Hc & Hv & Hunset & Hfree).
  apply IH; [| exact Hrest]. now apply load_set.
Qed.

(** A text whose givens respect the assertions of [set_cell] is read
    into a loaded board. *)
Lemma read_board_loaded (f : string) (b : board) :
  loaded b ->
  givens_ok (combine all_cells (List.filter is_cell_char (list_ascii_of_string f))) b = true ->
  loaded (read_board f b).
Proof.
  intros Hb Hok. rewrite read_board_as_described. now apply givens_ok_loaded.
Qed.

(** ** The boards the program searches

    Whatever the text, [read_board] sets each cell at most once, with a
    value from 1 to 9: the board handed to [solve_board] is placed, hence
    counted and well formed, also when the givens contradict each other. *)

Lemma digit_value_in_range (a : ascii) :
  is_cell_char a = true -> Ascii.eqb a "." = false -> in_range (digit_value a).
Proof.
  destruct a as [[] [] [] [] [] [] [] []]; intros Hc Hd;
    try discriminate Hc; try discriminate Hd; apply in_range_intro; reflexivity.
Qed.

Lemma fold_place_placed (l : list (Z * Z)) :
  forall (chars : list ascii) (b : board),
    NoDup l ->
    (forall r c, In (r, c) l -> in_range r /\ in_range c /\ is_set b r c = 0) ->
    (forall a, In a chars -> is_cell_char a = true) ->
    placed b ->
    placed (fold_left (fun b pa => place_char b (fst pa) (snd pa)) (combine l chars) b).
Proof.
  induction l as [| [r c] l IH]; intros chars b Hnd Hcells Hchars Hb; [exact Hb |].
  destruct chars as [| a chars]; [exact Hb |].
  apply NoDup_cons in Hnd. destruct Hnd as [Hnotin Hnd].
  destruct (Hcells r c) as (Hr & Hc & Hunset); [now left |].
  cbn [combine fold_left fst snd].
  apply IH; try assumption.
  - intros i j Hin. destruct (Hcells i j) as (Hi & Hj & Hu); [now right |].
    split; [exact Hi |]. split; [exact Hj |].
    unfold place_char. destruct (Ascii.eqb a "."); [exact Hu |]. cbn [fst snd].
    unfold is_set. rewrite set_cell_cell_at;
      try assumption; try (apply in_range_bounds in Hi, Hj; lia).
    + destruct (decide (i = r /\ j = c)) as [[-> ->] | _]; [| exact Hu].
      exfalso. apply Hnotin. now apply list_elem_of_In.
    + apply (proj1 (placed_counted b Hb)).
  - intros a' Ha'. apply Hchars. now right.
  - unfold place_char. destruct (Ascii.eqb a ".") eqn:Hdot; [exact Hb |]. cbn [fst snd].
    apply place_set; try assumption.
    apply digit_value_in_range; [apply Hchars; now left | exact Hdot].
Qed.

Lemma read_board_placed (f : string) (b0 : board) :
  allocated b0 -> placed (read_board f (init_board b0)).
Proof.
  intros Ha. rewrite read_board_as_described. unfold read_board_described.
  apply fold_place_placed.
  - apply NoDup_all_cells.
  - intros r c Hin. apply In_all_cells in Hin. destruct Hin as [Hr Hc].
    split; [exact Hr |]. split; [exact Hc |].
    unfold is_set. now rewrite init_board_cell_at.
  - intros a Hin. apply filter_In in Hin. apply Hin.
  - now apply place_init.
Qed.

Lemma read_board_well_formed (f : string) (b0 : board) :
  allocated b0 -> well_formed (read_board f (init_board b0)).
Proof. intros Ha. apply (placed_counted _ (read_board_placed f b0 Ha)). Qed.

Lemma loaded_consistent (b : board) : loaded b -> consistent b.
Proof. intros Hb. now apply reachable_consistent, loaded_reachable. Qed.

(** ** Example boards *)

Lemma empty_board_loaded : loaded empty_board.
Proof. apply load_init, blank_board_allocated. Qed.

Lemma example_board_loaded : loaded example_board.
Proof. apply read_board_loaded; [exact empty_board_loaded | now vm_compute]. Qed.

Lemma stuck_board_loaded : loaded stuck_board.
Proof. apply read_board_loaded; [exact empty_board_loaded | now vm_compute]. Qed.

Lemma solution_board_loaded : loaded solution_board.
Proof. apply read_board_loaded; [exact empty_board_loaded | now vm_compute]. Qed.

(** ** Boards with the same grid

    The entries with index 0 are never written and never read: two boards
    that agree on the counter and on the entries 1 to 9 behave alike. *)

Lemma same_grid_refl (b : board) : same_grid b b.
Proof. repeat split. Qed.

Lemma find_common_free_from_ext (n : nat) (r1 c1 s1 r2 c2 s2 : candidates) (i : Z) :
  (forall v, i <= v < i + Z.of_nat n ->
     r1 !!! ix v = r2 !!! ix v /\ c1 !!! ix v = c2 !!! ix v /\ s1 !!! ix v = s2 !!! ix v) ->
  find_common_free_from n r1 c1 s1 i = find_common_free_from n r2 c2 s2 i.
Proof.
  revert i. induction n as [| n IH]; intros i Hsame; [reflexivity |].
  cbn [find_common_free_from].
  destruct (Hsame i) as (-> & -> & ->); [lia |].
  rewrite (IH (i + 1)); [reflexivity |]. intros v Hv. apply Hsame. lia.
Qed.

Section SameGrid.
Variables b1 b2 : board.
Hypothesis Hwf1 : well_formed b1.
Hypothesis Hwf2 : well_formed b2.
Hypothesis Hsame : same_grid b1 b2.

Lemma same_grid_is_set (r c : Z) :
  in_range r -> in_range c -> is_set b1 r c = is_set b2 r c.
Proof.
  intros Hr Hc. unfold is_set. destruct Hsame as (_ & Hcells & _). now rewrite Hcells.
Qed.

Lemma same_grid_find_unset (n : nat) :
  forall r c, in_range r -> in_range c -> find_unset n b1 r c = find_unset n b2 r c.
Proof.
  induction n as [| n IH]; intros r c Hr Hc; [reflexivity |].
  cbn [find_unset]. rewrite same_grid_is_set by assumption.
  destruct (is_set b2 r c =? 0); [reflexivity |].
  destruct (decide (cell_index r c = 80)) as [Hlast | Hnot].
  - destruct (cell_index_last r c Hr Hc Hlast) as [-> ->]. reflexivity.
  - pose proof (cell_index_bounds r c Hr Hc).
    destruct (next_cell_more r c Hr Hc) as (r' & c' & -> & Hr' & Hc' & _); [lia |].
    cbn [Z.eqb]. now apply IH.
Qed.

Lemma same_grid_candidate (r c prev : Z) :
  in_range r -> in_range c -> MIN_NUM <= prev ->
  candidate b1 r c prev = candidate b2 r c prev.
Proof.
  intros Hr Hc Hprev. unfold candidate, find_common_free.
  destruct (wf_linked b1 Hwf1 r c Hr Hc) as (-> & -> & ->).
  destruct (wf_linked b2 Hwf2 r c Hr Hc) as (-> & -> & ->).
  apply find_common_free_from_ext. intros v Hv.
  assert (Hvr : in_range v) by (unfold in_range, MIN_NUM, MAX_NUM in *; lia).
  destruct Hsame as (_ & _ & Hmarks).
  destruct (Hmarks r v Hr Hvr) as (Hrow & _ & _).
  destruct (Hmarks c v Hc Hvr) as (_ & Hcol & _).
  destruct (Hmarks (square r c) v (square_in_range r c Hr Hc) Hvr) as (_ & _ & Hsq).
  split; [exact Hrow |]. split; [exact Hcol | exact Hsq].
Qed.

Lemma same_grid_set_cell (r c val : Z) :
  in_range r -> in_range c -> in_range val ->
  same_grid (set_cell b1 r c val) (set_cell b2 r c val).
Proof.
  intros Hr Hc Hval. destruct Hsame as (Hcount & Hcells & Hmarks).
  pose proof (in_range_bounds val Hval) as Hval'.
  split; [| split].
  - rewrite !set_cell_unset_cells by assumption. now rewrite Hcount.
  - intros i j Hi Hj.
    rewrite !set_cell_cell_at by (try assumption; apply in_range_bounds in Hi, Hj; lia).
    destruct (decide (i = r /\ j = c)); [reflexivity | now apply Hcells].
  - intros k v Hk Hv. destruct (Hmarks k v Hk Hv) as (Hrow & Hcol & Hsq).
    rewrite !set_cell_row_mark, !set_cell_col_mark, !set_cell_square_mark
      by (try assumption; apply in_range_bounds in Hk, Hv; lia).
    now rewrite Hrow, Hcol, Hsq.
Qed.
End SameGrid.

Section TryCandidatesSame.
Variables solve1 solve2 : board -> Z -> Z -> option (Z * board).
Hypothesis solve1_post :
  forall b r c ret b',
    well_formed b -> in_range r -> in_range c ->
    solve1 b r c = Some (ret, b') -> search_post b ret b'.
Hypothesis solve2_post :
  forall b r c ret b',
    well_formed b -> in_range r -> in_range c ->
    solve2 b r c = Some (ret, b') -> search_post b ret b'.
Hypothesis solve_same :
  forall b1 b2 r c ret b1',
    well_formed b1 -> well_formed b2 -> same_grid b1 b2 ->
    in_range r -> in_range c ->
    solve1 b1 r c = Some (ret, b1') ->
    exists b2', solve2 b2 r c = Some (ret, b2') /\ same_grid b1' b2'.

Lemma try_candidates_same (n : nat) :
  forall b1 b2 r c prev ret b1',
    well_formed b1 -> well_formed b2 -> same_grid b1 b2 ->
    in_range r -> in_range c -> is_set b1 r c = 0 -> MIN_NUM <= prev ->
    try_candidates solve1 n b1 r c prev = Some (ret, b1') ->
    exists b2', try_candidates solve2 n b2 r c prev = Some (ret, b2') /\ same_grid b1' b2'.
Proof.
  induction n as [| n IH];
    intros b1 b2 r c prev ret b1' Hwf1 Hwf2 Hsame Hr Hc Hunset Hprev Hrun; [discriminate |].
  assert (Hunset2 : is_set b2 r c = 0).
  { now rewrite <- (same_grid_is_set b1 b2 Hsame r c Hr Hc). }
  cbn [try_candidates] in *.
  fold (candidate b1 r c prev) in Hrun. fold (candidate b2 r c prev).
  rewrite <- (same_grid_candidate b1 b2 Hwf1 Hwf2 Hsame r c prev Hr Hc Hprev).
  destruct (candidate_spec b1 r c prev) as [[Hnone _] | (Hin & Hfree & _)];
    [unfold MIN_NUM in Hprev; lia | |].
  - rewrite Hnone in *. cbn in *. injection Hrun as <- <-. now exists b2.
  - pose proof (candidate_spec b2 r c prev) as Hspec2.
    rewrite <- (same_grid_candidate b1 b2 Hwf1 Hwf2 Hsame r c prev Hr Hc Hprev) in Hspec2.
    set (val := candidate b1 r c prev) in *.
    assert (Hval : in_range val) by (unfold in_range; lia).
    destruct Hspec2 as [[Hnone2 _] | (_ & Hfree2 & _)];
      [unfold MIN_NUM in Hprev; lia | unfold MIN_NUM in *; lia |].
    destruct (val =? -1) eqn:Hm1; [apply Z.eqb_eq in Hm1; unfold MIN_NUM in *; lia |].
    destruct (solve1 (set_cell b1 r c val) r c) as [[ret1 b1s] |] eqn:Hs1; [| discriminate].
    assert (Hsame' : same_grid (set_cell b1 r c val) (set_cell b2 r c val))
      by (apply same_grid_set_cell; assumption).
    destruct (solve_same (set_cell b1 r c val) (set_cell b2 r c val) r c ret1 b1s)
      as (b2s & Hs2 & Hsames); auto using set_cell_well_formed.
    rewrite Hs2.
    apply solve1_post in Hs1; auto using set_cell_well_formed.
    apply solve2_post in Hs2; auto using set_cell_well_formed.
    destruct Hs1 as (_ & _ & Hfail1 & _), Hs2 as (_ & _ & Hfail2 & _).
    destruct (ret1 =? 0) eqn:Hz.
    + apply Z.eqb_eq in Hz. rewrite (Hfail1 Hz) in Hrun. rewrite (Hfail2 Hz).
      rewrite unset_set_cell in Hrun by assumption.
      rewrite unset_set_cell by assumption.
      apply (IH b1 b2 r c (val + 1)); auto. lia.
    + injection Hrun as <- <-. now exists b2s.
Qed.
End TryCandidatesSame.

Lemma solve_board_same (fuel : nat) :
  forall b1 b2 r c ret b1',
    well_formed b1 -> well_formed b2 -> same_grid b1 b2 ->
    in_range r -> in_range c ->
    solve_board fuel b1 r c = Some (ret, b1') ->
    exists b2', solve_board fuel b2 r c = Some (ret, b2') /\ same_grid b1' b2'.
Proof.
  induction fuel as [| fuel IH];
    intros b1 b2 r c ret b1' Hwf1 Hwf2 Hsame Hr Hc Hrun; [discriminate |].
  cbn [solve_board] in *.
  rewrite <- (proj1 Hsame).
  destruct (unset_cells b1 =? 0).
  { injection Hrun as <- <-. now exists b2. }
  rewrite <- (same_grid_find_unset b1 b2 Hsame scan_budget r c Hr Hc).
  destruct (find_unset_spec scan_budget b1 r c Hr Hc)
    as (r' & c' & Hfind & Hr' & Hc' & _).
  { pose proof (cell_index_bounds r c Hr Hc). unfold scan_budget, TOTAL_NUMS. lia. }
  rewrite Hfind in *.
  rewrite <- (same_grid_is_set b1 b2 Hsame r' c' Hr' Hc').
  destruct (is_set b1 r' c' =? 0) eqn:Hset.
  - apply Z.eqb_eq in Hset.
    apply (try_candidates_same (solve_board fuel) (solve_board fuel)
             (solve_board_post fuel) (solve_board_post fuel) IH
             try_budget b1 b2 r' c' MIN_NUM); auto. lia.
  - injection Hrun as <- <-. now exists b2.
Qed.

Lemma row_values_same (b1 b2 : board) (r : Z) :
  same_grid b1 b2 -> in_range r -> row_values b1 r = row_values b2 r.
Proof.
  intros (_ & Hcells & _) Hr. unfold row_values. apply map_ext_in.
  intros c Hc. apply In_for_range in Hc. now rewrite Hcells.
Qed.

Lemma init_board_same_grid (b0 b0' : board) :
  allocated b0 -> allocated b0' -> same_grid (init_board b0) (init_board b0').
Proof.
  intros Ha Ha'. split; [| split].
  - now rewrite !init_board_unset_cells.
  - intros r c Hr Hc. now rewrite !init_board_cell_at.
  - intros k v Hk Hv.
    destruct (init_board_zeroed b0 Ha k Hk v Hv) as (-> & -> & ->).
    destruct (init_board_zeroed b0' Ha' k Hk v Hv) as (-> & -> & ->).
    repeat split.
Qed.

(** ** The invariant without uniqueness

    On a board with contradictory givens (placed, not loaded) the marks
    and the counter still agree with the cells, since [set_cell] marks
    what it stores. [unset_cell] is another matter: it clears the mark of
    the value it removes, also when a second cell of the row holds the
    same value. The search never gets there, as it removes only what it
    placed on a free value. *)

Lemma placed_board_invariant (b : board) : placed b -> board_invariant b.
Proof.
  intros Hb.
  enough (Hmarks : marks_agree row_of row_mark b /\ marks_agree col_of col_mark b /\
                   marks_agree square square_mark b).
  { destruct Hmarks as (Hrows & Hcols & Hsqs). split; [| split; [| split]].
    - intros r v Hr Hv. rewrite (Hrows r v Hr Hv). unfold row_of. split.
      + intros (i & j & Hi & Hj & -> & Hh). now exists j.
      + intros (j & Hj & Hh). now exists r, j.
    - intros c v Hc Hv. rewrite (Hcols c v Hc Hv). unfold col_of. split.
      + intros (i & j & Hi & Hj & -> & Hh). now exists i.
      + intros (i & Hi & Hh). now exists i, c.
    - exact Hsqs.
    - apply (placed_counted b Hb). }
  induction Hb as [b0 Ha | b r c val Hb IH Hr Hc Hv Hunset].
  - pose proof (init_board_consistent b0 Ha) as Hcon.
    split; [apply (con_rows _ Hcon) |]. split; [apply (con_cols _ Hcon) |].
    apply (con_squares _ Hcon).
  - destruct IH as (Hrows & Hcols & Hsqs).
    pose proof (proj1 (placed_counted b Hb)) as Hwf.
    pose proof (in_range_bounds val Hv) as Hv'.
    split; [| split].
    + apply set_cell_marks_agree; try assumption.
      intros k v Hk Hv''. now apply set_cell_row_mark.
    + apply set_cell_marks_agree; try assumption.
      intros k v Hk Hv''. now apply set_cell_col_mark.
    + apply set_cell_marks_agree; try assumption.
      intros k v Hk Hv''. now apply set_cell_square_mark.
Qed.

(** ** One pass of [read_board] *)

Lemma is_cell_char_split (a : ascii) :
  is_cell_char a = is_value_char a || Ascii.eqb a ".".
Proof. destruct a as [[] [] [] [] [] [] [] []]; reflexivity. Qed.

Lemma is_value_char_not_dot (a : ascii) :
  is_value_char a = true -> Ascii.eqb a "." = false.
Proof.
  destruct a as [[] [] [] [] [] [] [] []]; intros Hv; try discriminate Hv; reflexivity.
Qed.

Lemma next_cell_moved (r c : Z) :
  in_range r -> in_range c ->
  next_cell r c = let '(more, r', c') := moved r c in (if more then 1 else 0, r', c').
Proof.
  intros Hr Hc.
  apply elem_of_for_range, list_elem_of_In in Hr, Hc. vm_compute in Hr, Hc.
  repeat destruct Hr as [<- | Hr]; try destruct Hr;
    repeat destruct Hc as [<- | Hc]; try destruct Hc; reflexivity.
Qed.

Lemma advance_moved (b : board) (row col : Z) :
  in_range row -> in_range col ->
  advance b row col = let '(more, r', c') := moved row col in (more, b, r', c').
Proof.
  intros Hr Hc. unfold advance. rewrite next_cell_moved by assumption.
  destruct (moved row col) as [[[] r'] c']; reflexivity.
Qed.

Lemma read_char_described (a : ascii) (b : board) (row col : Z) :
  well_formed b -> in_range row -> in_range col ->
  pass_described a b row col (read_char (char_code a) b row col).
Proof.
  intros Hwf Hr Hc. unfold pass_described.
  destruct (is_value_char a) eqn:Hval.
  - pose proof (is_value_char_not_dot a Hval) as Hdot.
    assert (Hcell : is_cell_char a = true) by (rewrite is_cell_char_split, Hval; reflexivity).
    pose proof (digit_value_in_range a Hcell Hdot) as Hv.
    assert (Hsq : in_range (square row col)) by now apply square_in_range.
    pose proof (in_range_bounds _ Hr) as Hr'. pose proof (in_range_bounds _ Hc) as Hc'.
    pose proof (in_range_bounds _ Hv) as Hv'. pose proof (in_range_bounds _ Hsq) as Hsq'.
    rewrite (read_char_cell a b row col Hcell), advance_moved by assumption.
    unfold place_char. rewrite Hdot. cbn [fst snd].
    destruct (moved row col) as [[more row'] col']. cbv beta iota.
    split.
    { rewrite set_cell_cell_at by (try assumption; lia).
      destruct (decide (row = row /\ col = col)) as [_ | Hn]; [reflexivity | now destruct Hn]. }
    split.
    { intros i j Hi Hj Hne. apply in_range_bounds in Hi, Hj.
      rewrite set_cell_cell_at by (try assumption; lia).
      destruct (decide (i = row /\ j = col)) as [[-> ->] | _]; [| reflexivity].
      now destruct Hne. }
    split; [now apply set_cell_unset_cells |].
    split.
    { rewrite set_cell_row_mark by (try assumption; lia).
      destruct (decide (row = row /\ digit_value a = digit_value a)) as [_ | Hn];
        [reflexivity | now destruct Hn]. }
    split.
    { rewrite set_cell_col_mark by (try assumption; lia).
      destruct (decide (col = col /\ digit_value a = digit_value a)) as [_ | Hn];
        [reflexivity | now destruct Hn]. }
    split; [| reflexivity].
    rewrite set_cell_square_mark by (try assumption; lia).
    destruct (decide (square row col = square row col /\ digit_value a = digit_value a))
      as [_ | Hn]; [reflexivity | now destruct Hn].
  - destruct (Ascii.eqb a ".") eqn:Hdot.
    + assert (Hcell : is_cell_char a = true)
        by (rewrite is_cell_char_split, Hval, Hdot; reflexivity).
      rewrite (read_char_cell a b row col Hcell), advance_moved by assumption.
      unfold place_char. rewrite Hdot.
      destruct (moved row col) as [[more row'] col']. cbv beta iota. now split.
    + rewrite read_char_ignored by (rewrite is_cell_char_split, Hval, Hdot; reflexivity).
      now split.
Qed.

Lemma read_loop_last_cell (a : ascii) (rest : list ascii) (b : board) :
  is_cell_char a = true ->
  read_loop (a :: rest) b MAX_NUM MAX_NUM = place_char b (MAX_NUM, MAX_NUM) a.
Proof.
  intros Hcell. cbn [read_loop]. rewrite (read_char_cell a b _ _ Hcell).
  unfold advance. rewrite next_cell_last. reflexivity.
Qed.

Lemma list_ascii_of_string_app (s1 s2 : string) :
  list_ascii_of_string (String.append s1 s2)
  = list_ascii_of_string s1 ++ list_ascii_of_string s2.
Proof.
  induction s1 as [| a s1 IH]; [reflexivity |].
  change (a :: list_ascii_of_string (String.append s1 s2)
          = a :: (list_ascii_of_string s1 ++ list_ascii_of_string s2)).
  now rewrite IH.
Qed.

Lemma read_board_drops_zero (f1 f2 : string) (b : board) :
  read_board (String.append f1 (String "0" f2)) b = read_board (String.append f1 f2) b.
Proof.
  rewrite !read_board_as_described. unfold read_board_described.
  rewrite !list_ascii_of_string_app, !List.filter_app. reflexivity.
Qed.

(** ** The steps of the board invariant *)

Lemma board_invariant_marks (b : board) :
  board_invariant b <->
  marks_agree row_of row_mark b /\ marks_agree col_of col_mark b /\
  marks_agree square square_mark b /\ unset_cells b = count_unset b.
Proof.
  split.
  - intros (Hrows & Hcols & Hsqs & Hcount).
    split; [| split; [| split]]; [| | exact Hsqs | exact Hcount].
    + intros r v Hr Hv. rewrite (Hrows r v Hr Hv). unfold row_of. split.
      * intros (j & Hj & Hh). now exists r, j.
      * intros (i & j & Hi & Hj & -> & Hh). now exists j.
    + intros c v Hc Hv. rewrite (Hcols c v Hc Hv). unfold col_of. split.
      * intros (i & Hi & Hh). now exists i, c.
      * intros (i & j & Hi & Hj & -> & Hh). now exists i.
  - intros (Hrows & Hcols & Hsqs & Hcount).
    split; [| split; [| split]]; [| | exact Hsqs | exact Hcount].
    + intros r v Hr Hv. rewrite (Hrows r v Hr Hv). unfold row_of. split.
      * intros (i & j & Hi & Hj & -> & Hh). now exists j.
      * intros (j & Hj & Hh). now exists r, j.
    + intros c v Hc Hv. rewrite (Hcols c v Hc Hv). unfold col_of. split.
      * intros (i & j & Hi & Hj & -> & Hh). now exists i.
      * intros (i & Hi & Hh). now exists i, c.
Qed.

Lemma set_cell_board_invariant (b : board) (r c val : Z) :
  well_formed b -> board_invariant b ->
  in_range r -> in_range c -> in_range val -> is_set b r c = 0 ->
  board_invariant (set_cell b r c val).
Proof.
  intros Hwf Hinv Hr Hc Hv Hunset.
  apply board_invariant_marks in Hinv. destruct Hinv as (Hrows & Hcols & Hsqs & Hcount).
  pose proof (in_range_bounds val Hv) as Hv'.
  apply board_invariant_marks. split; [| split; [| split]].
  - apply set_cell_marks_agree; try assumption.
    intros k v Hk Hv''. now apply set_cell_row_mark.
  - apply set_cell_marks_agree; try assumption.
    intros k v Hk Hv''. now apply set_cell_col_mark.
  - apply set_cell_marks_agree; try assumption.
    intros k v Hk Hv''. now apply set_cell_square_mark.
  - rewrite set_cell_unset_cells, count_unset_set_cell by assumption. now rewrite Hcount.
Qed.

Lemma unset_cell_board_invariant (b : board) (r c val : Z) :
  well_formed b -> board_invariant b -> no_repeats b ->
  in_range r -> in_range c -> in_range val -> holds b r c val ->
  board_invariant (unset_cell b r c val).
Proof.
  intros Hwf Hinv (Hrow1 & Hcol1 & Hsq1) Hr Hc Hv Hholds.
  apply board_invariant_marks in Hinv. destruct Hinv as (Hrows & Hcols & Hsqs & Hcount).
  pose proof (in_range_bounds val Hv) as Hv'.
  apply board_invariant_marks. split; [| split; [| split]].
  - apply unset_cell_marks_agree; try assumption.
    intros k v Hk Hv''. now apply unset_cell_row_mark.
  - apply unset_cell_marks_agree; try assumption.
    intros k v Hk Hv''. now apply unset_cell_col_mark.
  - apply unset_cell_marks_agree; try assumption.
    intros k v Hk Hv''. now apply unset_cell_square_mark.
  - rewrite unset_cell_unset_cells, count_unset_unset_cell; try assumption.
    + now rewrite Hcount.
    + apply Hholds.
Qed.

Lemma reachable_no_repeats (b : board) : reachable b -> no_repeats b.
Proof.
  intros Hb. pose proof (reachable_consistent b Hb) as Hcon.
  split; [apply (con_row_once b Hcon) |].
  split; [apply (con_col_once b Hcon) | apply (con_square_once b Hcon)].
Qed.

Lemma backtrack_board_well_formed : well_formed backtrack_board.
Proof. apply read_board_well_formed, blank_board_allocated. Qed.

(** * The claims *)

(** ** C1 *)

(** C1. For every board loaded with givens that respect the assertions
    of [set_cell], if [solve_board] called at position (1,1) returns
    success, then in the board it leaves every cell has a value and
    every row, every column and every 3x3 square contains each of the
    values 1 to 9 exactly once. *)
Theorem solve_board_success_solved (fuel : nat) (b : board) (ret : Z) (b' : board) :
  loaded b ->
  solve_board fuel b MIN_NUM MIN_NUM = Some (ret, b') ->
  ret <> 0 ->
  solved b'.
Proof.
  intros Hb Hrun Hret.
  apply solve_board_good in Hrun.
  - destruct Hrun as [Hcon Hdone].
    apply consistent_complete_solved; [exact Hcon |].
    apply (consistent_complete b' Hcon). now apply Hdone.
  - now apply loaded_consistent.
  - unfold in_range, MIN_NUM, MAX_NUM. lia.
  - unfold in_range, MIN_NUM, MAX_NUM. lia.
  - apply prefix_set_first.
Qed.

Lemma solve_board_success_solved_witness :
  solve_board 82 example_board MIN_NUM MIN_NUM = Some (1, solution_board) /\
  solved solution_board.
Proof.
  split; [vm_compute; reflexivity |].
  apply (solve_board_success_solved 82 example_board 1 solution_board).
  - exact example_board_loaded.
  - vm_compute. reflexivity.
  - lia.
Defined.

(** ** C2 *)

(** C2. For every board state and position, if [solve_board] returns
    failure then the board is the one the search started from: the
    counter of cells without value is the same, every cell that had no
    value has none again, and every mark of the three candidate arrays
    is the same. Every trial assignment is undone. *)
Theorem solve_board_failure_restores (fuel : nat) (b : board) (r c : Z) (b' : board) :
  well_formed b -> in_range r -> in_range c ->
  solve_board fuel b r c = Some (0, b') ->
  unset_cells b' = unset_cells b /\
  (forall i j, in_range i -> in_range j -> is_set b i j = 0 -> is_set b' i j = 0) /\
  rows b' = rows b /\ columns b' = columns b /\ squares b' = squares b /\
  b' = b.
Proof.
  intros Hwf Hr Hc Hrun.
  apply solve_board_post in Hrun; try assumption.
  destruct Hrun as (_ & _ & Hfail & _). rewrite Hfail by reflexivity.
  repeat split; auto.
Qed.

Lemma solve_board_failure_restores_witness :
  find_unset scan_budget backtrack_board MIN_NUM MIN_NUM = Some (1, 8) /\
  candidate backtrack_board 1 8 MIN_NUM = 8 /\
  solve_board 81 (set_cell backtrack_board 1 8 8) 1 8
    = Some (0, set_cell backtrack_board 1 8 8) /\
  candidate backtrack_board 1 8 9 = 9 /\
  solve_board 81 (set_cell backtrack_board 1 8 9) 1 8
    = Some (0, set_cell backtrack_board 1 8 9) /\
  candidate backtrack_board 1 8 10 = -1 /\
  solve_board 82 backtrack_board MIN_NUM MIN_NUM = Some (0, backtrack_board) /\
  unset_cells (board_after 82 backtrack_board MIN_NUM MIN_NUM) = unset_cells backtrack_board /\
  rows (board_after 82 backtrack_board MIN_NUM MIN_NUM) = rows backtrack_board /\
  board_after 82 backtrack_board MIN_NUM MIN_NUM = backtrack_board.
Proof.
  split; [vm_compute; reflexivity |]. split; [vm_compute; reflexivity |].
  split; [vm_compute; reflexivity |]. split; [vm_compute; reflexivity |].
  split; [vm_compute; reflexivity |]. split; [vm_compute; reflexivity |].
  split; [vm_compute; reflexivity |].
  destruct (solve_board_failure_restores 82 backtrack_board MIN_NUM MIN_NUM
              (board_after 82 backtrack_board MIN_NUM MIN_NUM))
    as (Hcount & _ & Hrows & _ & _ & Hsame).
  - exact backtrack_board_well_formed.
  - unfold in_range, MIN_NUM, MAX_NUM. lia.
  - unfold in_range, MIN_NUM, MAX_NUM. lia.
  - vm_compute. reflexivity.
  - split; [exact Hcount |]. split; [exact Hrows | exact Hsame].
Defined.

(** ** C3 *)

(** C3. For every three candidate arrays and every floor that is a
    valid index, [find_common_free] returns the smallest value between
    the floor and 9 that is unmarked in all three arrays, and -1 when
    there is no such value; so it never returns a value marked in one of
    the three. *)
Theorem find_common_free_least (r c s : candidates) (floor : Z) :
  0 <= floor ->
  (find_common_free r c s floor = -1 <->
   forall w, floor <= w <= MAX_NUM -> ~ free3 r c s w) /\
  (find_common_free r c s floor <> -1 ->
   floor <= find_common_free r c s floor <= MAX_NUM /\
   free3 r c s (find_common_free r c s floor) /\
   forall w, floor <= w < find_common_free r c s floor -> ~ free3 r c s w).
Proof.
  intros Hfloor. unfold find_common_free.
  set (n := Z.to_nat (MAX_NUM + 1 - floor)).
  destruct (find_common_free_from_spec n r c s floor)
    as [[Hnone Hall] | (Hin & Hfree & Hleast)].
  - split; [| congruence]. split; [| exact (fun _ => Hnone)].
    intros _ w Hw. apply Hall. unfold n, MAX_NUM in *. lia.
  - assert (Hle : find_common_free_from n r c s floor <= MAX_NUM)
      by (unfold n, MAX_NUM in *; lia).
    split.
    + split; [lia |]. intros Hall. exfalso.
      apply (Hall (find_common_free_from n r c s floor)); [lia | exact Hfree].
    + intros _. split; [lia |]. split; [exact Hfree | exact Hleast].
Qed.

Lemma find_common_free_least_witness :
  find_common_free [0; 1; 0; 0; 0; 0; 0; 0; 0; 0] [0; 0; 1; 0; 0; 0; 0; 0; 0; 0]
                   [0; 0; 0; 1; 0; 1; 0; 0; 0; 0] 1 = 4 /\
  free3 [0; 1; 0; 0; 0; 0; 0; 0; 0; 0] [0; 0; 1; 0; 0; 0; 0; 0; 0; 0]
        [0; 0; 0; 1; 0; 1; 0; 0; 0; 0] 4.
Proof.
  split; [reflexivity |].
  assert (Hfloor : 0 <= 1) by lia.
  destruct (find_common_free_least [0; 1; 0; 0; 0; 0; 0; 0; 0; 0]
              [0; 0; 1; 0; 0; 0; 0; 0; 0; 0] [0; 0; 0; 1; 0; 1; 0; 0; 0; 0] 1 Hfloor)
    as [_ Hfound].
  apply Hfound. vm_compute. discriminate.
Defined.

(** ** C4 *)



(** ** C5 *)

(** C5. The board invariant (a value is marked for a row, a column or a
    square exactly when a cell of it holds the value, and the counter is
    the number of cells without value) holds of the board [init_board]
    leaves. On a well-formed board it is preserved by every [set_cell]
    on a cell without value with a value unmarked in its three arrays,
    and by every [unset_cell] on a cell with the value it holds when no
    row, column or square of the board holds a value twice. Every board
    reached from [init_board] by such calls is well formed, holds no
    value twice in a row, column or square, and satisfies the invariant. *)
Theorem reachable_board_invariant :
  (forall b0, allocated b0 -> board_invariant (init_board b0)) /\
  (forall b r c val,
     well_formed b -> board_invariant b ->
     in_range r -> in_range c -> in_range val ->
     is_set b r c = 0 -> unmarked b r c val ->
     board_invariant (set_cell b r c val)) /\
  (forall b r c val,
     well_formed b -> board_invariant b -> no_repeats b ->
     in_range r -> in_range c -> in_range val ->
     holds b r c val ->
     board_invariant (unset_cell b r c val)) /\
  (forall b, reachable b -> well_formed b /\ no_repeats b /\ board_invariant b).
Proof.
  split; [intros b0 Ha; now apply consistent_invariant, init_board_consistent |].
  split; [intros b r c val Hwf Hinv Hr Hc Hv Hunset _; now apply set_cell_board_invariant |].
  split; [intros b r c val; apply unset_cell_board_invariant |].
  intros b Hb. pose proof (reachable_consistent b Hb) as Hcon.
  split; [apply (con_wf b Hcon) |].
  split; [now apply reachable_no_repeats | now apply consistent_invariant].
Qed.

Lemma reachable_board_invariant_witness :
  board_invariant empty_board /\
  board_invariant (set_cell empty_board 1 1 5) /\
  board_invariant (unset_cell (set_cell (set_cell empty_board 1 1 5) 1 2 3) 1 1 5).
Proof.
  destruct reachable_board_invariant as (Hinit & Hset & _ & Hreach).
  assert (H1 : in_range 1) by (apply in_range_intro; reflexivity).
  assert (H2 : in_range 2) by (apply in_range_intro; reflexivity).
  assert (H3 : in_range 3) by (apply in_range_intro; reflexivity).
  assert (H5 : in_range 5) by (apply in_range_intro; reflexivity).
  pose proof (Hinit blank_board blank_board_allocated) as Hempty.
  split; [exact Hempty |]. split.
  - apply Hset; try assumption.
    + apply init_board_well_formed, blank_board_allocated.
    + vm_compute. reflexivity.
    + vm_compute. repeat split.
  - apply Hreach.
    apply reach_unset; [apply reach_set; [apply reach_set; [apply reach_init | ..] | ..] | ..];
      try assumption.
    + exact blank_board_allocated.
    + vm_compute. reflexivity.
    + vm_compute. repeat split.
    + vm_compute. reflexivity.
    + vm_compute. repeat split.
    + vm_compute. split; [discriminate | reflexivity].
Defined.

(** The step of [unset_cell] fails without the condition on repeated
    values. The board read from the text "5 5" has two fives in its
    first row; it is well formed and satisfies the invariant, and cell
    (1,1) holds 5. After [unset_cell] on that cell the 5 is no longer
    marked for row 1, while cell (1,2) still holds it. *)
Lemma clash_board_unset_cell :
  well_formed clash_board /\ board_invariant clash_board /\ holds clash_board 1 1 5 /\
  ~ board_invariant (unset_cell clash_board 1 1 5).
Proof.
  split; [apply read_board_well_formed, blank_board_allocated |].
  split; [apply placed_board_invariant, read_board_placed, blank_board_allocated |].
  split; [vm_compute; split; [discriminate | reflexivity] |].
  intros (Hrows & _).
  assert (Hone : in_range 1) by (apply in_range_intro; reflexivity).
  assert (Hfive : in_range 5) by (apply in_range_intro; reflexivity).
  destruct (Hrows 1 5 Hone Hfive) as [_ Hmark]. apply Hmark.
  - exists 2. split; [apply in_range_intro; reflexivity |].
    vm_compute. split; [discriminate | reflexivity].
  - vm_compute. reflexivity.
Qed.

(** ** C6 *)

(** C6. For every board state, if [solve_board] returns success then
    every cell that had a value before the search is the same cell
    after it: it still has a value, and the value is the original one. *)
Theorem solve_board_keeps_givens
    (fuel : nat) (b : board) (r c ret : Z) (b' : board) (i j : Z) :
  well_formed b -> in_range r -> in_range c ->
  solve_board fuel b r c = Some (ret, b') -> ret <> 0 ->
  in_range i -> in_range j -> is_set b i j <> 0 ->
  is_set b' i j <> 0 /\
  value (cell_at b' i j) = value (cell_at b i j) /\
  cell_at b' i j = cell_at b i j.
Proof.
  intros Hwf Hr Hc Hrun _ Hi Hj Hset.
  apply solve_board_post in Hrun; try assumption.
  destruct Hrun as (_ & _ & _ & Hframe).
  unfold is_set in *. rewrite (Hframe i j Hi Hj Hset). auto.
Qed.

Lemma solve_board_keeps_givens_witness :
  value (cell_at example_board 1 1) = 5 /\
  value (cell_at (board_after 82 example_board MIN_NUM MIN_NUM) 1 1) =
  value (cell_at example_board 1 1).
Proof.
  split; [vm_compute; reflexivity |].
  apply (solve_board_keeps_givens 82 example_board MIN_NUM MIN_NUM 1
           (board_after 82 example_board MIN_NUM MIN_NUM) 1 1).
  - apply con_wf, loaded_consistent, example_board_loaded.
  - apply in_range_intro. reflexivity.
  - apply in_range_intro. reflexivity.
  - vm_compute. reflexivity.
  - discriminate.
  - apply in_range_intro. reflexivity.
  - apply in_range_intro. reflexivity.
  - vm_compute. discriminate.
Defined.

(** ** C7 *)

(** C7. [unset_cell] is the inverse of [set_cell]: on every board state
    where cell (r, c) has no value and [val] is unmarked in the arrays
    of its row, its column and its square, [set_cell] followed by
    [unset_cell] with the same arguments gives back the same board, in
    every field. *)
Theorem unset_cell_inverts_set_cell (b : board) (r c val : Z) :
  well_formed b -> in_range r -> in_range c -> in_range val ->
  is_set b r c = 0 -> unmarked b r c val ->
  unset_cell (set_cell b r c val) r c val = b /\
  unset_cells (unset_cell (set_cell b r c val) r c val) = unset_cells b /\
  cells (unset_cell (set_cell b r c val) r c val) = cells b /\
  rows (unset_cell (set_cell b r c val) r c val) = rows b /\
  columns (unset_cell (set_cell b r c val) r c val) = columns b /\
  squares (unset_cell (set_cell b r c val) r c val) = squares b.
Proof.
  intros Hwf Hr Hc Hval Hunset Hfree.
  rewrite (unset_set_cell b r c Hwf Hr Hc val Hval Hunset Hfree). repeat split.
Qed.

Lemma unset_cell_inverts_set_cell_witness :
  unset_cell (set_cell example_board 1 3 4) 1 3 4 = example_board.
Proof.
  apply (unset_cell_inverts_set_cell example_board 1 3 4).
  - apply con_wf, loaded_consistent, example_board_loaded.
  - apply in_range_intro. reflexivity.
  - apply in_range_intro. reflexivity.
  - apply in_range_intro. reflexivity.
  - vm_compute. reflexivity.
  - vm_compute. repeat split.
Defined.

(** ** C8 *)

(** C8. [solve_board] returns on every board state and position. A
    recursive call is made on the board with one more cell set, which
    has one cell without value less, so 81 nested recursive calls are
    the most there can be: the fuel for 82 nested activations is enough.
    The scan and the candidate loop of each activation end within their
    budgets, the loop because its next floor, one above the candidate
    found, is greater than the floor. The result returned is 0 or 1. *)
Theorem solve_board_terminates (fuel : nat) (b : board) (r c : Z) :
  well_formed b -> in_range r -> in_range c -> (82 <= fuel)%nat ->
  (exists ret b', solve_board fuel b r c = Some (ret, b') /\ (ret = 0 \/ ret = 1)) /\
  (forall r' c' val, in_range r' -> in_range c' -> is_set b r' c' = 0 ->
     count_unset (set_cell b r' c' val) = count_unset b - 1) /\
  (forall r' c' prev, 0 <= prev -> candidate b r' c' prev <> -1 ->
     prev < candidate b r' c' prev + 1).
Proof.
  intros Hwf Hr Hc Hfuel. split; [| split].
  - destruct (solve_board_total fuel b r c Hwf Hr Hc) as (ret & b' & Hrun).
    { pose proof (count_unset_bounds b). lia. }
    exists ret, b'. split; [exact Hrun |].
    apply solve_board_post in Hrun; try assumption. apply Hrun.
  - intros r' c' val Hr' Hc' Hunset. now apply count_unset_set_cell.
  - intros r' c' prev Hprev Hfound.
    destruct (candidate_spec b r' c' prev Hprev) as [[Hnone _] | (Hin & _)];
      [contradiction | lia].
Qed.

Lemma solve_board_terminates_witness :
  exists ret b', solve_board 82 stuck_board 5 5 = Some (ret, b') /\ (ret = 0 \/ ret = 1).
Proof.
  apply (solve_board_terminates 82 stuck_board 5 5).
  - apply con_wf, loaded_consistent, stuck_board_loaded.
  - apply in_range_intro. reflexivity.
  - apply in_range_intro. reflexivity.
  - lia.
Defined.

(** ** C9 *)

(** C9. On the empty board (the board [init_board] leaves, whatever the
    memory held before: no givens, 81 cells without value) [solve_board]
    called at (1,1) returns success, and the first row of the grid it
    leaves is 1 2 3 4 5 6 7 8 9. *)
Theorem empty_board_first_row (b0 : board) (fuel : nat) :
  allocated b0 -> (82 <= fuel)%nat ->
  unset_cells (init_board b0) = 81 /\
  (forall r c, in_range r -> in_range c -> is_set (init_board b0) r c = 0) /\
  exists b', solve_board fuel (init_board b0) MIN_NUM MIN_NUM = Some (1, b') /\
             row_values b' 1 = [1; 2; 3; 4; 5; 6; 7; 8; 9].
Proof.
  intros Ha Hfuel. split; [now rewrite init_board_unset_cells |]. split.
  - intros r c Hr Hc. unfold is_set. now rewrite init_board_cell_at.
  - assert (Hrun : solve_board 82 empty_board MIN_NUM MIN_NUM =
                   Some (1, board_after 82 empty_board MIN_NUM MIN_NUM))
      by (vm_compute; reflexivity).
    apply (solve_board_same 82 empty_board (init_board b0)) in Hrun.
    + destruct Hrun as (b' & Hrun & Hsame). exists b'. split.
      * now apply (solve_board_mono 82 fuel Hfuel).
      * rewrite <- (row_values_same _ _ 1 Hsame); [now vm_compute |].
        apply in_range_intro. reflexivity.
    + apply init_board_well_formed, blank_board_allocated.
    + now apply init_board_well_formed.
    + apply init_board_same_grid; [apply blank_board_allocated | exact Ha].
    + apply in_range_intro. reflexivity.
    + apply in_range_intro. reflexivity.
Qed.

Lemma empty_board_first_row_witness :
  exists b', solve_board 82 empty_board MIN_NUM MIN_NUM = Some (1, b') /\
             row_values b' 1 = [1; 2; 3; 4; 5; 6; 7; 8; 9].
Proof.
  assert (Hfuel : (82 <= 82)%nat) by lia.
  exact (proj2 (proj2 (empty_board_first_row blank_board 82 blank_board_allocated Hfuel))).
Defined.

(** ** C10 *)

(** C10. [read_board] treats the character 0 like any character it
    ignores: the pass of the loop that reads it leaves the board and the
    position as they are, so a 0 anywhere in the text can be left out.
    Only 1 to 9 set the current cell (flag, value, marks, counter) and
    move on, only the dot moves on without touching the board, and a
    cell character read at row 9, column 9 ends the reading whatever
    follows: the board read is the one of the description of the
    format. *)
Theorem read_board_skips_zero (a : ascii) (rest : list ascii) (f f1 f2 : string)
    (b : board) (row col : Z) :
  well_formed b -> in_range row -> in_range col ->
  read_char (char_code "0") b row col = (true, b, row, col) /\
  is_value_char "0" = false /\
  pass_described a b row col (read_char (char_code a) b row col) /\
  (is_cell_char a = true ->
   read_loop (a :: rest) b MAX_NUM MAX_NUM = read_loop [a] b MAX_NUM MAX_NUM) /\
  read_board (String.append f1 (String "0" f2)) b = read_board (String.append f1 f2) b /\
  read_board f b = read_board_described f b.
Proof.
  intros Hwf Hr Hc.
  split; [reflexivity |]. split; [reflexivity |].
  split; [now apply read_char_described |].
  split; [intros Hcell; now rewrite !read_loop_last_cell |].
  split; [apply read_board_drops_zero | apply read_board_as_described].
Qed.

Lemma read_board_skips_zero_witness :
  cell_at (set_cell empty_board 1 1 5) 1 1 = mkcell 1 5 (RowsAt 1) (ColumnsAt 1) (SquaresAt 1) /\
  read_char (char_code "5") empty_board 1 1 = (true, set_cell empty_board 1 1 5, 1, 2) /\
  read_char (char_code "0") empty_board 1 1 = (true, empty_board, 1, 1) /\
  read_board "0 5" empty_board = read_board " 5" empty_board /\
  cell_at (read_board "0 5" empty_board) 1 1 = mkcell 1 5 (RowsAt 1) (ColumnsAt 1) (SquaresAt 1).
Proof.
  destruct (read_board_skips_zero "5" [] "0 5" "" " 5" empty_board 1 1)
    as (Hzero & _ & Hpass & _ & Hdrop & _).
  - apply init_board_well_formed, blank_board_allocated.
  - apply in_range_intro. reflexivity.
  - apply in_range_intro. reflexivity.
  - assert (Hfive : read_char (char_code "5") empty_board 1 1
                    = (true, set_cell empty_board 1 1 5, 1, 2)) by (vm_compute; reflexivity).
    rewrite Hfive in Hpass. destruct Hpass as (Hcell & _).
    split; [exact Hcell |]. split; [exact Hfive |]. split; [exact Hzero |].
    split; [exact Hdrop |]. vm_compute. reflexivity.
Defined.

(** * Further properties *)

(** ** The search is complete and finds the first solution *)

Lemma extends_unmarked (g : grid) (b : board) (r c : Z) :
  consistent b -> valid_grid g -> extends g b ->
  in_range r -> in_range c -> is_set b r c = 0 ->
  unmarked b r c (g r c).
Proof.
  intros Hcon (Hvals & Hrows & Hcols & Hsqs) Hext Hr Hc Hunset.
  pose proof (con_wf b Hcon) as Hwf.
  assert (Hgroup : forall group mark,
             marks_agree group mark b -> grid_once group g ->
             in_range (group r c) -> mark b (group r c) (g r c) = 0).
  { intros group mark Hagree Honce Hk.
    destruct (Z.eq_dec (mark b (group r c) (g r c)) 0) as [Hz | Hnz]; [exact Hz |].
    exfalso. apply (Hagree (group r c) (g r c) Hk (Hvals r c Hr Hc)) in Hnz.
    destruct Hnz as (i & j & Hi & Hj & Hg & Hset & Hval).
    assert (Hij : value (cell_at b i j) = g i j) by now apply Hext.
    destruct (Honce i j r c Hi Hj Hr Hc Hg) as [-> ->]; [congruence |].
    unfold is_set in Hunset. contradiction. }
  apply unmarked_marks; try assumption.
  split; [| split].
  - apply (Hgroup row_of row_mark (con_rows b Hcon) Hrows). exact Hr.
  - apply (Hgroup col_of col_mark (con_cols b Hcon) Hcols). exact Hc.
  - apply (Hgroup square square_mark (con_squares b Hcon) Hsqs).
    now apply square_in_range.
Qed.

Lemma extends_set_cell (g : grid) (b : board) (r c : Z) :
  well_formed b -> in_range r -> in_range c ->
  extends g b -> extends g (set_cell b r c (g r c)).
Proof.
  intros Hwf Hr Hc Hext i j Hi Hj. unfold is_set.
  rewrite set_cell_cell_at by (try assumption; apply in_range_bounds in Hi, Hj; lia).
  destruct (decide (i = r /\ j = c)) as [[-> ->] | _]; [reflexivity | now apply Hext].
Qed.

Lemma grid_le_complete (g : grid) (b : board) :
  complete b -> extends g b -> grid_le (grid_of b) g.
Proof.
  intros Hcomplete Hext. left. intros r c Hr Hc. unfold grid_of.
  apply Hext; try assumption. now apply Hcomplete.
Qed.

Section TryCandidatesFirst.
Variable g : grid.
Hypothesis Hvalid : valid_grid g.
Variable solve : board -> Z -> Z -> option (Z * board).
Hypothesis solve_post :
  forall b r c ret b',
    well_formed b -> in_range r -> in_range c ->
    solve b r c = Some (ret, b') -> search_post b ret b'.
Hypothesis solve_first :
  forall b r c ret b',
    consistent b -> in_range r -> in_range c -> prefix_set b r c ->
    extends g b ->
    solve b r c = Some (ret, b') -> search_first g ret b'.

Lemma try_candidates_first (n : nat) :
  forall b r c prev ret b',
    consistent b -> in_range r -> in_range c -> is_set b r c = 0 ->
    prefix_set b r c -> extends g b ->
    MIN_NUM <= prev <= g r c ->
    try_candidates solve n b r c prev = Some (ret, b') ->
    search_first g ret b'.
Proof.
  induction n as [| n IH];
    intros b r c prev ret b' Hcon Hr Hc Hunset Hpre Hext Hprev Hrun; [discriminate |].
  pose proof (con_wf b Hcon) as Hwf.
  pose proof (extends_unmarked g b r c Hcon Hvalid Hext Hr Hc Hunset) as Hgfree.
  assert (Hg9 : g r c <= MAX_NUM) by (apply (proj1 Hvalid r c Hr Hc)).
  cbn [try_candidates] in Hrun. fold (candidate b r c prev) in Hrun.
  destruct (candidate_spec b r c prev) as [[_ Hnone] | (Hin & Hfree & Hleast)];
    [unfold MIN_NUM in Hprev; lia | |].
  { exfalso. apply (Hnone (g r c)); [lia | exact Hgfree]. }
  set (val := candidate b r c prev) in *.
  assert (Hval : in_range val) by (unfold in_range; lia).
  assert (Hvalg : val <= g r c).
  { destruct (Z.le_gt_cases val (g r c)) as [Hle | Hgt]; [exact Hle |].
    exfalso. apply (Hleast (g r c)); [lia | exact Hgfree]. }
  destruct (val =? -1) eqn:Hm1; [apply Z.eqb_eq in Hm1; unfold MIN_NUM in *; lia |].
  destruct (solve (set_cell b r c val) r c) as [[ret1 b1] |] eqn:Hsolve; [| discriminate].
  pose proof Hsolve as Hpost.
  apply solve_post in Hpost; auto using set_cell_well_formed.
  destruct Hpost as (_ & _ & Hfail1 & Hframe1).
  destruct (ret1 =? 0) eqn:Hz.
  - apply Z.eqb_eq in Hz. subst ret1.
    assert (Hne : val <> g r c).
    { intros E. rewrite E in Hsolve.
      apply solve_first in Hsolve;
        auto using set_cell_consistent, prefix_set_set_cell, extends_set_cell.
      - now destruct Hsolve.
      - apply set_cell_consistent; try assumption. apply (proj1 Hvalid r c Hr Hc). }
    rewrite (Hfail1 eq_refl) in Hrun.
    rewrite unset_set_cell in Hrun by assumption.
    apply (IH b r c (val + 1)); auto. lia.
  - apply Z.eqb_neq in Hz. injection Hrun as <- <-.
    destruct (Z.eq_dec val (g r c)) as [E | Hne].
    + rewrite E in Hsolve.
      apply solve_first in Hsolve;
        auto using prefix_set_set_cell, extends_set_cell.
      * split; [discriminate | apply Hsolve].
      * apply set_cell_consistent; try assumption. apply (proj1 Hvalid r c Hr Hc).
    + split; [discriminate |]. right. exists r, c.
      assert (Hkept : forall i j, in_range i -> in_range j ->
                        is_set (set_cell b r c val) i j <> 0 ->
                        grid_of b1 i j = value (cell_at (set_cell b r c val) i j)).
      { intros i j Hi Hj Hset. unfold grid_of. now rewrite Hframe1. }
      split; [exact Hr |]. split; [exact Hc |]. split.
      * rewrite Hkept; try assumption;
          rewrite ?set_cell_cell_at by (try assumption; apply in_range_bounds in Hr, Hc; lia).
        -- destruct (decide (r = r /\ c = c)) as [_ | Hn]; [cbn; lia | now destruct Hn].
        -- unfold is_set.
           rewrite set_cell_cell_at by (try assumption; apply in_range_bounds in Hr, Hc; lia).
           destruct (decide (r = r /\ c = c)) as [_ | Hn]; [cbn; lia | now destruct Hn].
      * intros i j Hi Hj Hlt.
        assert (Hsame : cell_at (set_cell b r c val) i j = cell_at b i j).
        { rewrite set_cell_cell_at by (try assumption; apply in_range_bounds in Hi, Hj; lia).
          destruct (decide (i = r /\ j = c)) as [[-> ->] | _]; [lia | reflexivity]. }
        rewrite Hkept; try assumption.
        -- rewrite Hsame. apply Hext; try assumption. now apply Hpre.
        -- unfold is_set. rewrite Hsame. now apply Hpre.
Qed.
End TryCandidatesFirst.

Lemma solve_board_first (g : grid) (fuel : nat) :
  valid_grid g ->
  forall b r c ret b',
    consistent b -> in_range r -> in_range c -> prefix_set b r c ->
    extends g b ->
    solve_board fuel b r c = Some (ret, b') -> search_first g ret b'.
Proof.
  intros Hvalid.
  induction fuel as [| fuel IH]; intros b r c ret b' Hcon Hr Hc Hpre Hext Hrun;
    [discriminate |].
  cbn [solve_board] in Hrun.
  destruct (unset_cells b =? 0) eqn:Hcount.
  { apply Z.eqb_eq in Hcount. injection Hrun as <- <-. split; [discriminate |].
    apply grid_le_complete; [| exact Hext]. now apply (consistent_complete b Hcon). }
  destruct (scan_result b r c (consistent_counted b Hcon) Hr Hc Hpre)
    as (r' & c' & Hfind & Hr' & Hc' & Hpre' & Hend).
  rewrite Hfind in Hrun.
  destruct (is_set b r' c' =? 0) eqn:Hset.
  - apply Z.eqb_eq in Hset.
    apply (try_candidates_first g Hvalid (solve_board fuel) (solve_board_post fuel) IH
             try_budget b r' c' MIN_NUM); auto.
    split; [lia |]. apply (proj1 Hvalid r' c' Hr' Hc').
  - apply Z.eqb_neq in Hset. injection Hrun as <- <-. split; [discriminate |].
    apply grid_le_complete; [| exact Hext].
    apply (consistent_complete b Hcon). now apply Hend.
Qed.

Lemma complete_valid_grid (b : board) :
  consistent b -> complete b -> valid_grid (grid_of b).
Proof.
  intros Hcon Hcomplete.
  assert (Hholds : forall r c, in_range r -> in_range c ->
                               holds b r c (grid_of b r c)).
  { intros r c Hr Hc. split; [now apply Hcomplete | reflexivity]. }
  assert (Honce : forall group, held_once group b -> grid_once group (grid_of b)).
  { intros group Hgroup r c r' c' Hr Hc Hr' Hc' Hg Hval.
    apply (Hgroup r c r' c' (grid_of b r c)); try assumption; [now apply Hholds |].
    rewrite Hval. now apply Hholds. }
  split; [| split; [| split]].
  - intros r c Hr Hc. apply (con_values b Hcon r c Hr Hc). now apply Hcomplete.
  - apply Honce, (con_row_once b Hcon).
  - apply Honce, (con_col_once b Hcon).
  - apply Honce, (con_square_once b Hcon).
Qed.

(** The board a successful search from (1,1) leaves is a solution of the
    board it was given. *)
Lemma solve_board_solution (fuel : nat) (b : board) (ret : Z) (b' : board) :
  consistent b ->
  solve_board fuel b MIN_NUM MIN_NUM = Some (ret, b') -> ret <> 0 ->
  valid_grid (grid_of b') /\ extends (grid_of b') b.
Proof.
  intros Hcon Hrun Hret.
  assert (Hone : in_range MIN_NUM) by (unfold in_range, MIN_NUM, MAX_NUM; lia).
  pose proof (solve_board_post fuel b _ _ ret b' (con_wf b Hcon) Hone Hone Hrun)
    as (_ & _ & _ & Hframe).
  apply solve_board_good in Hrun; auto using prefix_set_first.
  destruct Hrun as [Hcon' Hdone]. split.
  - apply complete_valid_grid; [exact Hcon' |].
    apply (consistent_complete b' Hcon'). now apply Hdone.
  - intros r c Hr Hc Hset. unfold grid_of. now rewrite Hframe.
Qed.

(** X1. On a board loaded with givens that respect the assertions of
    [set_cell], [solve_board] called at (1,1) returns 1 exactly when the
    puzzle has a solution: a grid with every value from 1 to 9, no value
    twice in a row, column or square, that has the givens of the board.
    So a result 0 means that there is no solution. *)
Theorem solve_board_decides (fuel : nat) (b : board) :
  loaded b -> (82 <= fuel)%nat ->
  ((exists g, valid_grid g /\ extends g b) <->
   (exists b', solve_board fuel b MIN_NUM MIN_NUM = Some (1, b'))) /\
  ((forall g, valid_grid g -> ~ extends g b) <->
   solve_board fuel b MIN_NUM MIN_NUM = Some (0, b)).
Proof.
  intros Hb Hfuel.
  pose proof (loaded_consistent b Hb) as Hcon.
  pose proof (con_wf b Hcon) as Hwf.
  assert (Hone : in_range MIN_NUM) by (unfold in_range, MIN_NUM, MAX_NUM; lia).
  destruct (solve_board_total fuel b MIN_NUM MIN_NUM Hwf Hone Hone) as (ret & b' & Hrun).
  { pose proof (count_unset_bounds b). lia. }
  pose proof (solve_board_post fuel b _ _ ret b' Hwf Hone Hone Hrun)
    as (_ & Hret & Hfail & _).
  assert (Hsolved : forall g, valid_grid g -> extends g b -> ret = 1).
  { intros g Hvalid Hext.
    destruct (solve_board_first g fuel Hvalid b _ _ ret b' Hcon Hone Hone
                (prefix_set_first b) Hext Hrun) as [Hnz _].
    destruct Hret; [contradiction | assumption]. }
  split; split.
  - intros (g & Hvalid & Hext). exists b'. now rewrite <- (Hsolved g Hvalid Hext).
  - intros (b1 & Hrun1). exists (grid_of b1).
    apply (solve_board_solution fuel b 1 b1 Hcon Hrun1). discriminate.
  - intros Hnone. destruct Hret as [-> | ->]; [now rewrite <- (Hfail eq_refl) at 2 |].
    exfalso.
    destruct (solve_board_solution fuel b 1 b' Hcon Hrun) as [Hvalid Hext]; [discriminate |].
    exact (Hnone _ Hvalid Hext).
  - intros Hrun0 g Hvalid Hext. rewrite Hrun0 in Hrun. injection Hrun as <- <-.
    pose proof (Hsolved g Hvalid Hext). discriminate.
Qed.

Lemma solve_board_decides_witness :
  (exists b', solve_board 82 example_board MIN_NUM MIN_NUM = Some (1, b')) /\
  (forall g, valid_grid g -> ~ extends g stuck_board).
Proof.
  assert (Hfuel : (82 <= 82)%nat) by lia.
  split.
  - apply (proj1 (solve_board_decides 82 example_board example_board_loaded Hfuel)).
    exists (grid_of solution_board).
    apply (solve_board_solution 82 example_board 1 solution_board).
    + exact (loaded_consistent example_board example_board_loaded).
    + vm_compute. reflexivity.
    + discriminate.
  - apply (proj2 (solve_board_decides 82 stuck_board stuck_board_loaded Hfuel)).
    vm_compute. reflexivity.
Defined.

(** X2. The solution [solve_board] finds is the first one: on a loaded
    board, the grid a successful search from (1,1) leaves is a solution
    with the givens of the board, and for every other such solution, at
    the first cell in reading order where the two differ the grid found
    has the smaller value. *)
Theorem solve_board_first_solution (fuel : nat) (b : board) (ret : Z) (b' : board) :
  loaded b ->
  solve_board fuel b MIN_NUM MIN_NUM = Some (ret, b') -> ret <> 0 ->
  valid_grid (grid_of b') /\ extends (grid_of b') b /\
  forall g, valid_grid g -> extends g b -> grid_le (grid_of b') g.
Proof.
  intros Hb Hrun Hret.
  pose proof (loaded_consistent b Hb) as Hcon.
  assert (Hone : in_range MIN_NUM) by (unfold in_range, MIN_NUM, MAX_NUM; lia).
  destruct (solve_board_solution fuel b ret b' Hcon Hrun Hret) as [Hvalid Hext].
  split; [exact Hvalid |]. split; [exact Hext |].
  intros g Hg Hgext.
  apply (solve_board_first g fuel Hg b _ _ ret b' Hcon Hone Hone
           (prefix_set_first b) Hgext Hrun).
Qed.

Lemma solve_board_first_solution_witness :
  valid_grid (grid_of solution_board) /\
  forall g, valid_grid g -> extends g example_board -> grid_le (grid_of solution_board) g.
Proof.
  destruct (solve_board_first_solution 82 example_board 1 solution_board)
    as (Hvalid & _ & Hfirst).
  - exact example_board_loaded.
  - vm_compute. reflexivity.
  - discriminate.
  - split; [exact Hvalid | exact Hfirst].
Defined.

(** ** What [read_board] reads *)

Lemma place_char_well_formed (b : board) (r c : Z) (a : ascii) :
  well_formed b -> in_range r -> in_range c -> well_formed (place_char b (r, c) a).
Proof.
  intros Hwf Hr Hc. unfold place_char. destruct (Ascii.eqb a "."); [exact Hwf |].
  now apply set_cell_well_formed.
Qed.

Lemma place_char_cell_at (b : board) (r c i j : Z) (a : ascii) :
  well_formed b -> in_range r -> in_range c -> in_range i -> in_range j ->
  cell_at (place_char b (r, c) a) i j =
  if decide (i = r /\ j = c)
  then (if Ascii.eqb a "." then cell_at b r c
        else mkcell 1 (digit_value a) (RowsAt r) (ColumnsAt c) (SquaresAt (square r c)))
  else cell_at b i j.
Proof.
  intros Hwf Hr Hc Hi Hj. unfold place_char. cbn [fst snd].
  destruct (Ascii.eqb a ".").
  - destruct (decide (i = r /\ j = c)) as [[-> ->] | _]; reflexivity.
  - apply set_cell_cell_at; try assumption; apply in_range_bounds in Hi, Hj; lia.
Qed.

(** The cells a text does not get to keep what they hold. *)
Lemma fold_place_other (l : list (Z * Z)) :
  forall (chars : list ascii) (b : board) (r c : Z),
    well_formed b -> in_range r -> in_range c ->
    (forall i j, In (i, j) l -> in_range i /\ in_range j) ->
    ~ In (r, c) l ->
    cell_at (fold_left (fun b pa => place_char b (fst pa) (snd pa)) (combine l chars) b) r c
    = cell_at b r c.
Proof.
  induction l as [| [i j] l IH]; intros chars b r c Hwf Hr Hc Hrange Hnotin; [reflexivity |].
  destruct chars as [| a chars]; [reflexivity |].
  destruct (Hrange i j) as [Hi Hj]; [now left |].
  cbn [combine fold_left fst snd].
  rewrite IH; try assumption.
  - rewrite place_char_cell_at by assumption.
    destruct (decide (r = i /\ c = j)) as [[-> ->] | _]; [| reflexivity].
    exfalso. apply Hnotin. now left.
  - now apply place_char_well_formed.
  - intros i' j' Hin. apply Hrange. now right.
  - intros Hin. apply Hnotin. now right.
Qed.

(** The [k]-th cell gets the [k]-th character. *)
Lemma fold_place_cell_at (l : list (Z * Z)) :
  forall (chars : list ascii) (b : board) (k : nat) (r c : Z),
    well_formed b -> NoDup l ->
    (forall i j, In (i, j) l -> in_range i /\ in_range j) ->
    l !! k = Some (r, c) ->
    cell_at (fold_left (fun b pa => place_char b (fst pa) (snd pa)) (combine l chars) b) r c
    = match chars !! k with
      | Some a =>
          if Ascii.eqb a "." then cell_at b r c
          else mkcell 1 (digit_value a) (RowsAt r) (ColumnsAt c) (SquaresAt (square r c))
      | None => cell_at b r c
      end.
Proof.
  induction l as [| [i j] l IH]; intros chars b k r c Hwf Hnd Hrange Hk; [discriminate |].
  apply NoDup_cons in Hnd. destruct Hnd as [Hnotin Hnd].
  destruct (Hrange i j) as [Hi Hj]; [now left |].
  assert (Hrange' : forall i' j', In (i', j') l -> in_range i' /\ in_range j').
  { intros i' j' Hin. apply Hrange. now right. }
  destruct chars as [| a chars].
  { cbn. now rewrite lookup_nil. }
  cbn [combine fold_left fst snd].
  destruct k as [| k]; cbn [lookup list_lookup] in *.
  - injection Hk as <- <-.
    rewrite fold_place_other; try assumption.
    + rewrite place_char_cell_at by assumption.
      destruct (decide (i = i /\ j = j)) as [_ | Hn]; [reflexivity | now destruct Hn].
    + now apply place_char_well_formed.
    + intros Hin. apply Hnotin. now apply list_elem_of_In.
  - assert (Hrc : in_range r /\ in_range c).
    { apply Hrange'. apply list_elem_of_In. eapply list_elem_of_lookup_2. exact Hk. }
    destruct Hrc as [Hr Hc].
    rewrite (IH chars (place_char b (i, j) a) k r c); try assumption.
    + rewrite place_char_cell_at by assumption.
      destruct (decide (r = i /\ c = j)) as [[-> ->] | _]; [| reflexivity].
      exfalso. apply Hnotin. eapply list_elem_of_lookup_2. exact Hk.
    + now apply place_char_well_formed.
Qed.

Lemma all_cells_in_range (i j : Z) : In (i, j) all_cells -> in_range i /\ in_range j.
Proof. apply In_all_cells. Qed.

(** X3. Whatever the text and whatever the memory held, after
    [init_board] and [read_board] the [k]-th cell in reading order holds
    the [k]-th of the characters 1 to 9 and dot of the text: it is set to
    the digit, or left without value (value 0) for a dot and for a cell
    the text is too short for. Every other character, 0 included, is
    left out before the characters are counted: it takes no cell. *)
Theorem read_board_cell_at (f : string) (b0 : board) (k : nat) (r c : Z) :
  allocated b0 -> all_cells !! k = Some (r, c) ->
  cell_at (read_board f (init_board b0)) r c = cell_read (nth k (cell_chars f) "."%char) r c.
Proof.
  intros Ha Hk.
  assert (Hrc : in_range r /\ in_range c).
  { apply all_cells_in_range, list_elem_of_In. eapply list_elem_of_lookup_2. exact Hk. }
  destruct Hrc as [Hr Hc].
  rewrite read_board_as_described. unfold read_board_described.
  rewrite (fold_place_cell_at all_cells _ _ k r c);
    auto using init_board_well_formed, NoDup_all_cells, all_cells_in_range.
  fold (cell_chars f). rewrite nth_lookup, init_board_cell_at by assumption.
  unfold cell_read. destruct (cell_chars f !! k) as [a |] eqn:Hchar; [| reflexivity].
  cbn [default from_option id].
  assert (Hcell : is_cell_char a = true).
  { apply list_elem_of_lookup_2, list_elem_of_In in Hchar.
    unfold cell_chars in Hchar. apply List.filter_In in Hchar. apply Hchar. }
  rewrite is_cell_char_split in Hcell.
  destruct (is_value_char a) eqn:Hval.
  - now rewrite (is_value_char_not_dot a Hval).
  - cbn [orb] in Hcell. now rewrite Hcell.
Qed.

Lemma read_board_cell_at_witness :
  cell_chars "0 5 . 07" = ["5"; "."; "7"]%char /\
  cell_at (read_board "0 5 . 07" empty_board) 1 1
  = mkcell 1 5 (RowsAt 1) (ColumnsAt 1) (SquaresAt 1) /\
  cell_at (read_board "0 5 . 07" empty_board) 1 2 = fresh_cell 1 2 /\
  cell_at (read_board "0 5 . 07" empty_board) 1 3
  = mkcell 1 7 (RowsAt 1) (ColumnsAt 3) (SquaresAt 1) /\
  cell_at (read_board "0 5 . 07" empty_board) 1 4 = fresh_cell 1 4.
Proof.
  split; [reflexivity |].
  split; [apply (read_board_cell_at "0 5 . 07" blank_board 0 1 1);
          [exact blank_board_allocated | reflexivity] |].
  split; [apply (read_board_cell_at "0 5 . 07" blank_board 1 1 2);
          [exact blank_board_allocated | reflexivity] |].
  split; [apply (read_board_cell_at "0 5 . 07" blank_board 2 1 3);
          [exact blank_board_allocated | reflexivity] |].
  apply (read_board_cell_at "0 5 . 07" blank_board 3 1 4);
    [exact blank_board_allocated | reflexivity].
Defined.

(** X4. Whatever the text, contradictory givens included, and whatever
    the memory held, the board [read_board] leaves after [init_board]
    satisfies the board invariant: a value is marked for a row, column
    or square exactly when one of its cells holds it, and the counter is
    the number of cells without value. *)
Theorem read_board_invariant (f : string) (b0 : board) :
  allocated b0 ->
  board_invariant (read_board f (init_board b0)) /\
  well_formed (read_board f (init_board b0)).
Proof.
  intros Ha. pose proof (read_board_placed f b0 Ha) as Hplaced. split.
  - now apply placed_board_invariant.
  - apply (placed_counted _ Hplaced).
Qed.

Lemma read_board_invariant_witness : board_invariant clash_board.
Proof. apply (read_board_invariant "5 5" blank_board), blank_board_allocated. Defined.

Lemma combine_app_long {A B : Type} (l : list A) :
  forall l1 l2 : list B,
    (length l <= length l1)%nat -> combine l (l1 ++ l2) = combine l l1.
Proof.
  induction l as [| x l IH]; intros l1 l2 Hlen; [reflexivity |].
  destruct l1 as [| y l1]; [cbn in Hlen; lia |].
  cbn. rewrite IH; [reflexivity |]. cbn in Hlen. lia.
Qed.

(** X5. Once a text has given a character to each of the 81 cells,
    [read_board] stops: whatever follows in the text, digits included,
    changes nothing. *)
Theorem read_board_ignores_rest (f rest : string) (b : board) :
  (81 <= length (cell_chars f))%nat ->
  read_board (String.append f rest) b = read_board f b.
Proof.
  intros Hlen. rewrite !read_board_as_described. unfold read_board_described.
  rewrite list_ascii_of_string_app, List.filter_app.
  fold (cell_chars f). now rewrite combine_app_long.
Qed.

Lemma read_board_ignores_rest_witness :
  read_board (String.append solution_input "1 2 3") empty_board = solution_board.
Proof.
  apply (read_board_ignores_rest solution_input "1 2 3" empty_board).
  vm_compute. lia.
Defined.

(** ** Reading what [print_board] wrote *)

Lemma filter_flat_map {A B : Type} (f : B -> bool) (g : A -> list B) (l : list A) :
  List.filter f (flat_map g l) = flat_map (fun x => List.filter f (g x)) l.
Proof.
  induction l as [| x l IH]; [reflexivity |]. cbn. now rewrite List.filter_app, IH.
Qed.

Lemma map_flat_map {A B C : Type} (f : B -> C) (g : A -> list B) (l : list A) :
  map f (flat_map g l) = flat_map (fun x => map f (g x)) l.
Proof.
  induction l as [| x l IH]; [reflexivity |]. cbn. now rewrite map_app, IH.
Qed.

Lemma flat_map_ext_in {A B : Type} (g h : A -> list B) (l : list A) :
  (forall x, In x l -> g x = h x) -> flat_map g l = flat_map h l.
Proof.
  induction l as [| x l IH]; intros Hext; [reflexivity |].
  cbn. rewrite Hext by now left. rewrite IH; [reflexivity |].
  intros y Hy. apply Hext. now right.
Qed.

Lemma flat_map_single {A B : Type} (h : A -> B) (l : list A) :
  flat_map (fun x => [h x]) l = map h l.
Proof. induction l as [| x l IH]; [reflexivity |]. cbn. now rewrite IH. Qed.

Lemma lookup_map {A B : Type} (h : A -> B) (l : list A) (k : nat) (x : A) :
  l !! k = Some x -> map h l !! k = Some (h x).
Proof.
  revert k. induction l as [| y l IH]; intros k Hk; [discriminate |].
  destruct k as [| k]; cbn in *; [now injection Hk as -> | now apply IH].
Qed.

Lemma print_int_digit (v : Z) :
  in_range v ->
  List.filter is_cell_char (" "%char :: print_int v) = [digit_of v] /\
  Ascii.eqb (digit_of v) "." = false /\ digit_value (digit_of v) = v.
Proof.
  unfold in_range, MIN_NUM, MAX_NUM. intros Hv.
  assert (Hcases : v = 1 \/ v = 2 \/ v = 3 \/ v = 4 \/ v = 5 \/
                   v = 6 \/ v = 7 \/ v = 8 \/ v = 9) by lia.
  repeat destruct Hcases as [-> | Hcases]; try subst v; now vm_compute.
Qed.

Lemma cell_chars_print_board_text (b : board) :
  (forall r c, in_range r -> in_range c -> in_range (value (cell_at b r c))) ->
  List.filter is_cell_char (print_board_text b)
  = map (fun p => digit_of (value (cell_at b p.1 p.2))) all_cells.
Proof.
  intros Hvals. unfold print_board_text, all_cells.
  rewrite filter_flat_map, map_flat_map.
  apply flat_map_ext_in. intros i Hi. apply In_for_range in Hi.
  rewrite List.filter_app, filter_flat_map, map_map. cbn [List.filter is_cell_char newline].
  rewrite app_nil_r. cbn [fst snd].
  rewrite <- flat_map_single. apply flat_map_ext_in. intros j Hj. apply In_for_range in Hj.
  now apply print_int_digit, Hvals.
Qed.

(** X6. [read_board] reads what [print_board] writes, for a board whose
    cells all hold a value from 1 to 9 (a solved board): after
    [init_board], reading the printed text sets every cell to the value
    printed for it, and printing the board read gives the same text. *)
Theorem read_print_board (b b0 : board) :
  allocated b0 ->
  (forall r c, in_range r -> in_range c -> in_range (value (cell_at b r c))) ->
  (forall r c, in_range r -> in_range c ->
     cell_at (read_board (string_of_list_ascii (print_board_text b)) (init_board b0)) r c
     = mkcell 1 (value (cell_at b r c)) (RowsAt r) (ColumnsAt c) (SquaresAt (square r c))) /\
  print_board_text (read_board (string_of_list_ascii (print_board_text b)) (init_board b0))
  = print_board_text b.
Proof.
  intros Ha Hvals.
  assert (Hcell : forall r c, in_range r -> in_range c ->
    cell_at (read_board (string_of_list_ascii (print_board_text b)) (init_board b0)) r c
    = mkcell 1 (value (cell_at b r c)) (RowsAt r) (ColumnsAt c) (SquaresAt (square r c))).
  { intros r c Hr Hc.
    rewrite read_board_as_described. unfold read_board_described.
    rewrite list_ascii_of_string_of_list_ascii, cell_chars_print_board_text by exact Hvals.
    rewrite (fold_place_cell_at all_cells _ _ (Z.to_nat (cell_index r c)) r c);
      auto using init_board_well_formed, NoDup_all_cells, all_cells_in_range,
                 all_cells_lookup.
    rewrite (lookup_map _ _ _ (r, c)) by now apply all_cells_lookup.
    cbn [fst snd].
    destruct (print_int_digit (value (cell_at b r c)) (Hvals r c Hr Hc)) as (_ & -> & ->).
    reflexivity. }
  split; [exact Hcell |].
  unfold print_board_text. apply flat_map_ext_in. intros i Hi. apply In_for_range in Hi.
  f_equal. apply flat_map_ext_in. intros j Hj. apply In_for_range in Hj.
  now rewrite Hcell.
Qed.

Lemma solution_board_values (r c : Z) :
  in_range r -> in_range c -> in_range (value (cell_at solution_board r c)).
Proof.
  intros Hr Hc.
  pose proof (loaded_consistent solution_board solution_board_loaded) as Hcon.
  apply (con_values _ Hcon r c Hr Hc).
  apply (consistent_complete _ Hcon); [now vm_compute | exact Hr | exact Hc].
Qed.

Lemma read_print_board_witness :
  print_board_text
    (read_board (string_of_list_ascii (print_board_text solution_board)) empty_board)
  = print_board_text solution_board.
Proof.
  apply (read_print_board solution_board blank_board).
  - exact blank_board_allocated.
  - exact solution_board_values.
Defined.

(** ** The order of the cells *)

Lemma all_cells_length : length all_cells = 81%nat.
Proof. reflexivity. Qed.

Lemma all_cells_index (k : nat) (r c : Z) :
  all_cells !! k = Some (r, c) ->
  in_range r /\ in_range c /\ k = Z.to_nat (cell_index r c).
Proof.
  intros Hk.
  assert (Hrc : in_range r /\ in_range c).
  { apply all_cells_in_range, list_elem_of_In. eapply list_elem_of_lookup_2. exact Hk. }
  destruct Hrc as [Hr Hc]. split; [exact Hr |]. split; [exact Hc |].
  apply (NoDup_lookup all_cells k _ (r, c) NoDup_all_cells Hk).
  now apply all_cells_lookup.
Qed.

(** X7. [next_cell] walks through the 81 cells row by row, from left to
    right, and stops after the last: from the [k]-th cell of that order
    it returns 1 and moves to cell [k+1], and from the last cell (9,9)
    it returns 0 and leaves the position where it is. *)
Theorem next_cell_order (k : nat) (r c : Z) :
  all_cells !! k = Some (r, c) ->
  next_cell r c = match all_cells !! S k with
                  | Some (r', c') => (1, r', c')
                  | None => (0, r, c)
                  end.
Proof.
  intros Hk. destruct (all_cells_index k r c Hk) as (Hr & Hc & ->).
  pose proof (cell_index_bounds r c Hr Hc) as Hb.
  destruct (decide (cell_index r c = 80)) as [Hlast | Hnot].
  - destruct (cell_index_last r c Hr Hc Hlast) as [-> ->]. reflexivity.
  - destruct (next_cell_more r c Hr Hc) as (r' & c' & -> & Hr' & Hc' & Hidx); [lia |].
    pose proof (all_cells_lookup r' c' Hr' Hc') as Hnext.
    rewrite Hidx in Hnext.
    replace (Z.to_nat (cell_index r c + 1)) with (S (Z.to_nat (cell_index r c)))
      in Hnext by lia.
    now rewrite Hnext.
Qed.

Lemma next_cell_order_witness :
  next_cell 3 9 = (1, 4, 1) /\ next_cell 9 9 = (0, 9, 9).
Proof.
  split.
  - apply (next_cell_order 26 3 9). reflexivity.
  - apply (next_cell_order 80 9 9). reflexivity.
Defined.

(** X8. The scan at the start of [solve_board] stops at the first cell
    without value from the start position on, in the order of
    [next_cell]: every cell it passed has a value, and it stops on a cell
    with a value only at (9,9), when no cell from the start position on
    is without value. It ends within 81 tests of the loop. *)
Theorem find_unset_first (b : board) (r c : Z) :
  in_range r -> in_range c ->
  exists r' c',
    find_unset scan_budget b r c = Some (r', c') /\
    in_range r' /\ in_range c' /\ cell_index r c <= cell_index r' c' /\
    (forall i j, in_range i -> in_range j ->
       cell_index r c <= cell_index i j < cell_index r' c' -> is_set b i j <> 0) /\
    (is_set b r' c' <> 0 ->
     r' = MAX_NUM /\ c' = MAX_NUM /\
     forall i j, in_range i -> in_range j ->
                 cell_index r c <= cell_index i j -> is_set b i j <> 0).
Proof.
  intros Hr Hc.
  destruct (find_unset_spec scan_budget b r c Hr Hc)
    as (r' & c' & Hfind & Hr' & Hc' & Hle & Hscan & Hend).
  { pose proof (cell_index_bounds r c Hr Hc). unfold scan_budget, TOTAL_NUMS. lia. }
  exists r', c'. split; [exact Hfind |]. split; [exact Hr' |]. split; [exact Hc' |].
  split; [exact Hle |]. split; [exact Hscan |].
  intros Hset. destruct (Hend Hset) as [-> ->]. split; [reflexivity |].
  split; [reflexivity |]. intros i j Hi Hj Hij.
  destruct (decide (cell_index i j = 80)) as [Hlast | Hnot].
  - destruct (cell_index_last i j Hi Hj Hlast) as [-> ->]. exact Hset.
  - apply Hscan; try assumption. pose proof (cell_index_bounds i j Hi Hj).
    change (cell_index MAX_NUM MAX_NUM) with 80. lia.
Qed.

Lemma find_unset_first_witness :
  find_unset scan_budget example_board 1 1 = Some (1, 3) /\
  exists r' c', find_unset scan_budget example_board 1 1 = Some (r', c') /\ in_range r'.
Proof.
  split; [reflexivity |].
  assert (Hone : in_range 1) by (apply in_range_intro; reflexivity).
  destruct (find_unset_first example_board 1 1 Hone Hone)
    as (r' & c' & Hfind & Hr' & _).
  exists r', c'. split; [exact Hfind | exact Hr'].
Defined.

(** ** The squares *)

(** X9. [square] numbers the nine 3x3 squares from 1 to 9, row of
    squares by row of squares: the square of a cell is determined by
    the third of the rows and the third of the columns the cell is in,
    two cells have the same square exactly when these agree, and every
    square has nine cells. *)
Theorem square_blocks (r c r' c' : Z) :
  in_range r -> in_range c -> in_range r' -> in_range c' ->
  in_range (square r c) /\
  square r c = 3 * ((r - 1) / 3) + (c - 1) / 3 + 1 /\
  (square r c = square r' c' <->
   (r - 1) / 3 = (r' - 1) / 3 /\ (c - 1) / 3 = (c' - 1) / 3) /\
  length (group_cells square (square r c)) = 9%nat.
Proof.
  intros Hr Hc Hr' Hc'.
  pose proof (square_in_range r c Hr Hc) as Hk.
  assert (Hquot : forall n, in_range n -> (n - 1) ÷ 3 = (n - 1) / 3 /\ 0 <= (n - 1) / 3 < 3).
  { intros n Hn. unfold in_range, MIN_NUM, MAX_NUM in Hn.
    rewrite Z.quot_div_nonneg by lia. split; [reflexivity |].
    split; [apply Z.div_pos; lia | apply Z.div_lt_upper_bound; lia]. }
  destruct (Hquot r Hr) as [Er Hbr], (Hquot c Hc) as [Ec Hbc],
           (Hquot r' Hr') as [Er' Hbr'], (Hquot c' Hc') as [Ec' Hbc'].
  split; [exact Hk |].
  split; [| split]; [| | apply (group_cells_length (square r c) Hk)];
    unfold square, SUBDIMENSION; rewrite ?Er, ?Ec, ?Er', ?Ec'; lia.
Qed.

Lemma square_blocks_witness :
  square 5 8 = 6 /\ (square 5 8 = square 4 9 <-> (5 - 1) / 3 = (4 - 1) / 3 /\ (8 - 1) / 3 = (9 - 1) / 3).
Proof.
  assert (H4 : in_range 4) by (apply in_range_intro; reflexivity).
  assert (H5 : in_range 5) by (apply in_range_intro; reflexivity).
  assert (H8 : in_range 8) by (apply in_range_intro; reflexivity).
  assert (H9 : in_range 9) by (apply in_range_intro; reflexivity).
  destruct (square_blocks 5 8 4 9 H5 H8 H4 H9) as (_ & _ & Hsame & _).
  split; [reflexivity | exact Hsame].
Defined.

(** ** Marking and unmarking a candidate *)

Lemma mark_set_other (b : board) (p q : cand_ptr) (v w x : Z) :
  index_ok (ptr_index p) -> index_ok v -> index_ok (ptr_index q) -> index_ok w ->
  q <> p \/ w <> v ->
  mark_of (mark_set b p v x) q w = mark_of b q w.
Proof.
  unfold index_ok. intros Hp Hv Hq Hw Hne.
  assert (Hix : forall i k, 0 <= i -> 0 <= k -> i <> k -> ix i <> ix k).
  { intros i k Hi Hk Hik E. apply ix_inj in E; lia. }
  destruct p as [i | i | i], q as [k | k | k]; unfold mark_of, mark_set;
    cbn [store deref rows columns squares ptr_index] in *; try reflexivity;
    (apply get2_upd2_ne;
     destruct (decide (k = i)) as [-> | Hki];
     [right; apply Hix; try lia; destruct Hne as [Hne | Hne]; [congruence | lia]
     | left; apply Hix; lia]).
Qed.

(** X10. [use_candidate] sets one entry of one candidates array to 1
    and [restore_candidate] sets it to 0: every other entry of the three
    arrays, the cells and the counter stay as they are, and
    [restore_candidate] after [use_candidate] gives back the board when
    the entry was 0 before. *)
Theorem use_restore_candidate (b : board) (cp : cand_ptr) (num : Z) :
  allocated b -> index_ok (ptr_index cp) -> index_ok num ->
  mark_of (use_candidate b cp num) cp num = 1 /\
  mark_of (restore_candidate b cp num) cp num = 0 /\
  (forall q w, index_ok (ptr_index q) -> index_ok w -> q <> cp \/ w <> num ->
     mark_of (use_candidate b cp num) q w = mark_of b q w /\
     mark_of (restore_candidate b cp num) q w = mark_of b q w) /\
  cells (use_candidate b cp num) = cells b /\
  unset_cells (use_candidate b cp num) = unset_cells b /\
  cells (restore_candidate b cp num) = cells b /\
  unset_cells (restore_candidate b cp num) = unset_cells b /\
  (mark_of b cp num = 0 -> restore_candidate (use_candidate b cp num) cp num = b).
Proof.
  intros Ha Hp Hnum.
  change (use_candidate b cp num) with (mark_set b cp num 1).
  change (restore_candidate b cp num) with (mark_set b cp num 0).
  split; [now apply mark_set_same |]. split; [now apply mark_set_same |].
  split; [intros q w Hq Hw Hne; split; now apply mark_set_other |].
  split; [apply mark_set_cells |]. split; [apply mark_set_unset_cells |].
  split; [apply mark_set_cells |]. split; [apply mark_set_unset_cells |].
  intros Hzero.
  change (restore_candidate (mark_set b cp num 1) cp num)
    with (mark_set (mark_set b cp num 1) cp num 0).
  unfold mark_of in Hzero.
  destruct b as [n cs rs co sq], cp as [i | i | i]; unfold mark_set;
    cbn [store deref rows columns squares cells unset_cells] in *; f_equal;
    match goal with
    | |- <[_ := <[_ := 0]> (<[_ := ?y]> ?l !!! _)]> _ = ?l =>
        change (upd2 (upd2 l (ix i) (ix num) 1) (ix i) (ix num) 0 = l)
    end; now apply upd2_restore.
Qed.

Lemma use_restore_candidate_witness :
  mark_of (use_candidate empty_board (RowsAt 3) 7) (RowsAt 3) 7 = 1 /\
  restore_candidate (use_candidate empty_board (RowsAt 3) 7) (RowsAt 3) 7 = empty_board.
Proof.
  assert (H3 : index_ok 3) by (unfold index_ok, MAX_NUM; lia).
  assert (H7 : index_ok 7) by (unfold index_ok, MAX_NUM; lia).
  destruct (use_restore_candidate empty_board (RowsAt 3) 7)
    as (Hone & _ & _ & _ & _ & _ & _ & Hback).
  - apply init_board_allocated, blank_board_allocated.
  - exact H3.
  - exact H7.
  - split; [exact Hone |]. apply Hback. now vm_compute.
Defined.

(** ** The order of [set_cell] calls *)

Lemma upd2_comm {A : Type} `{Inhabited A} (l : list (list A)) (i j i' j' : nat) (x y : A) :
  i <> i' \/ j <> j' \/ x = y ->
  upd2 (upd2 l i j x) i' j' y = upd2 (upd2 l i' j' y) i j x.
Proof.
  intros Hne. unfold upd2.
  destruct (decide (i = i')) as [<- | Hii].
  - destruct (decide (i < length l)%nat) as [Hlt | Hge].
    + rewrite !list_lookup_total_insert_eq by exact Hlt.
      rewrite !list_insert_insert_eq. f_equal.
      destruct (decide (j = j')) as [<- | Hjj].
      * destruct Hne as [Hne | [Hne | ->]]; [congruence | congruence | reflexivity].
      * now apply list_insert_insert_ne.
    + now rewrite !(list_insert_ge l) by lia.
  - rewrite !list_lookup_total_insert_ne by congruence.
    now apply list_insert_insert_ne.
Qed.

(** X11. Two calls of [set_cell] on different cells can be swapped: the
    board is the same in every field. So the board a puzzle is loaded
    into does not depend on the order in which its givens are placed. *)
Theorem set_cell_commute (b : board) (r1 c1 v1 r2 c2 v2 : Z) :
  well_formed b ->
  in_range r1 -> in_range c1 -> in_range r2 -> in_range c2 ->
  r1 <> r2 \/ c1 <> c2 ->
  set_cell (set_cell b r1 c1 v1) r2 c2 v2 = set_cell (set_cell b r2 c2 v2) r1 c1 v1.
Proof.
  intros Hwf Hr1 Hc1 Hr2 Hc2 Hne.
  pose proof (set_cell_well_formed b r1 c1 Hwf Hr1 Hc1 v1) as Hwf1.
  pose proof (set_cell_well_formed b r2 c2 Hwf Hr2 Hc2 v2) as Hwf2.
  assert (Hin : forall b' r c, well_formed b' -> in_range r -> in_range c ->
                               cell_inside b' r c /\ linked b' r c).
  { intros b' r c Hb' Hr Hc.
    split; [apply allocated_cell_inside; auto using wf_allocated | now apply wf_linked]. }
  destruct (Hin b r1 c1 Hwf Hr1 Hc1) as [Hi1 Hl1].
  destruct (Hin b r2 c2 Hwf Hr2 Hc2) as [Hi2 Hl2].
  destruct (Hin _ r2 c2 Hwf1 Hr2 Hc2) as [Hi12 Hl12].
  destruct (Hin _ r1 c1 Hwf2 Hr1 Hc1) as [Hi21 Hl21].
  rewrite (set_cell_eq (set_cell b r1 c1 v1) r2 c2 v2 Hi12 Hl12).
  rewrite (set_cell_eq (set_cell b r2 c2 v2) r1 c1 v1 Hi21 Hl21).
  rewrite (set_cell_eq b r1 c1 v1 Hi1 Hl1), (set_cell_eq b r2 c2 v2 Hi2 Hl2).
  cbn [unset_cells cells rows columns squares].
  f_equal; [| now apply upd2_comm; right; right ..].
  apply upd2_comm. apply in_range_bounds in Hr1, Hc1, Hr2, Hc2.
  destruct Hne as [Hne | Hne]; [left | right; left]; intros E; apply ix_inj in E; lia.
Qed.

Lemma set_cell_commute_witness :
  set_cell (set_cell empty_board 1 1 5) 1 2 3 = set_cell (set_cell empty_board 1 2 3) 1 1 5.
Proof.
  apply (set_cell_commute empty_board 1 1 5 1 2 3).
  - apply init_board_well_formed, blank_board_allocated.
  - apply in_range_intro. reflexivity.
  - apply in_range_intro. reflexivity.
  - apply in_range_intro. reflexivity.
  - apply in_range_intro. reflexivity.
  - right. lia.
Defined.

(** ** [set_cell] after [unset_cell] *)

Lemma reachable_binary (b : board) : reachable b -> binary b.
Proof.
  induction 1 as [b0 Ha | b r c val Hreach [IHc IHm] Hr Hc Hv Hunset Hfree
                  | b r c val Hreach [IHc IHm] Hr Hc Hv Hh].
  - split.
    + intros r c Hr Hc. rewrite (init_board_cell_at b0 Ha r c Hr Hc). now left.
    + intros k v Hk Hv. destruct (init_board_zeroed b0 Ha k Hk v Hv) as (-> & -> & ->).
      repeat split; now left.
  - pose proof (con_wf b (reachable_consistent b Hreach)) as Hwf.
    assert (Hsq : in_range (square r c)) by now apply square_in_range.
    apply in_range_bounds in Hv as Hv'.
    split.
    + intros i j Hi Hj. apply in_range_bounds in Hi as Hi', Hj as Hj'.
      rewrite (set_cell_cell_at b r c Hwf Hr Hc val i j) by lia.
      destruct (decide (i = r /\ j = c)); [now right | now apply IHc].
    + intros k v Hk Hw. apply in_range_bounds in Hk as Hk', Hw as Hw'.
      destruct (IHm k v Hk Hw) as (Hrow & Hcol & Hsquare).
      rewrite (set_cell_row_mark b r c Hwf Hr Hc val k v) by lia.
      rewrite (set_cell_col_mark b r c Hwf Hr Hc val k v) by lia.
      rewrite (set_cell_square_mark b r c Hwf Hr Hc val k v) by lia.
      repeat split; destruct (decide _); try assumption; now right.
  - pose proof (con_wf b (reachable_consistent b Hreach)) as Hwf.
    apply in_range_bounds in Hv as Hv'.
    split.
    + intros i j Hi Hj. apply in_range_bounds in Hi as Hi', Hj as Hj'.
      rewrite (unset_cell_cell_at b r c Hwf Hr Hc val i j) by lia.
      destruct (decide (i = r /\ j = c)); [now left | now apply IHc].
    + intros k v Hk Hw. apply in_range_bounds in Hk as Hk', Hw as Hw'.
      destruct (IHm k v Hk Hw) as (Hrow & Hcol & Hsquare).
      rewrite (unset_cell_row_mark b r c Hwf Hr Hc val k v) by lia.
      rewrite (unset_cell_col_mark b r c Hwf Hr Hc val k v) by lia.
      rewrite (unset_cell_square_mark b r c Hwf Hr Hc val k v) by lia.
      repeat split; destruct (decide _); try assumption; now left.
Qed.

(** X12. On a board the program gets to, taking the value of a cell
    away with [unset_cell] and putting it back with [set_cell] gives the
    same board in every field: [unset_cell] loses nothing that
    [set_cell] does not write again. *)
Theorem set_cell_inverts_unset_cell (b : board) (r c val : Z) :
  reachable b -> in_range r -> in_range c -> in_range val ->
  holds b r c val ->
  set_cell (unset_cell b r c val) r c val = b.
Proof.
  intros Hreach Hr Hc Hv Hh.
  pose proof (reachable_consistent b Hreach) as Hcon.
  pose proof (con_wf b Hcon) as Hwf.
  destruct (reachable_binary b Hreach) as [Hflag Hmarks].
  pose proof (unset_cell_well_formed b r c Hwf Hr Hc val) as Hwf'.
  assert (Hsq : in_range (square r c)) by now apply square_in_range.
  assert (Hcell : get2 (cells b) (ix r) (ix c) =
                  mkcell 1 val (RowsAt r) (ColumnsAt c) (SquaresAt (square r c))).
  { rewrite <- cell_at_get2.
    destruct (wf_linked b Hwf r c Hr Hc) as (Hl1 & Hl2 & Hl3).
    destruct Hh as [Hset Hval]. specialize (Hflag r c Hr Hc).
    destruct (cell_at b r c) as [f x p1 p2 p3]. cbn in *.
    destruct Hflag as [-> | ->]; [congruence |]. now subst. }
  assert (Hrow : get2 (rows b) (ix r) (ix val) = 1).
  { destruct (Hmarks r val Hr Hv) as ([Hz | Hone] & _); [| exact Hone].
    exfalso. revert Hz. apply (con_rows b Hcon r val Hr Hv). now exists r, c. }
  assert (Hcol : get2 (columns b) (ix c) (ix val) = 1).
  { destruct (Hmarks c val Hc Hv) as (_ & [Hz | Hone] & _); [| exact Hone].
    exfalso. revert Hz. apply (con_cols b Hcon c val Hc Hv). now exists r, c. }
  assert (Hsquare : get2 (squares b) (ix (square r c)) (ix val) = 1).
  { destruct (Hmarks (square r c) val Hsq Hv) as (_ & _ & [Hz | Hone]); [| exact Hone].
    exfalso. revert Hz. apply (con_squares b Hcon (square r c) val Hsq Hv).
    now exists r, c. }
  rewrite set_cell_eq;
    [| apply allocated_cell_inside; auto using wf_allocated | now apply wf_linked].
  rewrite unset_cell_eq;
    [| apply allocated_cell_inside; auto using wf_allocated | now apply wf_linked].
  cbn [unset_cells cells rows columns squares].
  rewrite (upd2_restore (cells b)) by exact Hcell.
  rewrite (upd2_restore (rows b)) by exact Hrow.
  rewrite (upd2_restore (columns b)) by exact Hcol.
  rewrite (upd2_restore (squares b)) by exact Hsquare.
  destruct b as [n cs rs co sq]. cbn [unset_cells cells rows columns squares].
  f_equal. lia.
Qed.

Lemma set_cell_inverts_unset_cell_witness :
  set_cell (unset_cell (set_cell empty_board 1 1 5) 1 1 5) 1 1 5 = set_cell empty_board 1 1 5.
Proof.
  apply (set_cell_inverts_unset_cell (set_cell empty_board 1 1 5) 1 1 5).
  - apply reach_set.
    + apply reach_init, blank_board_allocated.
    + apply in_range_intro. reflexivity.
    + apply in_range_intro. reflexivity.
    + apply in_range_intro. reflexivity.
    + now vm_compute.
    + now vm_compute.
  - apply in_range_intro. reflexivity.
  - apply in_range_intro. reflexivity.
  - apply in_range_intro. reflexivity.
  - split; [now vm_compute | now vm_compute].
Defined.

(** ** What [init_board] writes and what it leaves *)

Lemma mark_of_write_cell (b : board) (i j : Z) (x : cell) (p : cand_ptr) (v : Z) :
  mark_of (write_cell b i j x) p v = mark_of b p v.
Proof. now destruct p. Qed.

Lemma mark_of_write_unset_cells (b : board) (n : Z) (p : cand_ptr) (v : Z) :
  mark_of (write_unset_cells b n) p v = mark_of b p v.
Proof. now destruct p. Qed.

Lemma init_candidates_other (b : board) (p q : cand_ptr) (w : Z) :
  index_ok (ptr_index p) -> index_ok (ptr_index q) -> index_ok w ->
  q <> p \/ w = 0 ->
  mark_of (init_candidates b p) q w = mark_of b q w.
Proof.
  intros Hp Hq Hw Hne. unfold init_candidates.
  apply (foldl_keep _ (fun _ => True) (fun a => mark_of a q w = mark_of b q w));
    [exact I | reflexivity | auto |].
  intros a y Hy _ <-. apply elem_of_for_range in Hy.
  apply (mark_set_other a p q y w 0); try assumption.
  - unfold index_ok, MIN_NUM in *. lia.
  - destruct Hne as [Hne | ->]; [now left | right; unfold MIN_NUM in Hy; lia].
Qed.

Lemma init_row_mark_margin (b : board) (i : Z) (q : cand_ptr) (w : Z) :
  in_range i -> index_ok (ptr_index q) -> index_ok w ->
  ptr_index q = 0 \/ w = 0 ->
  mark_of (init_row b i) q w = mark_of b q w.
Proof.
  intros Hi Hq Hw Hne. unfold init_row.
  assert (Hi' : index_ok i) by now apply in_range_bounds.
  assert (Hptr : forall p, ptr_index p = i -> q <> p \/ w = 0).
  { intros p Hp. destruct Hne as [Hz | Hz]; [left | now right].
    intros ->. unfold in_range, MIN_NUM in Hi. lia. }
  apply (foldl_preserve _ (fun a => mark_of a q w = mark_of b q w)).
  - rewrite !init_candidates_other; auto.
  - intros a y <-. apply mark_of_write_cell.
Qed.

Lemma init_row_cell_margin (b : board) (i i' j' : Z) :
  in_range i -> index_ok i' -> index_ok j' -> i' = 0 \/ j' = 0 ->
  cell_at (init_row b i) i' j' = cell_at b i' j'.
Proof.
  intros Hi Hi' Hj' Hne. unfold init_row.
  apply (foldl_keep _ (fun _ => True) (fun a => cell_at a i' j' = cell_at b i' j'));
    [exact I | | auto |].
  - unfold cell_at. now rewrite !init_candidates_cells.
  - intros a y Hy _ <-. apply elem_of_for_range in Hy. unfold init_cell.
    unfold in_range, index_ok, MIN_NUM in *.
    apply write_cell_other; lia.
Qed.

Lemma init_board_margin (b : board) : same_margin (init_board b) b.
Proof.
  split.
  - intros i j Hi Hj Hne. rewrite init_board_unfold.
    apply (foldl_keep _ (fun _ => True) (fun a => cell_at a i j = cell_at b i j));
      [exact I | reflexivity | auto |].
    intros a y Hy _ <-. apply elem_of_for_range in Hy. now apply init_row_cell_margin.
  - intros p v Hp Hv Hne. rewrite init_board_unfold.
    apply (foldl_keep _ (fun _ => True) (fun a => mark_of a p v = mark_of b p v));
      [exact I | apply mark_of_write_unset_cells | auto |].
    intros a y Hy _ <-. apply elem_of_for_range in Hy. now apply init_row_mark_margin.
Qed.

Lemma index_ok_cases (i : Z) : index_ok i -> i = 0 \/ in_range i.
Proof. unfold index_ok, in_range, MIN_NUM. lia. Qed.

(** X13. [init_board] writes the 81 cells of rows and columns 1 to 9
    (no value, value 0, the pointers to row, column and square), the
    entries 1 to 9 of the candidates of rows, columns and squares 1 to 9
    (all 0) and the counter (81), and nothing else: entry 0 of every
    array is as it was. *)
Theorem init_board_writes (b0 : board) :
  allocated b0 ->
  unset_cells (init_board b0) = 81 /\
  (forall i j, index_ok i -> index_ok j ->
     cell_at (init_board b0) i j =
     if decide (in_range i /\ in_range j) then fresh_cell i j else cell_at b0 i j) /\
  (forall p v, index_ok (ptr_index p) -> index_ok v ->
     mark_of (init_board b0) p v =
     if decide (in_range (ptr_index p) /\ in_range v) then 0 else mark_of b0 p v).
Proof.
  intros Ha. destruct (init_board_margin b0) as [Hcells Hmarks].
  split; [now apply init_board_unset_cells |]. split.
  - intros i j Hi Hj. destruct (decide _) as [[Hi' Hj'] | Hno].
    + now apply init_board_cell_at.
    + apply Hcells; try assumption.
      destruct (index_ok_cases i Hi), (index_ok_cases j Hj); tauto.
  - intros p v Hp Hv. destruct (decide _) as [[Hp' Hv'] | Hno].
    + destruct (init_board_zeroed b0 Ha (ptr_index p) Hp' v Hv') as (Hr & Hc & Hs).
      destruct p as [k | k | k]; cbn [ptr_index] in Hr, Hc, Hs;
        [rewrite <- row_mark_of; exact Hr | rewrite <- col_mark_of; exact Hc
        | rewrite <- square_mark_of; exact Hs].
    + apply Hmarks; try assumption.
      destruct (index_ok_cases _ Hp), (index_ok_cases v Hv); tauto.
Qed.

Lemma init_board_writes_witness :
  unset_cells (init_board (set_cell empty_board 2 3 7)) = 81 /\
  cell_at (init_board (set_cell empty_board 2 3 7)) 2 3 = fresh_cell 2 3 /\
  mark_of (init_board (set_cell empty_board 2 3 7)) (RowsAt 2) 7 = 0.
Proof.
  assert (Ha : allocated (set_cell empty_board 2 3 7)).
  { apply set_cell_allocated.
    - apply init_board_well_formed, blank_board_allocated.
    - apply in_range_intro. reflexivity.
    - apply in_range_intro. reflexivity. }
  assert (H2 : index_ok 2) by (unfold index_ok, MAX_NUM; lia).
  assert (H3 : index_ok 3) by (unfold index_ok, MAX_NUM; lia).
  assert (H7 : index_ok 7) by (unfold index_ok, MAX_NUM; lia).
  destruct (init_board_writes (set_cell empty_board 2 3 7) Ha) as (Hn & Hcells & Hmarks).
  split; [exact Hn |]. split.
  - exact (Hcells 2 3 H2 H3).
  - exact (Hmarks (RowsAt 2) 7 H2 H7).
Defined.

Lemma lists_ext {A : Type} `{Inhabited A} (l l' : list (list A)) :
  sized l -> Forall sized l -> sized l' -> Forall sized l' ->
  (forall i j, index_ok i -> index_ok j ->
     get2 l (ix i) (ix j) = get2 l' (ix i) (ix j)) ->
  l = l'.
Proof.
  intros Hl Hall Hl' Hall' Hsame.
  assert (Hix : forall n, (n < Z.to_nat ARRAY_SIZE)%nat ->
                          index_ok (Z.of_nat n) /\ ix (Z.of_nat n) = n).
  { intros n Hn. unfold index_ok, ix. rewrite Nat2Z.id.
    unfold ARRAY_SIZE, MAX_NUM, MIN_NUM, TOTAL_NUMS in *. lia. }
  apply (list_eq_same_length _ _ (Z.to_nat ARRAY_SIZE)); [exact Hl' | exact Hl |].
  intros i x y Hi Hx Hy.
  pose proof (proj1 (Forall_lookup _ _) Hall i x Hx) as Hsx.
  pose proof (proj1 (Forall_lookup _ _) Hall' i y Hy) as Hsy.
  apply (list_eq_same_length _ _ (Z.to_nat ARRAY_SIZE)); [exact Hsy | exact Hsx |].
  intros j u v Hj Hu Hv.
  destruct (Hix i Hi) as [Hi1 Hi2], (Hix j Hj) as [Hj1 Hj2].
  specialize (Hsame _ _ Hi1 Hj1). unfold get2 in Hsame. rewrite Hi2, Hj2 in Hsame.
  rewrite (list_lookup_total_correct l i x Hx) in Hsame.
  rewrite (list_lookup_total_correct l' i y Hy) in Hsame.
  rewrite (list_lookup_total_correct x j u Hu) in Hsame.
  now rewrite (list_lookup_total_correct y j v Hv) in Hsame.
Qed.

Lemma board_ext (b b' : board) :
  allocated b -> allocated b' ->
  unset_cells b = unset_cells b' ->
  (forall i j, index_ok i -> index_ok j -> cell_at b i j = cell_at b' i j) ->
  (forall p v, index_ok (ptr_index p) -> index_ok v -> mark_of b p v = mark_of b' p v) ->
  b = b'.
Proof.
  intros [[? ?] [? ?] [? ?] [? ?]] [[? ?] [? ?] [? ?] [? ?]] Hn Hcells Hmarks.
  destruct b as [n cs rs co sq], b' as [n' cs' rs' co' sq'].
  cbn [unset_cells cells rows columns squares] in *.
  f_equal; [exact Hn | | | |]; apply lists_ext; try assumption.
  - intros i j Hi Hj. exact (Hmarks (RowsAt i) j Hi Hj).
  - intros i j Hi Hj. exact (Hmarks (ColumnsAt i) j Hi Hj).
  - intros i j Hi Hj. exact (Hmarks (SquaresAt i) j Hi Hj).
Qed.

(** X14. [init_board] forgets the board it is given: two boards that
    agree on entry 0 of every array, which [init_board] does not write,
    are initialised to the same board. So [init_board] on a board that
    has been initialised and played on gives the empty board again. *)
Theorem init_board_forgets (b b' : board) :
  allocated b -> allocated b' -> same_margin b b' ->
  init_board b = init_board b'.
Proof.
  intros Ha Ha' [Hcells Hmarks].
  destruct (init_board_margin b) as [Hc Hm], (init_board_margin b') as [Hc' Hm'].
  apply board_ext.
  - now apply init_board_allocated.
  - now apply init_board_allocated.
  - now rewrite !init_board_unset_cells.
  - intros i j Hi Hj.
    destruct (index_ok_cases i Hi) as [Hi0 | Hi1];
      [rewrite Hc, Hc' by auto; now apply Hcells; auto |].
    destruct (index_ok_cases j Hj) as [Hj0 | Hj1];
      [rewrite Hc, Hc' by auto; now apply Hcells; auto |].
    now rewrite !init_board_cell_at.
  - intros p v Hp Hv.
    destruct (index_ok_cases _ Hp) as [Hp0 | Hp1];
      [rewrite Hm, Hm' by auto; now apply Hmarks; auto |].
    destruct (index_ok_cases v Hv) as [Hv0 | Hv1];
      [rewrite Hm, Hm' by auto; now apply Hmarks; auto |].
    destruct (init_board_zeroed b Ha (ptr_index p) Hp1 v Hv1) as (Hr & Hco & Hs).
    destruct (init_board_zeroed b' Ha' (ptr_index p) Hp1 v Hv1) as (Hr' & Hco' & Hs').
    destruct p as [k | k | k]; cbn [ptr_index] in Hr, Hco, Hs, Hr', Hco', Hs';
      [rewrite <- !row_mark_of; rewrite Hr, Hr'
      | rewrite <- !col_mark_of; rewrite Hco, Hco'
      | rewrite <- !square_mark_of; rewrite Hs, Hs']; reflexivity.
Qed.

Lemma init_board_forgets_witness :
  init_board (set_cell empty_board 2 3 7) = empty_board.
Proof.
  apply (init_board_forgets (set_cell empty_board 2 3 7) blank_board).
  - apply set_cell_allocated.
    + apply init_board_well_formed, blank_board_allocated.
    + apply in_range_intro. reflexivity.
    + apply in_range_intro. reflexivity.
  - exact blank_board_allocated.
  - assert (Hcases : forall n, index_ok n -> In n (for_range 0 MAX_NUM)).
    { intros n Hn. apply list_elem_of_In, elem_of_for_range. exact Hn. }
    split.
    + intros i j Hi Hj [-> | ->];
        [specialize (Hcases j Hj) | specialize (Hcases i Hi)];
        vm_compute in Hcases;
        repeat (destruct Hcases as [<- | Hcases]; [now vm_compute |]);
        destruct Hcases.
    + intros [i | i | i] v Hi Hv; cbn [ptr_index] in *;
        (intros [-> | ->];
         [specialize (Hcases v Hv) | specialize (Hcases i Hi)];
         vm_compute in Hcases;
         repeat (destruct Hcases as [<- | Hcases]; [now vm_compute |]);
         destruct Hcases).
Defined.
